(** * Lattice-based WER: a shallow embedding of [task_04/src/lattice_wer.py]

    The development follows the Python module top to bottom: a small model
    of the Python runtime pieces the module relies on (exceptions, list
    indexing, insertion-ordered dictionaries, [max], [for] and [while]),
    then [WordLattice] and [LatticeWER], then pure reference functions for
    the two dynamic programs, the refinement lemmas that connect the
    table-filling code to them, and the properties of the specification.
    The last part characterises the functions one by one: the alignments
    of [_align_pair] and [_align_all_sequences], the nodes and edges of
    [_construct_lattice], the two consensus strategies,
    [compute_lattice_wer], [should_trust_models_over_reference] and the
    counts of [compute_standard_wer]. *)

From Stdlib Require Import QArith Ascii String.
From stdpp Require Import base tactics option numbers list sorting gmap strings.

Local Open Scope nat_scope.

(** ** Python runtime model *)

(** Exceptions the module can raise.  [NonTermination] is not a Python
    exception: it marks a [while] loop that used up the fuel it was given. *)
Inductive exn : Type :=
  | ValueError (msg : string)
  | IndexError
  | TypeError
  | KeyError
  | ZeroDivisionError
  | NonTermination.

Inductive result (A : Type) : Type :=
  | Ok (a : A)
  | Raise (e : exn).
Arguments Ok {A} a.
Arguments Raise {A} e.

#[global] Instance result_ret : MRet result := fun A a => Ok a.
#[global] Instance result_bind : MBind result := fun A B f r =>
  match r with
  | Ok a => f a
  | Raise e => Raise e
  end.

(** [l[i]] for a non-negative index. *)
Definition getitem {A} (l : list A) (i : nat) : result A :=
  match l !! i with
  | Some x => Ok x
  | None => Raise IndexError
  end.

(** [l[i] = v] for a non-negative index. *)
Definition setitem {A} (l : list A) (i : nat) (v : A) : result (list A) :=
  if decide (i < length l) then Ok (<[i:=v]> l) else Raise IndexError.

(** [t[i][j]] and [t[i][j] = v] on a list of rows. *)
Definition get2 {A} (t : list (list A)) (i j : nat) : result A :=
  row ← getitem t i; getitem row j.

Definition set2 {A} (t : list (list A)) (i j : nat) (v : A)
  : result (list (list A)) :=
  row ← getitem t i; row' ← setitem row j v; setitem t i row'.

(** [for x in xs: s = body(x, s)]. *)
Fixpoint for_each {A St} (xs : list A) (body : A → St → result St) (s : St)
  : result St :=
  match xs with
  | [] => Ok s
  | x :: xs' => s' ← body x s; for_each xs' body s'
  end.

(** [for i in range(lo, hi)]. *)
Definition for_range {St} (lo hi : nat) (body : nat → St → result St)
    (s : St) : result St :=
  for_each (seq lo (hi - lo)) body s.

(** [while cond(s): s = body(s)], cut off after [fuel] iterations. *)
Fixpoint while_loop {St} (fuel : nat) (cond : St → bool)
    (body : St → result St) (s : St) : result St :=
  if cond s then
    match fuel with
    | 0 => Raise NonTermination
    | S fuel' => s' ← body s; while_loop fuel' cond body s'
    end
  else Ok s.

(** [max(xs, key=key)]: the first element whose key is maximal; the
    running best is replaced only by a strictly greater key. *)
Fixpoint max_from {A K} (gt : K → K → bool) (key : A → result K)
    (xs : list A) (best : A) (kbest : K) : result A :=
  match xs with
  | [] => Ok best
  | x :: xs' =>
      k ← key x;
      if gt k kbest then max_from gt key xs' x k
      else max_from gt key xs' best kbest
  end.

Definition py_max {A K} (gt : K → K → bool) (key : A → result K)
    (xs : list A) : result A :=
  match xs with
  | [] => Raise (ValueError "max() arg is an empty sequence")
  | x :: xs' => k ← key x; max_from gt key xs' x k
  end.

Definition nat_gt (a b : nat) : bool := b <? a.
Definition Q_gt (a b : Q) : bool := negb (Qle_bool a b).

(** [a / b] on non-negative integers: the exact quotient (Python returns
    the float nearest to it). *)
Definition truediv (a b : nat) : result Q :=
  match b with
  | 0 => Raise ZeroDivisionError
  | S _ => Ok (Z.of_nat a # Pos.of_nat b)
  end.

(** Insertion-ordered dictionaries as association lists: [dict_set]
    overwrites in place when the key is present and appends otherwise, so
    keys stay distinct and keep their first-insertion order. *)
Section Dict.
Context {K V : Type} `{EqDecision K}.

Fixpoint dict_get (k : K) (d : list (K * V)) : option V :=
  match d with
  | [] => None
  | (k', v) :: d' => if decide (k' = k) then Some v else dict_get k d'
  end.

Fixpoint dict_set (k : K) (v : V) (d : list (K * V)) : list (K * V) :=
  match d with
  | [] => [(k, v)]
  | (k', v') :: d' =>
      if decide (k' = k) then (k, v) :: d' else (k', v') :: dict_set k v d'
  end.

Definition dict_keys (d : list (K * V)) : list K := d.*1.

(** [d[k]] on a plain [dict]. *)
Definition dict_getitem (k : K) (d : list (K * V)) : result V :=
  match dict_get k d with
  | Some v => Ok v
  | None => Raise KeyError
  end.

(** [d[k]] on a [defaultdict] whose factory yields [dflt]. *)
Definition dd_get (dflt : V) (k : K) (d : list (K * V)) : V :=
  default dflt (dict_get k d).
End Dict.

(** ** Tokens and case folding

    Tokens are strings; [lower] stands for [str.lower].  The development
    only relies on lowercasing being idempotent; [ascii_casefold] below is
    the ASCII instance used to run the code on examples. *)
Class CaseFold : Type := {
  lower : string → string;
  lower_idem : ∀ s, lower (lower s) = lower s
}.

Definition ascii_lower (c : ascii) : ascii :=
  let n := nat_of_ascii c in
  if (65 <=? n) && (n <=? 90) then ascii_of_nat (n + 32) else c.

Fixpoint string_lower (s : string) : string :=
  match s with
  | EmptyString => EmptyString
  | String c s' => String (ascii_lower c) (string_lower s')
  end.

#[global, refine] Instance ascii_casefold : CaseFold :=
  {| lower := string_lower |}.
Proof.
  induction s as [|c s IH]; simpl; [reflexivity|].
  rewrite IH. f_equal.
  destruct c as [[] [] [] [] [] [] [] []]; reflexivity.
Defined.

(** ** Data model *)

Record LatticeNode : Type := {
  position : nat;
  word : string;
  sources : gset string;
  confidence : Q
}.

Record LatticeEdge : Type := {
  start_pos : nat;
  end_pos : nat;
  edge_word : string;
  edge_sources : gset string;
  weight : Q
}.

Record WordLattice : Type := {
  alignment_unit : string;
  nodes : list LatticeNode;
  edges : list LatticeEdge;
  paths : list (list string)
}.

(** The operation tags of [_align_pair]: ['start'], ['match'],
    ['substitute'], ['delete'], ['insert']. *)
Inductive align_op : Type :=
  | op_start | op_match | op_substitute | op_delete | op_insert.

#[global] Instance align_op_eq_dec : EqDecision align_op.
Proof. solve_decision. Defined.

(** The operation codes of [_get_alignment_details]: [''], ['M'], ['S'],
    ['D'], ['I']. *)
Inductive op_code : Type :=
  | code_none | code_M | code_S | code_D | code_I.

(** One entry of an alignment: [(pos, word, op)]. *)
Definition aligned : Type := nat * string * align_op.

(** The dictionary returned by [_get_alignment_details]. *)
Record alignment_details : Type := {
  al_substitutions : nat;
  al_deletions : nat;
  al_insertions : nat
}.

(** The dictionary returned by [compute_standard_wer]. *)
Record WERRecord : Type := {
  wer : Q;
  distance : nat;
  reference_length : nat;
  substitutions : nat;
  deletions : nat;
  insertions : nat
}.

(** [min(a, b, c)]. *)
Definition min3 (a b c : nat) : nat := Nat.min (Nat.min a b) c.

(** ** [WordLattice]

    Indices such as [i-1] and the bound [len(positions) - 1] are written
    with truncated subtraction on [nat]; every use sits where the Python
    value is not negative, so the two agree.  A [dict] argument is an
    association list; a Python [dict] has distinct keys, and a result that
    needs them says so. *)
Section WordLattice.
Context `{CaseFold}.

(** [WordLattice.__init__]. *)
Definition WordLattice_init (unit : string) : WordLattice :=
  {| alignment_unit := unit; nodes := []; edges := []; paths := [] |}.

(** A cell of the table of [_align_pair]: [None] or a tuple [(cost, op)]. *)
Definition cost_at (dp : list (list (option (nat * align_op)))) (i j : nat)
  : result nat :=
  c ← get2 dp i j;
  match c with
  | Some (k, _) => Ok k
  | None => Raise TypeError
  end.

Definition op_at (dp : list (list (option (nat * align_op)))) (i j : nat)
  : result align_op :=
  c ← get2 dp i j;
  match c with
  | Some (_, o) => Ok o
  | None => Raise TypeError
  end.

(** Body of the double loop that fills the table of [_align_pair]. *)
Definition align_cell (seq1 seq2 : list string) (i j : nat)
    (dp : list (list (option (nat * align_op))))
  : result (list (list (option (nat * align_op)))) :=
  a ← getitem seq1 (i - 1);
  b ← getitem seq2 (j - 1);
  if decide (lower a = lower b) then
    match_cost ← cost_at dp (i - 1) (j - 1);
    set2 dp i j (Some (match_cost, op_match))
  else
    d ← cost_at dp (i - 1) (j - 1);
    let sub_cost := d + 1 in
    u ← cost_at dp (i - 1) j;
    let del_cost := u + 1 in
    l ← cost_at dp i (j - 1);
    let ins_cost := l + 1 in
    let min_cost := min3 sub_cost del_cost ins_cost in
    if decide (min_cost = sub_cost) then
      set2 dp i j (Some (sub_cost, op_substitute))
    else if decide (min_cost = del_cost) then
      set2 dp i j (Some (del_cost, op_delete))
    else
      set2 dp i j (Some (ins_cost, op_insert)).

(** Body of the backtracking [while] loop of [_align_pair]; the state is
    [(i, j, alignment)]. *)
Definition align_back (seq1 seq2 : list string)
    (dp : list (list (option (nat * align_op))))
    (st : nat * nat * list aligned) : result (nat * nat * list aligned) :=
  let '(i, j, alignment) := st in
  if decide (i = 0) then
    w ← getitem seq2 (j - 1);
    Ok (i, j - 1, alignment ++ [(j - 1, w, op_insert)])
  else if decide (j = 0) then
    w ← getitem seq1 (i - 1);
    Ok (i - 1, j, alignment ++ [(i - 1, w, op_delete)])
  else
    op ← op_at dp i j;
    match op with
    | op_match =>
        w ← getitem seq2 (j - 1);
        Ok (i - 1, j - 1, alignment ++ [(i - 1, w, op_match)])
    | op_substitute =>
        w ← getitem seq2 (j - 1);
        Ok (i - 1, j - 1, alignment ++ [(i - 1, w, op_substitute)])
    | op_delete =>
        w ← getitem seq1 (i - 1);
        Ok (i - 1, j, alignment ++ [(i - 1, w, op_delete)])
    | op_insert =>
        w ← getitem seq2 (j - 1);
        Ok (i, j - 1, alignment ++ [(j - 1, w, op_insert)])
    | op_start => Ok (i, j, alignment)
    end.

(** The filled table of [_align_pair]. *)
Definition align_table (seq1 seq2 : list string)
  : result (list (list (option (nat * align_op)))) :=
  let m := length seq1 in
  let n := length seq2 in
  let dp := replicate (m + 1) (replicate (n + 1) None) in
  dp ← for_range 0 (m + 1) (λ i dp, set2 dp i 0 (Some (i, op_delete))) dp;
  dp ← for_range 0 (n + 1) (λ j dp, set2 dp 0 j (Some (j, op_insert))) dp;
  dp ← set2 dp 0 0 (Some (0, op_start));
  for_range 1 (m + 1) (λ i dp,
    for_range 1 (n + 1) (λ j dp, align_cell seq1 seq2 i j dp) dp) dp.

Definition align_continue (st : nat * nat * list aligned) : bool :=
  let '(i, j, _) := st in (0 <? i) || (0 <? j).

(** [WordLattice._align_pair].  Each iteration of the [while] loop that
    takes a branch lowers [i + j], so [m + n] iterations are enough. *)
Definition _align_pair (seq1 seq2 : list string) (name : string)
  : result (list aligned) :=
  let m := length seq1 in
  let n := length seq2 in
  dp ← align_table seq1 seq2;
  st ← while_loop (m + n) align_continue (align_back seq1 seq2 dp)
         (m, n, []);
  Ok (reverse st.2).

(** [WordLattice._align_all_sequences]. *)
Definition _align_all_sequences (hypotheses : list (string * list string))
    (reference : list string) : result (list (string * list aligned)) :=
  let all_sequences := dict_set "reference" reference hypotheses in
  anchor_name ←
    py_max nat_gt
      (λ k, s ← dict_getitem k all_sequences; Ok (length s))
      (dict_keys all_sequences);
  anchor_seq ← dict_getitem anchor_name all_sequences;
  for_each all_sequences (λ '(name, s) alignments,
    if decide (name = anchor_name) then
      Ok (dict_set name (imap (λ i w, (i, w, op_match)) s) alignments)
    else
      al ← _align_pair anchor_seq s name;
      Ok (dict_set name al alignments)) [].

(** [position_words[pos][word].add(model_name)] on the nested
    [defaultdict]. *)
Definition add_source (pos : nat) (w model_name : string)
    (position_words : list (nat * list (string * gset string)))
  : list (nat * list (string * gset string)) :=
  let words := dd_get [] pos position_words in
  let srcs := dd_get ∅ w words in
  dict_set pos (dict_set w (srcs ∪ {[model_name]}) words) position_words.

(** First loop of [_construct_lattice]: group words by position. *)
Definition group_words (alignments : list (string * list aligned))
  : list (nat * list (string * gset string)) :=
  foldl (λ position_words '(model_name, alignment),
    foldl (λ position_words '(pos, w, op),
      if decide (op ≠ op_delete)
      then add_source pos (lower w) model_name position_words
      else position_words) position_words alignment) [] alignments.

(** Body of the inner loop of [_construct_lattice]: one node, and one
    edge unless [pos] is the last position. *)
Definition add_node (total : nat) (positions : list nat) (i pos : nat)
    (entry : string * gset string) (self : WordLattice)
  : result WordLattice :=
  let '(w, srcs) := entry in
  conf ← truediv (size srcs) total;
  let node := {| position := pos; word := w; sources := srcs;
                 confidence := conf |} in
  let self := {| alignment_unit := alignment_unit self;
                 nodes := nodes self ++ [node];
                 edges := edges self;
                 paths := paths self |} in
  if i <? length positions - 1 then
    next_pos ← getitem positions (i + 1);
    let edge := {| start_pos := pos; end_pos := next_pos; edge_word := w;
                   edge_sources := srcs; weight := 1 - conf |} in
    Ok {| alignment_unit := alignment_unit self;
          nodes := nodes self;
          edges := edges self ++ [edge];
          paths := paths self |}
  else Ok self.

(** [WordLattice._construct_lattice]. *)
Definition _construct_lattice (self : WordLattice)
    (alignments : list (string * list aligned)) (reference : list string)
  : result WordLattice :=
  let position_words := group_words alignments in
  let positions := merge_sort (≤) (dict_keys position_words) in
  for_each (imap (λ i pos, (i, pos)) positions) (λ '(i, pos) self,
    let words_at_pos := dd_get [] pos position_words in
    for_each words_at_pos
      (add_node (length alignments) positions i pos) self) self.

(** [WordLattice.build_from_hypotheses]. *)
Definition build_from_hypotheses (self : WordLattice)
    (hypotheses : list (string * list string)) (reference : list string)
  : result WordLattice :=
  alignments ← _align_all_sequences hypotheses reference;
  _construct_lattice self alignments reference.

(** [position_words[node.position].append(x)] on a [defaultdict(list)]. *)
Definition dd_append {A} (pos : nat) (x : A)
    (position_words : list (nat * list A)) : list (nat * list A) :=
  dict_set pos (dd_get [] pos position_words ++ [x]) position_words.

(** [WordLattice._voting_consensus]. *)
Definition _voting_consensus (self : WordLattice) : result (list string) :=
  let position_words :=
    foldl (λ pw node,
      dd_append (position node) (word node, size (sources node)) pw)
      [] (nodes self) in
  for_each (merge_sort (≤) (dict_keys position_words)) (λ pos consensus,
    let words := dd_get [] pos position_words in
    best ← py_max nat_gt (λ x, Ok x.2) words;
    Ok (consensus ++ [best.1])) [].

(** [WordLattice._confidence_consensus]. *)
Definition _confidence_consensus (self : WordLattice)
  : result (list string) :=
  let position_words :=
    foldl (λ pw node,
      dd_append (position node) (word node, confidence node) pw)
      [] (nodes self) in
  for_each (merge_sort (≤) (dict_keys position_words)) (λ pos consensus,
    let words := dd_get [] pos position_words in
    best ← py_max Q_gt (λ x, Ok x.2) words;
    Ok (consensus ++ [best.1])) [].

(** [WordLattice.get_consensus_transcription]: the lattice after the
    call, and the value returned or the exception raised. *)
Definition get_consensus_transcription (self : WordLattice)
    (strategy : string) : WordLattice * result (list string) :=
  if decide (strategy = "voting") then (self, _voting_consensus self)
  else if decide (strategy = "confidence")
  then (self, _confidence_consensus self)
  else (self, Raise (ValueError ("Unknown strategy: " +:+ strategy))).

(** The loop of [should_trust_models_over_reference] that picks the
    reference word and the consensus word. *)
Definition pick_words (max_confidence : Q) (nodes_at_pos : list LatticeNode)
  : option string * option string :=
  foldl (λ '(reference_word, consensus_word) node,
    (if decide ("reference" ∈ sources node) then Some (word node)
     else reference_word,
     if Qeq_bool (confidence node) max_confidence then Some (word node)
     else consensus_word)) (None, None) nodes_at_pos.

(** [WordLattice.should_trust_models_over_reference]. *)
Definition should_trust_models_over_reference (self : WordLattice)
    (pos : nat) (threshold : Q) : result bool :=
  let nodes_at_pos := filter (λ n, position n = pos) (nodes self) in
  match nodes_at_pos with
  | [] => Ok false
  | _ :: _ =>
      max_confidence ← py_max Q_gt Ok (confidence <$> nodes_at_pos);
      let '(reference_word, consensus_word) :=
        pick_words max_confidence nodes_at_pos in
      if Qle_bool threshold max_confidence
         && negb (bool_decide (reference_word = consensus_word))
      then Ok true
      else Ok false
  end.
End WordLattice.

(** ** [LatticeWER] *)

(** [editdistance.eval] comes from the third-party package [editdistance],
    which is not part of the repository.  It returns the Levenshtein
    distance of two sequences and compares their elements as they are
    (no case folding).  The model is the textbook recurrence on the
    prefixes [a[:i]] and [b[:j]]. *)
Fixpoint lev (a b : list string) (i : nat) : nat → nat :=
  match i with
  | 0 => λ j, j
  | S i' =>
      fix lev_row (j : nat) : nat :=
        match j with
        | 0 => S i'
        | S j' =>
            min3 (lev a b i' (S j') + 1)
                 (lev_row j' + 1)
                 (lev a b i' j' + if decide (a !! i' = b !! j') then 0 else 1)
        end
  end.

Definition editdistance_eval (a b : list string) : nat :=
  lev a b (length a) (length b).

(** Loop state of the counting [while] loop of [_get_alignment_details]:
    [(i, j, subs, dels, ins)]. *)
Record count_state : Type := {
  cs_i : nat; cs_j : nat; cs_subs : nat; cs_dels : nat; cs_ins : nat
}.

Section LatticeWER.
Context `{CaseFold}.

(** Body of the double loop that fills [dp] and [ops]. *)
Definition details_cell (hyp ref : list string) (i j : nat)
    (st : list (list nat) * list (list op_code))
  : result (list (list nat) * list (list op_code)) :=
  let '(dp, ops) := st in
  a ← getitem hyp (i - 1);
  b ← getitem ref (j - 1);
  if decide (lower a = lower b) then
    d ← get2 dp (i - 1) (j - 1);
    dp ← set2 dp i j d;
    ops ← set2 ops i j code_M;
    Ok (dp, ops)
  else
    d ← get2 dp (i - 1) (j - 1);
    let sub := d + 1 in
    u ← get2 dp (i - 1) j;
    let delete := u + 1 in
    l ← get2 dp i (j - 1);
    let insert := l + 1 in
    let min_cost := min3 sub delete insert in
    dp ← set2 dp i j min_cost;
    if decide (min_cost = sub) then
      ops ← set2 ops i j code_S; Ok (dp, ops)
    else if decide (min_cost = delete) then
      ops ← set2 ops i j code_D; Ok (dp, ops)
    else
      ops ← set2 ops i j code_I; Ok (dp, ops).

(** The filled tables [dp] and [ops] of [_get_alignment_details]. *)
Definition details_tables (hyp ref : list string)
  : result (list (list nat) * list (list op_code)) :=
  let m := length hyp in
  let n := length ref in
  let dp := replicate (m + 1) (replicate (n + 1) 0) in
  let ops := replicate (m + 1) (replicate (n + 1) code_none) in
  st ← for_range 0 (m + 1) (λ i '(dp, ops),
         dp ← set2 dp i 0 i; ops ← set2 ops i 0 code_D; Ok (dp, ops))
       (dp, ops);
  st ← for_range 0 (n + 1) (λ j '(dp, ops),
         dp ← set2 dp 0 j j; ops ← set2 ops 0 j code_I; Ok (dp, ops))
       st;
  ops ← set2 st.2 0 0 code_none;
  for_range 1 (m + 1) (λ i st,
    for_range 1 (n + 1) (λ j st, details_cell hyp ref i j st) st)
    (st.1, ops).

Definition count_continue (st : count_state) : bool :=
  (0 <? cs_i st) || (0 <? cs_j st).

(** Body of the counting [while] loop. *)
Definition count_step (ops : list (list op_code)) (st : count_state)
  : result count_state :=
  let '{| cs_i := i; cs_j := j; cs_subs := subs; cs_dels := dels;
          cs_ins := ins |} := st in
  if decide (i = 0) then
    Ok {| cs_i := i; cs_j := j - 1; cs_subs := subs; cs_dels := dels;
          cs_ins := ins + 1 |}
  else if decide (j = 0) then
    Ok {| cs_i := i - 1; cs_j := j; cs_subs := subs; cs_dels := dels + 1;
          cs_ins := ins |}
  else
    op ← get2 ops i j;
    match op with
    | code_M =>
        Ok {| cs_i := i - 1; cs_j := j - 1; cs_subs := subs;
              cs_dels := dels; cs_ins := ins |}
    | code_S =>
        Ok {| cs_i := i - 1; cs_j := j - 1; cs_subs := subs + 1;
              cs_dels := dels; cs_ins := ins |}
    | code_D =>
        Ok {| cs_i := i - 1; cs_j := j; cs_subs := subs;
              cs_dels := dels + 1; cs_ins := ins |}
    | _ =>
        Ok {| cs_i := i; cs_j := j - 1; cs_subs := subs; cs_dels := dels;
              cs_ins := ins + 1 |}
    end.

(** [LatticeWER._get_alignment_details].  Every iteration of the
    [while] loop lowers [i + j], so [m + n] iterations are enough. *)
Definition _get_alignment_details (hyp ref : list string)
  : result alignment_details :=
  let m := length hyp in
  let n := length ref in
  tables ← details_tables hyp ref;
  st ← while_loop (m + n) count_continue (count_step tables.2)
         {| cs_i := m; cs_j := n; cs_subs := 0; cs_dels := 0;
            cs_ins := 0 |};
  Ok {| al_substitutions := cs_subs st;
        al_deletions := cs_dels st;
        al_insertions := cs_ins st |}.

(** [LatticeWER.compute_standard_wer]. *)
Definition compute_standard_wer (hypothesis reference : list string)
  : result WERRecord :=
  let distance := editdistance_eval hypothesis reference in
  alignment ← _get_alignment_details hypothesis reference;
  wer ← (if 0 <? length reference
         then truediv distance (length reference)
         else Ok 0%Q);
  Ok {| wer := wer;
        distance := distance;
        reference_length := length reference;
        substitutions := al_substitutions alignment;
        deletions := al_deletions alignment;
        insertions := al_insertions alignment |}.
End LatticeWER.

(** The per-model dictionary of [compute_lattice_wer]. *)
Record LatticeWERResult : Type := {
  standard_wer : WERRecord;
  lattice_wer : WERRecord;
  improvement : Q;
  improved : bool;
  hypothesis_length : nat
}.

(** The dictionary stored under ['_meta']. *)
Record Metadata : Type := {
  original_reference : list string;
  consensus_transcription : list string;
  meta_reference_length : nat;
  consensus_length : nat;
  meta_alignment_unit : string;
  trust_threshold : Q
}.

(** A value of the dictionary returned by [compute_lattice_wer]: the
    result of a model, or the metadata. *)
Inductive results_entry : Type :=
  | ModelResult (r : LatticeWERResult)
  | Meta (m : Metadata).

Section LatticeWEROrchestrator.
Context `{CaseFold}.

(** Body of the loop of [compute_lattice_wer] over the hypotheses. *)
Definition model_result (reference consensus : list string)
    (entry : string * list string)
    (results : list (string * results_entry))
  : result (list (string * results_entry)) :=
  let '(model_name, hypothesis) := entry in
  standard ← compute_standard_wer hypothesis reference;
  lattice ← compute_standard_wer hypothesis consensus;
  let improvement := (wer standard - wer lattice)%Q in
  Ok (dict_set model_name
        (ModelResult {| standard_wer := standard;
                        lattice_wer := lattice;
                        improvement := improvement;
                        improved := Q_gt improvement 0;
                        hypothesis_length := length hypothesis |})
        results).

(** [LatticeWER.compute_lattice_wer]; [unit] is [self.alignment_unit]. *)
Definition compute_lattice_wer (unit : string)
    (hypotheses : list (string * list string)) (reference : list string)
    (threshold : Q) : result (list (string * results_entry)) :=
  lattice ← build_from_hypotheses (WordLattice_init unit) hypotheses
              reference;
  consensus ← (get_consensus_transcription lattice "voting").2;
  results ← for_each hypotheses (model_result reference consensus) [];
  Ok (dict_set "_meta"
        (Meta {| original_reference := reference;
                 consensus_transcription := consensus;
                 meta_reference_length := length reference;
                 consensus_length := length consensus;
                 meta_alignment_unit := unit;
                 trust_threshold := threshold |})
        results).
End LatticeWEROrchestrator.

(** ** Reference functions and proof vocabulary *)

(** [returns r P]: the computation [r] ends without an exception, with a
    value that satisfies [P]. *)
Definition returns {A} (r : result A) (P : A → Prop) : Prop :=
  match r with
  | Ok a => P a
  | Raise _ => False
  end.

(** The cell [t[i][j]] as a partial function. *)
Definition cell_of {A} (t : list (list A)) (i j : nat) : option A :=
  row ← t !! i; row !! j.

(** A table with rows [0..m] and columns [0..n] whose cells marked [done]
    hold the value given by [f]. *)
Definition tbl_inv {A} (m n : nat) (done : nat → nat → Prop)
    (f : nat → nat → A) (t : list (list A)) : Prop :=
  ∀ a b, a ≤ m → b ≤ n →
    ∃ v, cell_of t a b = Some v ∧ (done a b → v = f a b).

(** The cell written when the two tokens differ, from the costs of the
    diagonal, upper and left neighbours: ties go to substitute, then to
    delete, then to insert. *)
Definition choose (d u l : nat) : nat * align_op :=
  let sub := d + 1 in
  let del := u + 1 in
  let ins := l + 1 in
  let min_cost := min3 sub del ins in
  if decide (min_cost = sub) then (sub, op_substitute)
  else if decide (min_cost = del) then (del, op_delete)
  else (ins, op_insert).

(** The recurrence shared by the two dynamic programs, as a function of
    the cell: cost and operation for the prefixes [s1[:i]] and [s2[:j]]. *)
Fixpoint dp_cell `{CaseFold} (s1 s2 : list string) (i : nat)
  : nat → nat * align_op :=
  match i with
  | 0 => λ j, match j with 0 => (0, op_start) | S _ => (j, op_insert) end
  | S i' =>
      fix dp_row (j : nat) : nat * align_op :=
        match j with
        | 0 => (S i', op_delete)
        | S j' =>
            if decide (lower <$> s1 !! i' = lower <$> s2 !! j')
            then ((dp_cell s1 s2 i' j').1, op_match)
            else choose (dp_cell s1 s2 i' j').1 (dp_cell s1 s2 i' (S j')).1
                        (dp_row j').1
        end
  end.

(** The code [_get_alignment_details] stores for an operation. *)
Definition code_of (o : align_op) : op_code :=
  match o with
  | op_start => code_none
  | op_match => code_M
  | op_substitute => code_S
  | op_delete => code_D
  | op_insert => code_I
  end.

(** Cells filled once rows [1..i-1] are complete and row [i] is filled up
    to column [j-1]; row [0] and column [0] are filled beforehand. *)
Definition filled (i j a b : nat) : Prop :=
  a = 0 ∨ b = 0 ∨ a < i ∨ (a = i ∧ b < j).

(** The two tables of [_get_alignment_details] hold the costs and the
    operation codes of the recurrence on the cells marked [done]. *)
Definition details_inv `{CaseFold} (hyp ref : list string)
    (done : nat → nat → Prop)
    (st : list (list nat) * list (list op_code)) : Prop :=
  tbl_inv (length hyp) (length ref) done
    (λ a b, (dp_cell hyp ref a b).1) st.1
  ∧ tbl_inv (length hyp) (length ref) done
      (λ a b, code_of (dp_cell hyp ref a b).2) st.2.

(** One iteration of the counting loop, given the operation of the
    current cell. *)
Definition count_next (o : align_op) (st : count_state) : count_state :=
  match cs_i st, cs_j st with
  | 0, j =>
      {| cs_i := 0; cs_j := j - 1; cs_subs := cs_subs st;
         cs_dels := cs_dels st; cs_ins := cs_ins st + 1 |}
  | S i, 0 =>
      {| cs_i := i; cs_j := 0; cs_subs := cs_subs st;
         cs_dels := cs_dels st + 1; cs_ins := cs_ins st |}
  | S i, S j =>
      match o with
      | op_match =>
          {| cs_i := i; cs_j := j; cs_subs := cs_subs st;
             cs_dels := cs_dels st; cs_ins := cs_ins st |}
      | op_substitute =>
          {| cs_i := i; cs_j := j; cs_subs := cs_subs st + 1;
             cs_dels := cs_dels st; cs_ins := cs_ins st |}
      | op_delete =>
          {| cs_i := i; cs_j := S j; cs_subs := cs_subs st;
             cs_dels := cs_dels st + 1; cs_ins := cs_ins st |}
      | _ =>
          {| cs_i := S i; cs_j := j; cs_subs := cs_subs st;
             cs_dels := cs_dels st; cs_ins := cs_ins st + 1 |}
      end
  end.

(** The counting loop over the recurrence itself instead of a table. *)
Fixpoint count_run (opf : nat → nat → align_op) (fuel : nat)
    (st : count_state) : count_state :=
  if count_continue st then
    match fuel with
    | 0 => st
    | S fuel' =>
        count_run opf fuel' (count_next (opf (cs_i st) (cs_j st)) st)
    end
  else st.

(** What [_get_alignment_details] computes, without tables. *)
Definition alignment_details_spec `{CaseFold} (hyp ref : list string)
  : alignment_details :=
  let st :=
    count_run (λ i j, (dp_cell hyp ref i j).2) (length hyp + length ref)
      {| cs_i := length hyp; cs_j := length ref; cs_subs := 0;
         cs_dels := 0; cs_ins := 0 |} in
  {| al_substitutions := cs_subs st;
     al_deletions := cs_dels st;
     al_insertions := cs_ins st |}.

(** The grouping loop shared by the two consensus strategies, for any
    payload [f node] and any dictionary [acc] to start from. *)
Definition group_nodes {A} (f : LatticeNode → A) (acc : list (nat * list A))
    (ns : list LatticeNode) : list (nat * list A) :=
  foldl (λ pw node, dd_append (position node) (f node) pw) acc ns.

(** The second loop of both consensus strategies: one word per position,
    chosen by [max] over the second component. *)
Definition pick_best {K} (gt : K → K → bool)
    (position_words : list (nat * list (string * K))) (ps : list nat)
    (acc : list string) : result (list string) :=
  for_each ps (λ pos consensus,
    let words := dd_get [] pos position_words in
    best ← py_max gt (λ x, Ok x.2) words;
    Ok (consensus ++ [best.1])) acc.

(** What [_construct_lattice] guarantees of a node it creates when it is
    given [total] alignments. *)
Definition created_node `{CaseFold} (total : nat) (node : LatticeNode)
  : Prop :=
  lower (word node) = word node
  ∧ 0 < total
  ∧ confidence node = Z.of_nat (size (sources node)) # Pos.of_nat total.

(** The alignments the backtracking loop of [_align_pair] can leave in
    reversed order when it starts in cell [(i, j)]: the entries are listed
    from the origin to the cell, each one chosen by the operation stored
    in the cell it leaves. *)
Inductive path `{CaseFold} (s1 s2 : list string)
  : nat → nat → list aligned → Prop :=
  | path_origin : path s1 s2 0 0 []
  | path_diagonal i j x w o al :
      (dp_cell s1 s2 (S i) (S j)).2 = o →
      o = op_match ∨ o = op_substitute →
      s1 !! i = Some x →
      s2 !! j = Some w →
      path s1 s2 i j al →
      path s1 s2 (S i) (S j) (al ++ [(i, w, o)])
  | path_delete i j w al :
      (dp_cell s1 s2 (S i) j).2 = op_delete →
      s1 !! i = Some w →
      path s1 s2 i j al →
      path s1 s2 (S i) j (al ++ [(i, w, op_delete)])
  | path_insert i j w al :
      (dp_cell s1 s2 i (S j)).2 = op_insert →
      s2 !! j = Some w →
      path s1 s2 i j al →
      path s1 s2 i (S j) (al ++ [(j, w, op_insert)]).

(** What an entry [(pos, word, op)] of an alignment of [s2] to [s1] says. *)
Definition entry_ok `{CaseFold} (s1 s2 : list string) (e : aligned) : Prop :=
  match e.2 with
  | op_start => False
  | op_match =>
      ∃ x, s1 !! e.1.1 = Some x ∧ e.1.2 ∈ s2 ∧ lower x = lower e.1.2
  | op_substitute =>
      ∃ x, s1 !! e.1.1 = Some x ∧ e.1.2 ∈ s2 ∧ lower x ≠ lower e.1.2
  | op_delete => s1 !! e.1.1 = Some e.1.2
  | op_insert => s2 !! e.1.1 = Some e.1.2
  end.

(** The node and the edge [_construct_lattice] creates for an entry
    [(word, sources)] of the grouping dictionary. *)
Definition node_of (total pos : nat) (entry : string * gset string)
  : LatticeNode :=
  {| position := pos; word := entry.1; sources := entry.2;
     confidence := Z.of_nat (size entry.2) # Pos.of_nat total |}.

Definition edge_of (total pos next_pos : nat) (entry : string * gset string)
  : LatticeEdge :=
  {| start_pos := pos; end_pos := next_pos; edge_word := entry.1;
     edge_sources := entry.2;
     weight := 1 - (Z.of_nat (size entry.2) # Pos.of_nat total) |}.

(** The models that support the word [w] at position [pos]: those whose
    alignment has an entry there, other than a deletion, whose case-folded
    word is [w]. *)
Definition supports `{CaseFold} (alignments : list (string * list aligned))
    (pos : nat) (w name : string) : Prop :=
  ∃ alignment w' op,
    (name, alignment) ∈ alignments ∧ (pos, w', op) ∈ alignment
    ∧ op ≠ op_delete ∧ lower w' = w.

(** The first loop of [_construct_lattice] as one loop over the entries
    of all alignments, each tagged with the name of its model. *)
Definition events (alignments : list (string * list aligned))
  : list (aligned * string) :=
  alignments ≫= λ '(model_name, alignment), (λ e, (e, model_name)) <$> alignment.

Definition add_event `{CaseFold}
    (position_words : list (nat * list (string * gset string)))
    (ev : aligned * string) : list (nat * list (string * gset string)) :=
  let '(pos, w, op, model_name) := ev in
  if decide (op ≠ op_delete)
  then add_source pos (lower w) model_name position_words
  else position_words.

(** The set stored for the word [w] at position [pos], empty when there
    is none. *)
Definition stored (position_words : list (nat * list (string * gset string)))
    (pos : nat) (w : string) : gset string :=
  dd_get ∅ w (dd_get [] pos position_words).

(** Well-formed grouping dictionaries: distinct keys at both levels, no
    empty inner dictionary and no empty set. *)
Definition grouped_ok
    (position_words : list (nat * list (string * gset string))) : Prop :=
  NoDup (dict_keys position_words)
  ∧ Forall (λ e, NoDup (dict_keys e.2) ∧ e.2 ≠ []
                 ∧ Forall (λ ws, ws.2 ≠ ∅) e.2) position_words.

(** The nodes and edges [_construct_lattice] appends, from the grouping
    dictionary and the sorted positions. *)
Definition new_nodes (total : nat)
    (position_words : list (nat * list (string * gset string)))
    (positions : list nat) : list LatticeNode :=
  positions ≫= λ pos, node_of total pos <$> dd_get [] pos position_words.

Definition new_edges (total : nat)
    (position_words : list (nat * list (string * gset string)))
    (positions : list nat) : list LatticeEdge :=
  imap (λ i pos, (i, pos)) positions ≫= λ ip,
    if ip.1 <? length positions - 1
    then edge_of total ip.2 (default 0 (positions !! (ip.1 + 1)))
           <$> dd_get [] ip.2 position_words
    else [].

(** [r] is the first element of [l] at which [f] is greatest. *)
Definition first_max {A} (f : A → nat) (l : list A) (r : A) : Prop :=
  ∃ pre post,
    l = pre ++ r :: post
    ∧ Forall (λ x, f x < f r) pre
    ∧ Forall (λ x, f x ≤ f r) post.

(** The alignment [_align_all_sequences] stores for a sequence: all
    matches for the anchor, and the path of [_align_pair] against the
    anchor for every other sequence. *)
Definition aligned_to `{CaseFold} (anchor_name : string)
    (anchor_seq : list string) (entry : string * list string)
    (out : string * list aligned) : Prop :=
  out.1 = entry.1
  ∧ if decide (entry.1 = anchor_name)
    then out.2 = imap (λ i w, (i, w, op_match)) entry.2
    else path anchor_seq entry.2 (length anchor_seq) (length entry.2) out.2.

(** What [compute_lattice_wer] stores for a model: the two records of
    [compute_standard_wer], their difference, its sign and the length of
    the hypothesis. *)
Definition model_entry `{CaseFold} (reference consensus hypothesis : list string)
    (r : LatticeWERResult) : Prop :=
  compute_standard_wer hypothesis reference = Ok (standard_wer r)
  ∧ compute_standard_wer hypothesis consensus = Ok (lattice_wer r)
  ∧ improvement r = (wer (standard_wer r) - wer (lattice_wer r))%Q
  ∧ (improved r = true ↔ (wer (lattice_wer r) < wer (standard_wer r))%Q)
  ∧ hypothesis_length r = length hypothesis.

(** [r] is the first element of [l] at which the rational [f] is
    greatest. *)
Definition first_greatest {A} (f : A → Q) (l : list A) (r : A) : Prop :=
  ∃ pre post,
    l = pre ++ r :: post
    ∧ Forall (λ x, (f x < f r)%Q) pre
    ∧ Forall (λ x, (f x <= f r)%Q) post.

(** ** The runtime model: rules for [returns] *)

Lemma returns_bind {A B} (r : result A) (k : A → result B) (Q : B → Prop) :
  returns r (λ x, returns (k x) Q) → returns (r ≫= k) Q.
Proof. by destruct r. Qed.

Lemma returns_mono {A} (r : result A) (P Q : A → Prop) :
  returns r P → (∀ a, P a → Q a) → returns r Q.
Proof. destruct r; simpl; [auto|done]. Qed.

Lemma returns_exists {A} (r : result A) (P : A → Prop) :
  returns r P ↔ ∃ a, r = Ok a ∧ P a.
Proof.
  split.
  - destruct r as [a|e]; simpl; [eauto|done].
  - by intros (a & -> & Ha).
Qed.

Lemma returns_for_each {A St} (I : list A → St → Prop) (xs : list A)
    (body : A → St → result St) (s : St) :
  I [] s →
  (∀ pre x rest s, xs = pre ++ x :: rest → I pre s →
     returns (body x s) (I (pre ++ [x]))) →
  returns (for_each xs body s) (I xs).
Proof.
  revert I s. induction xs as [|x xs IH]; intros I s Hs Hbody; [done|].
  simpl. apply returns_bind.
  eapply returns_mono; [apply (Hbody [] x xs s); done|].
  intros s' Hs'. apply (IH (λ pre, I (x :: pre))); [done|].
  intros pre y rest s'' -> HI. apply (Hbody (x :: pre) y rest); done.
Qed.

Lemma returns_for_range {St} (I : nat → St → Prop) (lo hi : nat)
    (body : nat → St → result St) (s : St) :
  lo ≤ hi → I lo s →
  (∀ i s, lo ≤ i < hi → I i s → returns (body i s) (I (S i))) →
  returns (for_range lo hi body s) (I hi).
Proof.
  intros Hle Hs Hbody. unfold for_range.
  eapply returns_mono.
  - apply (returns_for_each (λ pre, I (lo + length pre))).
    + simpl. by rewrite Nat.add_0_r.
    + intros pre x rest s' Heq HI.
      assert (x = lo + length pre ∧ length pre < hi - lo) as [-> Hlt].
      { assert (Hx : seq lo (hi - lo) !! length pre = Some x).
        { rewrite Heq. by apply list_lookup_middle. }
        apply lookup_seq in Hx. lia. }
      rewrite length_app. simpl.
      replace (lo + (length pre + 1)) with (S (lo + length pre)) by lia.
      apply Hbody; [lia|done].
  - simpl. intros s'. rewrite length_seq.
    by replace (lo + (hi - lo)) with hi by lia.
Qed.

Lemma returns_while {St} (I : St → Prop) (V : St → nat) (fuel : nat)
    (cond : St → bool) (body : St → result St) (s : St) :
  I s → V s ≤ fuel →
  (∀ s, I s → cond s = true → returns (body s) (λ s', I s' ∧ V s' < V s)) →
  returns (while_loop fuel cond body s) (λ s', I s' ∧ cond s' = false).
Proof.
  intros Hs Hfuel Hbody. revert s Hs Hfuel.
  induction fuel as [|fuel IH]; intros s Hs Hfuel; simpl.
  - destruct (cond s) eqn:Hc; [|done].
    specialize (Hbody s Hs Hc). apply returns_exists in Hbody.
    destruct Hbody as (s' & _ & _ & Hlt). lia.
  - destruct (cond s) eqn:Hc; [|done].
    apply returns_bind. eapply returns_mono; [by apply Hbody|].
    intros s' [Hs' Hlt]. apply IH; [done|lia].
Qed.

(** ** Tables *)

Lemma cell_of_replicate {A} (m n a b : nat) (x : A) :
  a ≤ m → b ≤ n →
  cell_of (replicate (m + 1) (replicate (n + 1) x)) a b = Some x.
Proof.
  intros Ha Hb. unfold cell_of.
  rewrite lookup_replicate_2 by lia. simpl.
  by rewrite lookup_replicate_2 by lia.
Qed.

Lemma returns_getitem {A} (l : list A) (i : nat) (x : A) (Q : A → Prop) :
  l !! i = Some x → Q x → returns (getitem l i) Q.
Proof. intros Hx HQ. unfold getitem. by rewrite Hx. Qed.

Lemma returns_get2 {A} (t : list (list A)) (i j : nat) (v : A)
    (Q : A → Prop) :
  cell_of t i j = Some v → Q v → returns (get2 t i j) Q.
Proof.
  unfold cell_of, get2, getitem. intros Hc HQ.
  destruct (t !! i) as [row|]; simpl in *; [|done].
  by rewrite Hc.
Qed.

Lemma returns_set2 {A} (t : list (list A)) (i j : nat) (v : A)
    (Q : list (list A) → Prop) :
  is_Some (cell_of t i j) →
  (∀ t', (∀ a b, cell_of t' a b
                 = if decide (a = i ∧ b = j) then Some v else cell_of t a b) →
         Q t') →
  returns (set2 t i j v) Q.
Proof.
  unfold cell_of, set2, getitem, setitem. intros [old Hc] HQ.
  destruct (t !! i) as [row|] eqn:Hrow; simpl in *; [|done].
  pose proof (lookup_lt_Some _ _ _ Hc) as Hj.
  pose proof (lookup_lt_Some _ _ _ Hrow) as Hi.
  rewrite decide_True by done. simpl.
  rewrite decide_True by done. simpl.
  apply HQ. intros a b.
  destruct (decide (a = i)) as [->|Ha].
  - rewrite list_lookup_insert_eq by done. simpl.
    destruct (decide (b = j)) as [->|Hb].
    + rewrite decide_True by done. by apply list_lookup_insert_eq.
    + rewrite decide_False by (by intros [_ ?]).
      rewrite Hrow. simpl. by apply list_lookup_insert_ne.
  - rewrite decide_False by (by intros [? _]).
    by rewrite list_lookup_insert_ne.
Qed.

Lemma tbl_inv_replicate {A} (m n : nat) (f : nat → nat → A) (x : A) :
  tbl_inv m n (λ _ _, False) f (replicate (m + 1) (replicate (n + 1) x)).
Proof.
  intros a b Ha Hb. exists x. by rewrite cell_of_replicate.
Qed.

Lemma tbl_inv_get {A} m n done (f : nat → nat → A) t a b :
  tbl_inv m n done f t → a ≤ m → b ≤ n → done a b →
  cell_of t a b = Some (f a b).
Proof.
  intros Ht Ha Hb Hd. destruct (Ht a b Ha Hb) as (v & Hv & Hf).
  by rewrite Hv, Hf.
Qed.

Lemma returns_set2_inv {A} m n done done' (f f' : nat → nat → A) t i j v
    (Q : list (list A) → Prop) :
  tbl_inv m n done f t → i ≤ m → j ≤ n →
  (∀ a b, a ≤ m → b ≤ n → done' a b →
     if decide (a = i ∧ b = j) then f' a b = v
     else done a b ∧ f' a b = f a b) →
  (∀ t', tbl_inv m n done' f' t' → Q t') →
  returns (set2 t i j v) Q.
Proof.
  intros Ht Hi Hj Hdone HQ. apply returns_set2.
  - destruct (Ht i j Hi Hj) as (old & -> & _). by eexists.
  - intros t' Ht'. apply HQ. intros a b Ha Hb.
    rewrite Ht'. specialize (Hdone a b Ha Hb).
    destruct (decide (a = i ∧ b = j)) as [_|_].
    + exists v. split; [done|]. intros Hd. by rewrite Hdone.
    + destruct (Ht a b Ha Hb) as (w & Hw & Hf). exists w. split; [done|].
      intros Hd. destruct (Hdone Hd) as [Hd' ->]. by apply Hf.
Qed.

Lemma returns_set2_pair {A B} m n doneA doneA' (fA fA' : nat → nat → A)
    doneB doneB' (fB fB' : nat → nat → B) ta tb i j va vb :
  tbl_inv m n doneA fA ta → tbl_inv m n doneB fB tb → i ≤ m → j ≤ n →
  (∀ a b, a ≤ m → b ≤ n → doneA' a b →
     if decide (a = i ∧ b = j) then fA' a b = va
     else doneA a b ∧ fA' a b = fA a b) →
  (∀ a b, a ≤ m → b ≤ n → doneB' a b →
     if decide (a = i ∧ b = j) then fB' a b = vb
     else doneB a b ∧ fB' a b = fB a b) →
  returns (ta' ← set2 ta i j va; tb' ← set2 tb i j vb; Ok (ta', tb'))
    (λ st, tbl_inv m n doneA' fA' st.1 ∧ tbl_inv m n doneB' fB' st.2).
Proof.
  intros Hta Htb Hi Hj HA HB. apply returns_bind.
  eapply (returns_set2_inv m n doneA doneA' fA fA'); [done..|].
  intros ta' Hta'. apply returns_bind.
  eapply (returns_set2_inv m n doneB doneB' fB fB'); [done..|].
  intros tb' Htb'. by split.
Qed.

Lemma tbl_inv_weaken {A} m n done done' (f f' : nat → nat → A) t :
  tbl_inv m n done f t →
  (∀ a b, a ≤ m → b ≤ n → done' a b → done a b ∧ f' a b = f a b) →
  tbl_inv m n done' f' t.
Proof.
  intros Ht Hd a b Ha Hb. destruct (Ht a b Ha Hb) as (v & Hv & Hf).
  exists v. split; [done|]. intros Hd'.
  destruct (Hd a b Ha Hb Hd') as [? ->]. auto.
Qed.

(** ** The recurrence *)

Section Recurrence.
Context `{CaseFold}.
Implicit Types sa sb : list string.

Lemma dp_cell_S_S sa sb i j a b :
  sa !! i = Some a → sb !! j = Some b →
  dp_cell sa sb (S i) (S j)
  = if decide (lower a = lower b)
    then ((dp_cell sa sb i j).1, op_match)
    else choose (dp_cell sa sb i j).1 (dp_cell sa sb i (S j)).1
                (dp_cell sa sb (S i) j).1.
Proof.
  intros Ha Hb. change (dp_cell sa sb (S i) (S j)) with
    (if decide (lower <$> sa !! i = lower <$> sb !! j)
     then ((dp_cell sa sb i j).1, op_match)
     else choose (dp_cell sa sb i j).1 (dp_cell sa sb i (S j)).1
                 (dp_cell sa sb (S i) j).1).
  rewrite Ha, Hb. simpl.
  destruct (decide (lower a = lower b)) as [Heq|Hne].
  - by rewrite decide_True by congruence.
  - by rewrite decide_False by congruence.
Qed.

Lemma dp_cell_cost_0_r sa sb i : (dp_cell sa sb i 0).1 = i.
Proof. by destruct i. Qed.

Lemma dp_cell_cost_0_l sa sb j : (dp_cell sa sb 0 j).1 = j.
Proof. by destruct j. Qed.

Lemma choose_op d u l : (choose d u l).2 ≠ op_start ∧ (choose d u l).2 ≠ op_match.
Proof. unfold choose. repeat case_decide; done. Qed.

Lemma dp_cell_op_inner sa sb i j :
  i < length sa → j < length sb → (dp_cell sa sb (S i) (S j)).2 ≠ op_start.
Proof.
  intros Hi Hj.
  destruct (lookup_lt_is_Some_2 _ _ Hi) as [a Ha].
  destruct (lookup_lt_is_Some_2 _ _ Hj) as [b Hb].
  rewrite (dp_cell_S_S _ _ _ _ a b) by done.
  case_decide; [done|]. apply choose_op.
Qed.
End Recurrence.

(** ** [_align_pair]: the table holds the recurrence *)

Section AlignTable.
Context `{CaseFold}.
Variables sa sb : list string.
Let m := length sa.
Let n := length sb.
Let spec (a b : nat) : option (nat * align_op) := Some (dp_cell sa sb a b).

Lemma returns_cost_at done dp a b (Q : nat → Prop) :
  tbl_inv m n done spec dp → a ≤ m → b ≤ n → done a b →
  Q (dp_cell sa sb a b).1 → returns (cost_at dp a b) Q.
Proof.
  intros Hdp Ha Hb Hd HQ. unfold cost_at. apply returns_bind.
  eapply returns_get2; [by eapply tbl_inv_get|].
  unfold spec. by destruct (dp_cell sa sb a b).
Qed.

Lemma returns_op_at done dp a b (Q : align_op → Prop) :
  tbl_inv m n done spec dp → a ≤ m → b ≤ n → done a b →
  Q (dp_cell sa sb a b).2 → returns (op_at dp a b) Q.
Proof.
  intros Hdp Ha Hb Hd HQ. unfold op_at. apply returns_bind.
  eapply returns_get2; [by eapply tbl_inv_get|].
  unfold spec. by destruct (dp_cell sa sb a b).
Qed.

Lemma filled_step i j a b :
  filled i (S j) a b → ¬ (a = i ∧ b = j) → filled i j a b.
Proof. unfold filled. lia. Qed.

Lemma align_cell_spec i j dp :
  1 ≤ i ≤ m → 1 ≤ j ≤ n →
  tbl_inv m n (filled i j) spec dp →
  returns (align_cell sa sb i j dp) (tbl_inv m n (filled i (S j)) spec).
Proof.
  intros Hi Hj Hdp.
  destruct i as [|i]; [lia|]. destruct j as [|j]; [lia|].
  destruct (lookup_lt_is_Some_2 sa i) as [a Ha]; [fold m; lia|].
  destruct (lookup_lt_is_Some_2 sb j) as [b Hb]; [fold n; lia|].
  assert (Hset : ∀ v, v = dp_cell sa sb (S i) (S j) →
    returns (set2 dp (S i) (S j) (Some v))
            (tbl_inv m n (filled (S i) (S (S j))) spec)).
  { intros v ->. eapply returns_set2_inv; [done|lia|lia| |done].
    intros a' b' _ _ Hd. case_decide as Hab; [by destruct Hab as [-> ->]|].
    split; [by apply filled_step|done]. }
  unfold align_cell. simpl. rewrite !Nat.sub_0_r.
  apply returns_bind, (returns_getitem _ _ a); [done|].
  apply returns_bind, (returns_getitem _ _ b); [done|].
  pose proof (dp_cell_S_S sa sb i j a b Ha Hb) as Hcell.
  destruct (decide (lower a = lower b)) as [Heq|Hne].
  - apply returns_bind.
    eapply returns_cost_at; [done|lia|lia|unfold filled; lia|].
    by apply Hset.
  - unfold choose in Hcell.
    apply returns_bind.
    eapply returns_cost_at; [done|lia|lia|unfold filled; lia|].
    apply returns_bind.
    eapply returns_cost_at; [done|lia|lia|unfold filled; lia|].
    apply returns_bind.
    eapply returns_cost_at; [done|lia|lia|unfold filled; lia|].
    cbv zeta in *. repeat case_decide; by apply Hset.
Qed.

Lemma align_table_spec :
  returns (align_table sa sb) (tbl_inv m n (λ _ _, True) spec).
Proof.
  unfold align_table. fold m n.
  apply returns_bind.
  eapply returns_mono.
  { apply (returns_for_range (λ i,
      tbl_inv m n (λ a b, b = 0 ∧ a < i) (λ a _, Some (a, op_delete))));
      [lia| |].
    - eapply tbl_inv_weaken;
        [apply (tbl_inv_replicate _ _ (λ a _, Some (a, op_delete)))|].
      intros; lia.
    - intros i dp Hi Hdp. simpl.
      eapply returns_set2_inv; [done|lia|lia| |done].
      intros a b _ _ Hd. cbn beta in *. case_decide as Hab; [by destruct Hab as [-> _]|].
      split; [lia|done]. }
  intros dp1 Hdp1. simpl. apply returns_bind.
  eapply returns_mono.
  { apply (returns_for_range (λ j,
      tbl_inv m n (λ a b, (a ≠ 0 ∧ b = 0) ∨ (a = 0 ∧ b < j))
        (λ a b, if decide (a = 0) then Some (b, op_insert)
                else Some (a, op_delete)))); [lia| |].
    - eapply tbl_inv_weaken; [done|]. intros a b ? ? Hd. cbn beta in *.
      split; [lia|]. rewrite decide_False; [done|lia].
    - intros j dp Hj Hdp. simpl.
      eapply returns_set2_inv; [done|lia|lia| |done].
      intros a b _ _ Hd. cbn beta in *. case_decide as Hab; [by destruct Hab as [-> ->]|].
      split; [lia|done]. }
  intros dp2 Hdp2. simpl. apply returns_bind.
  eapply (returns_set2_inv m n _ (filled 1 0) _ spec); [done|lia|lia| |].
  { intros a b Ha Hb Hd. unfold filled in Hd.
    case_decide as Hab; [by destruct Hab as [-> ->]|].
    unfold spec. destruct a as [|a].
    - destruct b as [|b]; [lia|]. split; [lia|done].
    - destruct b as [|b]; [|lia]. split; [lia|done]. }
  intros dp3 Hdp3.
  eapply returns_mono.
  { apply (returns_for_range (λ i, tbl_inv m n (filled i 0) spec));
      [lia|done|].
    intros i dp Hi Hdp. simpl.
    eapply returns_mono.
    { apply (returns_for_range (λ j, tbl_inv m n (filled i j) spec));
        [lia| |].
      - eapply tbl_inv_weaken; [done|]. unfold filled. intros; split; [lia|done].
      - intros j dp' Hj Hdp'. simpl. apply align_cell_spec; [lia|lia|done]. }
    simpl. intros dp' Hdp'. eapply tbl_inv_weaken; [done|].
    unfold filled. intros; split; [lia|done]. }
  simpl. intros dp4 Hdp4. eapply tbl_inv_weaken; [done|].
  unfold filled. intros; split; [lia|done].
Qed.
End AlignTable.

(** ** [_align_pair] and [_align_all_sequences] return *)

Section AlignPair.
Context `{CaseFold}.

Lemma align_back_spec sa sb dp i j alignment :
  tbl_inv (length sa) (length sb) (λ _ _, True)
    (λ a b, Some (dp_cell sa sb a b)) dp →
  i ≤ length sa → j ≤ length sb → 0 < i + j →
  returns (align_back sa sb dp (i, j, alignment))
    (λ st, st.1.1 ≤ length sa ∧ st.1.2 ≤ length sb
           ∧ st.1.1 + st.1.2 < i + j).
Proof.
  intros Hdp Hi Hj Hpos. unfold align_back.
  destruct i as [|i].
  { destruct j as [|j]; [lia|]. simpl. rewrite Nat.sub_0_r.
    destruct (lookup_lt_is_Some_2 sb j) as [w Hw]; [lia|].
    apply returns_bind, (returns_getitem _ _ w); [done|]. simpl. lia. }
  destruct j as [|j].
  { simpl. rewrite Nat.sub_0_r.
    destruct (lookup_lt_is_Some_2 sa i) as [w Hw]; [lia|].
    apply returns_bind, (returns_getitem _ _ w); [done|]. simpl. lia. }
  destruct (lookup_lt_is_Some_2 sa i) as [wa Hwa]; [lia|].
  destruct (lookup_lt_is_Some_2 sb j) as [wb Hwb]; [lia|].
  rewrite decide_False by done. rewrite decide_False by done.
  apply returns_bind. eapply returns_op_at; [done|lia|lia|done|].
  pose proof (dp_cell_op_inner sa sb i j) as Hop.
  destruct (dp_cell sa sb (S i) (S j)).2; simpl; rewrite ?Nat.sub_0_r.
  - exfalso. apply Hop; [lia|lia|done].
  - apply returns_bind, (returns_getitem _ _ wb); [done|]. simpl. lia.
  - apply returns_bind, (returns_getitem _ _ wb); [done|]. simpl. lia.
  - apply returns_bind, (returns_getitem _ _ wa); [done|]. simpl. lia.
  - apply returns_bind, (returns_getitem _ _ wb); [done|]. simpl. lia.
Qed.

Lemma align_pair_returns sa sb name :
  returns (_align_pair sa sb name) (λ _, True).
Proof.
  unfold _align_pair. apply returns_bind.
  eapply returns_mono; [apply align_table_spec|].
  intros dp Hdp. simpl. apply returns_bind.
  eapply returns_mono.
  { apply (returns_while
      (λ st, st.1.1 ≤ length sa ∧ st.1.2 ≤ length sb)
      (λ st, st.1.1 + st.1.2)); [simpl; lia|simpl; lia|].
    intros [[i j] alignment] [Hi Hj] Hc. simpl in *.
    eapply returns_mono.
    - apply align_back_spec; [done|done|done|].
      apply orb_true_iff in Hc as [Hc|Hc]; apply Nat.ltb_lt in Hc; lia.
    - simpl. intros; lia. }
  done.
Qed.
End AlignPair.

(** ** Dictionaries and [max] *)

Section DictFacts.
Context {K V : Type} `{EqDecision K}.
Implicit Types d : list (K * V).

Lemma dict_get_set k k' v d :
  dict_get k (dict_set k' v d)
  = if decide (k' = k) then Some v else dict_get k d.
Proof.
  induction d as [|[k0 v0] d IH]; simpl.
  - by repeat case_decide.
  - repeat (case_decide; simpl; subst); try done.
Qed.

Lemma dict_keys_set k v d :
  dict_keys (dict_set k v d)
  = if decide (k ∈ dict_keys d) then dict_keys d else dict_keys d ++ [k].
Proof.
  unfold dict_keys. induction d as [|[k0 v0] d IH]; csimpl.
  - done.
  - destruct (decide (k0 = k)) as [->|Hne]; csimpl.
    + rewrite decide_True; [done|]. apply elem_of_cons. by left.
    + rewrite IH. destruct (decide (k ∈ d.*1)) as [Hin|Hnin].
      * rewrite decide_True; [done|]. apply elem_of_cons. by right.
      * rewrite decide_False; [done|].
        rewrite elem_of_cons. by intros [-> | ?].
Qed.

Lemma dict_get_is_Some k d : is_Some (dict_get k d) ↔ k ∈ dict_keys d.
Proof.
  unfold dict_keys. induction d as [|[k0 v0] d IH]; csimpl.
  - split; [by intros [? ?]|]. by intros ?%not_elem_of_nil.
  - rewrite elem_of_cons. case_decide; subst.
    + split; [by left|by eexists].
    + rewrite IH. split; [by right|]. by intros [-> | ?].
Qed.

Lemma dict_get_elem_of k v d : dict_get k d = Some v → (k, v) ∈ d.
Proof.
  induction d as [|[k0 v0] d IH]; simpl; [done|].
  case_decide; subst.
  - intros [= ->]. apply elem_of_cons. by left.
  - intros Hd. apply elem_of_cons. right. by apply IH.
Qed.

Lemma dict_keys_set_NoDup k v d :
  NoDup (dict_keys d) → NoDup (dict_keys (dict_set k v d)).
Proof.
  intros Hnd. rewrite dict_keys_set. case_decide; [done|].
  apply NoDup_app. split_and!; [done| |apply NoDup_singleton].
  intros x Hx Hx'. apply list_elem_of_singleton in Hx'. by subst.
Qed.
End DictFacts.

Lemma returns_max_from {A K} (gt : K → K → bool) (key : A → result K)
    (xs : list A) (best : A) (kbest : K) (P : A → Prop) :
  P best → Forall P xs → Forall (λ x, returns (key x) (λ _, True)) xs →
  returns (max_from gt key xs best kbest) P.
Proof.
  revert best kbest. induction xs as [|x xs IH]; intros best kbest Hb HP Hk;
    simpl; [done|].
  inversion_clear HP. inversion_clear Hk.
  apply returns_bind. eapply returns_mono; [done|].
  intros k _. simpl. destruct (gt k kbest); by apply IH.
Qed.

Lemma returns_py_max {A K} (gt : K → K → bool) (key : A → result K)
    (xs : list A) (P : A → Prop) :
  xs ≠ [] → Forall P xs → Forall (λ x, returns (key x) (λ _, True)) xs →
  returns (py_max gt key xs) P.
Proof.
  intros Hne HP Hk. destruct xs as [|x xs]; [done|]. simpl.
  inversion_clear HP. inversion_clear Hk.
  apply returns_bind. eapply returns_mono; [done|].
  intros k _. simpl. by apply returns_max_from.
Qed.

Section AlignAll.
Context `{CaseFold}.

(** [_align_all_sequences] returns one alignment per sequence, under the
    names of the sequences and in their order. *)
Lemma align_all_sequences_spec hypotheses reference :
  returns (_align_all_sequences hypotheses reference)
    (λ alignments,
       NoDup (dict_keys hypotheses) →
       dict_keys alignments
       = dict_keys (dict_set "reference" reference hypotheses)).
Proof.
  unfold _align_all_sequences.
  set (all_sequences := dict_set "reference" reference hypotheses).
  assert (Hkey : ∀ k, k ∈ dict_keys all_sequences →
            ∃ s, dict_getitem k all_sequences = Ok s).
  { intros k Hk. apply dict_get_is_Some in Hk as [s Hs].
    exists s. unfold dict_getitem. by rewrite Hs. }
  apply returns_bind.
  eapply returns_mono.
  { apply (returns_py_max _ _ _ (λ k, k ∈ dict_keys all_sequences)).
    - intros Hnil.
      assert (Hin : "reference" ∈ dict_keys all_sequences).
      { apply dict_get_is_Some. unfold all_sequences.
        rewrite dict_get_set, decide_True by done. by eexists. }
      rewrite Hnil in Hin. by apply not_elem_of_nil in Hin.
    - by apply Forall_forall.
    - apply Forall_forall. intros k Hk.
      destruct (Hkey k Hk) as [s ->]. done. }
  intros anchor_name Hanchor. simpl.
  destruct (Hkey _ Hanchor) as [anchor_seq ->]. simpl.
  apply (returns_for_each (λ pre alignments,
    NoDup (dict_keys hypotheses) → dict_keys alignments = dict_keys pre));
    [done|].
  intros pre [name s] rest alignments Heq Hpre.
  assert (Hset : ∀ al, NoDup (dict_keys hypotheses) →
            dict_keys (dict_set name al alignments)
            = dict_keys (pre ++ [(name, s)])).
  { intros al Hnd. rewrite dict_keys_set, Hpre by done.
    assert (Hnd' : NoDup (dict_keys all_sequences))
      by (by apply dict_keys_set_NoDup).
    unfold dict_keys in *. rewrite Heq, fmap_app in Hnd'. csimpl in Hnd'.
    apply NoDup_app in Hnd' as (_ & Hnot & _).
    rewrite decide_False; [by rewrite fmap_app|].
    intros Hin. apply (Hnot name Hin). by left. }
  case_decide.
  - simpl. by apply Hset.
  - apply returns_bind.
    eapply returns_mono; [apply align_pair_returns|].
    intros al _. simpl. by apply Hset.
Qed.

Lemma align_all_sequences_returns hypotheses reference :
  returns (_align_all_sequences hypotheses reference) (λ _, True).
Proof.
  eapply returns_mono; [apply align_all_sequences_spec|done].
Qed.
End AlignAll.

(** ** [_get_alignment_details]: the tables hold the recurrence *)

Section DetailsTables.
Context `{CaseFold}.
Variables hyp ref : list string.
Let m := length hyp.
Let n := length ref.
Let costf (a b : nat) : nat := (dp_cell hyp ref a b).1.
Let opf (a b : nat) : op_code := code_of (dp_cell hyp ref a b).2.

Lemma details_cell_spec i j st :
  1 ≤ i ≤ m → 1 ≤ j ≤ n →
  details_inv hyp ref (filled i j) st →
  returns (details_cell hyp ref i j st)
    (details_inv hyp ref (filled i (S j))).
Proof.
  intros Hi Hj. destruct st as [dp ops]. intros [Hdp Hops]. simpl in *.
  fold m n costf opf in Hdp, Hops.
  destruct i as [|i]; [lia|]. destruct j as [|j]; [lia|].
  destruct (lookup_lt_is_Some_2 hyp i) as [a Ha]; [fold m; lia|].
  destruct (lookup_lt_is_Some_2 ref j) as [b Hb]; [fold n; lia|].
  assert (Hset : ∀ c o, (c, o) = dp_cell hyp ref (S i) (S j) →
    returns (dp' ← set2 dp (S i) (S j) c;
             ops' ← set2 ops (S i) (S j) (code_of o); Ok (dp', ops'))
            (details_inv hyp ref (filled (S i) (S (S j))))).
  { intros c o Hco. unfold details_inv. fold m n costf opf.
    eapply (returns_set2_pair m n _ _ costf costf _ _ opf opf);
      [done|done|lia|lia| |].
    - intros a' b' _ _ Hd. case_decide as Hab.
      + destruct Hab as [-> ->]. unfold costf. by rewrite <-Hco.
      + split; [by apply filled_step|done].
    - intros a' b' _ _ Hd. case_decide as Hab.
      + destruct Hab as [-> ->]. unfold opf. by rewrite <-Hco.
      + split; [by apply filled_step|done]. }
  unfold details_cell. simpl. rewrite !Nat.sub_0_r.
  apply returns_bind, (returns_getitem _ _ a); [done|].
  apply returns_bind, (returns_getitem _ _ b); [done|].
  pose proof (dp_cell_S_S hyp ref i j a b Ha Hb) as Hcell.
  destruct (decide (lower a = lower b)) as [Heq|Hne].
  - apply returns_bind.
    eapply returns_get2;
      [eapply tbl_inv_get; [done|lia|lia|unfold filled; lia]|].
    by apply (Hset _ op_match).
  - unfold choose in Hcell.
    apply returns_bind.
    eapply returns_get2;
      [eapply tbl_inv_get; [done|lia|lia|unfold filled; lia]|].
    apply returns_bind.
    eapply returns_get2;
      [eapply tbl_inv_get; [done|lia|lia|unfold filled; lia]|].
    apply returns_bind.
    eapply returns_get2;
      [eapply tbl_inv_get; [done|lia|lia|unfold filled; lia]|].
    unfold costf in *. cbv zeta in *.
    repeat case_decide.
    + apply (Hset _ op_substitute). rewrite Hcell.
      f_equal. unfold min3 in *. lia.
    + apply (Hset _ op_delete). rewrite Hcell.
      f_equal. unfold min3 in *. lia.
    + apply (Hset _ op_insert). rewrite Hcell.
      f_equal. unfold min3 in *. lia.
Qed.

Lemma details_tables_spec :
  returns (details_tables hyp ref) (details_inv hyp ref (λ _ _, True)).
Proof.
  unfold details_tables, details_inv. fold m n costf opf.
  apply returns_bind.
  eapply returns_mono.
  { apply (returns_for_range (λ i st,
      tbl_inv m n (λ a b, b = 0 ∧ a < i) costf st.1
      ∧ tbl_inv m n (λ a b, b = 0 ∧ a < i) (λ _ _, code_D) st.2));
      [lia| |].
    - split; simpl.
      + eapply tbl_inv_weaken; [apply (tbl_inv_replicate _ _ costf)|].
        intros; lia.
      + eapply tbl_inv_weaken;
          [apply (tbl_inv_replicate _ _ (λ _ _, code_D))|].
        intros; lia.
    - intros i [dp ops] Hi [Hdp Hops]. simpl in *.
      eapply (returns_set2_pair m n _ _ costf costf _ _
                (λ _ _, code_D) (λ _ _, code_D)); [done|done|lia|lia| |].
      + intros a b _ _ Hd. cbn beta in *. case_decide as Hab.
        * destruct Hab as [-> ->]. apply dp_cell_cost_0_r.
        * split; [lia|done].
      + intros a b _ _ Hd. cbn beta in *. case_decide as Hab; [done|].
        split; [lia|done]. }
  intros st1 [Hdp1 Hops1]. simpl. apply returns_bind.
  eapply returns_mono.
  { apply (returns_for_range (λ j st,
      tbl_inv m n (λ a b, b = 0 ∨ (a = 0 ∧ b < j)) costf st.1
      ∧ tbl_inv m n (λ a b, (a ≠ 0 ∧ b = 0) ∨ (a = 0 ∧ b < j))
          (λ a b, if decide (a = 0) then code_I else code_D) st.2));
      [lia| |].
    - split.
      + eapply tbl_inv_weaken; [done|]. intros a b ? ? Hd.
        cbn beta in *. split; [lia|done].
      + eapply tbl_inv_weaken; [done|]. intros a b ? ? Hd.
        cbn beta in *. split; [lia|]. rewrite decide_False; [done|lia].
    - intros j [dp ops] Hj [Hdp Hops]. simpl in *.
      eapply (returns_set2_pair m n _ _ costf costf _ _
                (λ a b, if decide (a = 0) then code_I else code_D)
                (λ a b, if decide (a = 0) then code_I else code_D));
        [done|done|lia|lia| |].
      + intros a b _ _ Hd. cbn beta in *. case_decide as Hab.
        * destruct Hab as [-> ->]. apply dp_cell_cost_0_l.
        * split; [lia|done].
      + intros a b _ _ Hd. cbn beta in *.
        case_decide as Hab; [by destruct Hab as [-> ->]|].
        split; [lia|done]. }
  intros [dp2 ops2] [Hdp2 Hops2]. simpl in *. apply returns_bind.
  eapply (returns_set2_inv m n _ (filled 1 0) _ opf); [done|lia|lia| |].
  { intros a b Ha Hb Hd. unfold filled in Hd.
    case_decide as Hab; [by destruct Hab as [-> ->]|].
    unfold opf. destruct a as [|a].
    - destruct b as [|b]; [lia|]. split; [lia|done].
    - destruct b as [|b]; [|lia]. split; [lia|done]. }
  intros ops3 Hops3.
  eapply returns_mono.
  { apply (returns_for_range (λ i, details_inv hyp ref (filled i 0)));
      [lia| |].
    - split; [|done]. simpl. eapply tbl_inv_weaken; [done|].
      unfold filled. intros a b ? ? Hd. cbn beta. split; [lia|done].
    - intros i st Hi [Hdp Hops]. simpl.
      eapply returns_mono.
      { apply (returns_for_range
                 (λ j, details_inv hyp ref (filled i j))); [lia| |].
        - split; (eapply tbl_inv_weaken; [done|]); unfold filled;
            intros; (split; [lia|done]).
        - intros j st' Hj Hst'. simpl.
          apply details_cell_spec; [lia|lia|done]. }
      simpl. intros st' [Hdp' Hops'].
      split; (eapply tbl_inv_weaken; [done|]); unfold filled;
        intros; (split; [lia|done]). }
  simpl. intros st4 [Hdp4 Hops4].
  split; (eapply tbl_inv_weaken; [done|]); unfold filled;
    intros; (split; [lia|done]).
Qed.
End DetailsTables.

(** ** [_get_alignment_details] refines its table-free description *)

Section CountLoop.
Context `{CaseFold}.
Variables hyp ref : list string.
Let m := length hyp.
Let n := length ref.
Let opf (a b : nat) : align_op := (dp_cell hyp ref a b).2.

Lemma count_step_spec ops st :
  tbl_inv m n (λ _ _, True) (λ a b, code_of (opf a b)) ops →
  cs_i st ≤ m → cs_j st ≤ n → count_continue st = true →
  count_step ops st = Ok (count_next (opf (cs_i st) (cs_j st)) st).
Proof.
  intros Hops Hi Hj Hc. destruct st as [i j subs dels ins]. simpl in *.
  unfold count_continue in Hc. simpl in Hc.
  unfold count_step, count_next. simpl.
  destruct i as [|i].
  { destruct j as [|j]; [done|]. by rewrite decide_True by done. }
  destruct j as [|j].
  { rewrite decide_False by done. rewrite decide_True by done.
    simpl. by rewrite Nat.sub_0_r. }
  rewrite !decide_False by done.
  unfold get2, getitem.
  pose proof (tbl_inv_get _ _ _ _ _ (S i) (S j) Hops Hi Hj I) as Hcell.
  unfold cell_of in Hcell.
  destruct (ops !! S i) as [row|]; simpl in *; [|done].
  rewrite Hcell. simpl. rewrite !Nat.sub_0_r.
  by destruct (opf (S i) (S j)).
Qed.

Lemma count_next_bounds o st :
  cs_i st ≤ m → cs_j st ≤ n → count_continue st = true →
  cs_i (count_next o st) ≤ m ∧ cs_j (count_next o st) ≤ n
  ∧ cs_i (count_next o st) + cs_j (count_next o st) < cs_i st + cs_j st.
Proof.
  destruct st as [i j subs dels ins]. unfold count_continue, count_next.
  simpl. intros Hi Hj Hc.
  destruct i as [|i], j as [|j]; try done; simpl; try lia.
  destruct o; simpl; lia.
Qed.

Lemma count_loop_refines ops fuel st :
  tbl_inv m n (λ _ _, True) (λ a b, code_of (opf a b)) ops →
  cs_i st ≤ m → cs_j st ≤ n → cs_i st + cs_j st ≤ fuel →
  while_loop fuel count_continue (count_step ops) st
  = Ok (count_run opf fuel st).
Proof.
  intros Hops. revert st.
  induction fuel as [|fuel IH]; intros st Hi Hj Hfuel; simpl.
  - destruct (count_continue st) eqn:Hc; [|done].
    destruct (count_next_bounds op_start st Hi Hj Hc) as (_ & _ & ?). lia.
  - destruct (count_continue st) eqn:Hc; [|done].
    rewrite count_step_spec by done. simpl.
    destruct (count_next_bounds (opf (cs_i st) (cs_j st)) st Hi Hj Hc)
      as (? & ? & ?).
    apply IH; [done|done|lia].
Qed.

Lemma get_alignment_details_refines :
  _get_alignment_details hyp ref = Ok (alignment_details_spec hyp ref).
Proof.
  unfold _get_alignment_details.
  pose proof (details_tables_spec hyp ref) as Ht.
  apply returns_exists in Ht as ([dp ops] & -> & _ & Hops). simpl.
  rewrite count_loop_refines; [done|done|simpl..]; fold m n; lia.
Qed.
End CountLoop.

(** ** The Levenshtein recurrence *)

Section Lev.
Variables a b : list string.

Lemma lev_0 j : lev a b 0 j = j.
Proof. done. Qed.

Lemma lev_S_S i j :
  lev a b (S i) (S j)
  = min3 (lev a b i (S j) + 1) (lev a b (S i) j + 1)
         (lev a b i j + if decide (a !! i = b !! j) then 0 else 1).
Proof. done. Qed.

Lemma lev_0_r i : lev a b i 0 = i.
Proof. by destruct i. Qed.

(** Neighbouring cells differ by at most one. *)
Lemma lev_right_le i j : lev a b i (S j) ≤ lev a b i j + 1.
Proof.
  destruct i as [|i]; [rewrite !lev_0; lia|].
  rewrite lev_S_S. unfold min3. lia.
Qed.

Lemma lev_down_le i j : lev a b (S i) j ≤ lev a b i j + 1.
Proof.
  destruct j as [|j]; [rewrite !lev_0_r; lia|].
  rewrite lev_S_S. unfold min3. lia.
Qed.

Lemma lev_down_ge i j : lev a b i j ≤ lev a b (S i) j + 1.
Proof.
  induction j as [|j IH]; [rewrite !lev_0_r; lia|].
  rewrite lev_S_S. unfold min3.
  pose proof (lev_right_le i j). case_decide; lia.
Qed.

Lemma lev_right_ge i j : lev a b i j ≤ lev a b i (S j) + 1.
Proof.
  induction i as [|i IH]; [rewrite !lev_0; lia|].
  rewrite lev_S_S. unfold min3.
  pose proof (lev_down_le i j). case_decide; lia.
Qed.

(** A match is free: the diagonal neighbour already is the minimum. *)
Lemma lev_S_S_eq i j :
  a !! i = b !! j → lev a b (S i) (S j) = lev a b i j.
Proof.
  intros Heq. rewrite lev_S_S, decide_True by done. unfold min3.
  pose proof (lev_down_ge i j). pose proof (lev_right_ge i j). lia.
Qed.

Lemma lev_S_S_ne i j :
  a !! i ≠ b !! j →
  lev a b (S i) (S j)
  = min3 (lev a b i j + 1) (lev a b i (S j) + 1) (lev a b (S i) j + 1).
Proof.
  intros Hne. rewrite lev_S_S, decide_False by done. unfold min3. lia.
Qed.
End Lev.

(** ** Properties of the recurrence of [_get_alignment_details] *)

Section CostFacts.
Context `{CaseFold}.
Variables hyp ref : list string.
Let m := length hyp.
Let n := length ref.
Let cost (i j : nat) : nat := (dp_cell hyp ref i j).1.
Let opf (i j : nat) : align_op := (dp_cell hyp ref i j).2.

Lemma choose_cost d u l : (choose d u l).1 = min3 (d + 1) (u + 1) (l + 1).
Proof. unfold choose, min3. repeat case_decide; simpl; lia. Qed.

(** The operation stored in a cell accounts for the change of cost. *)
Lemma cost_step i j :
  i < m → j < n →
  match opf (S i) (S j) with
  | op_match => cost (S i) (S j) = cost i j
  | op_substitute => cost (S i) (S j) = cost i j + 1
  | op_delete => cost (S i) (S j) = cost i (S j) + 1
  | op_insert => cost (S i) (S j) = cost (S i) j + 1
  | op_start => False
  end.
Proof.
  intros Hi Hj. unfold opf, cost.
  destruct (lookup_lt_is_Some_2 hyp i Hi) as [x Hx].
  destruct (lookup_lt_is_Some_2 ref j Hj) as [y Hy].
  rewrite (dp_cell_S_S _ _ _ _ x y) by done.
  case_decide; [done|]. unfold choose. repeat case_decide; simpl; lia.
Qed.

(** Every step of the counting loop adds to the counts what it removes
    from the cost of the current cell. *)
Lemma count_run_total fuel st :
  cs_i st ≤ m → cs_j st ≤ n → cs_i st + cs_j st ≤ fuel →
  let st' := count_run opf fuel st in
  cs_subs st' + cs_dels st' + cs_ins st'
  = cs_subs st + cs_dels st + cs_ins st + cost (cs_i st) (cs_j st).
Proof.
  revert st. induction fuel as [|fuel IH]; intros st Hi Hj Hfuel; simpl.
  - destruct st as [i j ? ? ?]. simpl in *.
    assert (i = 0 ∧ j = 0) as [-> ->] by lia. simpl. unfold cost. simpl. lia.
  - destruct (count_continue st) eqn:Hc.
    + destruct (count_next_bounds hyp ref (opf (cs_i st) (cs_j st)) st
                  Hi Hj Hc) as (Hi' & Hj' & Hlt).
      fold m n in Hi', Hj'. rewrite IH by (done || lia).
      destruct st as [i j subs dels ins]. unfold count_next. simpl in *.
      destruct i as [|i].
      { unfold cost. rewrite !dp_cell_cost_0_l.
        destruct j as [|j]; [done|]. simpl. lia. }
      destruct j as [|j].
      { unfold cost. rewrite !dp_cell_cost_0_r. simpl. lia. }
      pose proof (cost_step i j) as Hstep.
      destruct (opf (S i) (S j)); simpl; lia.
    + destruct st as [i j ? ? ?]. unfold count_continue in Hc. simpl in *.
      apply orb_false_iff in Hc as [Hi0 Hj0].
      apply Nat.ltb_ge in Hi0, Hj0.
      assert (i = 0 ∧ j = 0) as [-> ->] by lia. unfold cost. simpl. lia.
Qed.

(** The three counts add up to the cost in the last cell of the table. *)
Lemma alignment_details_total :
  al_substitutions (alignment_details_spec hyp ref)
  + al_deletions (alignment_details_spec hyp ref)
  + al_insertions (alignment_details_spec hyp ref)
  = cost m n.
Proof.
  unfold alignment_details_spec. simpl.
  pose proof (count_run_total (m + n)
    {| cs_i := m; cs_j := n; cs_subs := 0; cs_dels := 0; cs_ins := 0 |})
    as Htot.
  simpl in Htot. fold opf m n. rewrite Htot; lia.
Qed.

(** When case folding identifies no two distinct tokens of the inputs,
    the cost of the recurrence is the Levenshtein distance. *)
Lemma cost_lev i j :
  (∀ x y, x ∈ hyp → y ∈ ref → lower x = lower y → x = y) →
  i ≤ m → j ≤ n → cost i j = lev hyp ref i j.
Proof.
  intros Hcase. revert j.
  induction i as [|i IHi]; intros j Hi Hj.
  { unfold cost. by rewrite dp_cell_cost_0_l. }
  induction j as [|j IHj].
  { unfold cost. by rewrite dp_cell_cost_0_r, lev_0_r. }
  destruct (lookup_lt_is_Some_2 hyp i) as [x Hx]; [fold m; lia|].
  destruct (lookup_lt_is_Some_2 ref j) as [y Hy]; [fold n; lia|].
  unfold cost. rewrite (dp_cell_S_S _ _ _ _ x y) by done.
  fold (cost i j) (cost i (S j)) (cost (S i) j).
  rewrite !IHi by lia. rewrite IHj by lia.
  assert (Hxin : x ∈ hyp) by (by eapply list_elem_of_lookup_2).
  assert (Hyin : y ∈ ref) by (by eapply list_elem_of_lookup_2).
  destruct (decide (lower x = lower y)) as [Heq|Hne]; cbn [fst].
  - rewrite lev_S_S_eq; [done|].
    rewrite Hx, Hy. f_equal. by apply Hcase.
  - rewrite choose_cost, lev_S_S_ne; [done|].
    rewrite Hx, Hy. intros [= ->]. done.
Qed.
End CostFacts.

(** ** Sequences without a common token *)

Lemma lev_mismatch (a b : list string) i j :
  (∀ x y, x ∈ a → y ∈ b → x ≠ y) →
  i ≤ length a → j ≤ length b → lev a b i j = i `max` j.
Proof.
  intros Hne. revert j. induction i as [|i IHi]; intros j Hi Hj.
  { rewrite lev_0. lia. }
  induction j as [|j IHj].
  { rewrite lev_0_r. lia. }
  destruct (lookup_lt_is_Some_2 a i) as [x Hx]; [lia|].
  destruct (lookup_lt_is_Some_2 b j) as [y Hy]; [lia|].
  rewrite lev_S_S_ne.
  - rewrite !IHi by lia. rewrite IHj by lia. unfold min3. lia.
  - rewrite Hx, Hy. intros [= ->].
    apply (Hne y y); [by eapply list_elem_of_lookup_2..|done].
Qed.

Section Mismatch.
Context `{CaseFold}.
Variables hyp ref : list string.
Hypothesis disjoint : ∀ x y, x ∈ hyp → y ∈ ref → lower x ≠ lower y.

Lemma mismatch_cost i j :
  i ≤ length hyp → j ≤ length ref →
  (dp_cell hyp ref i j).1 = i `max` j.
Proof.
  intros Hi Hj. rewrite cost_lev; [| |done..].
  2: { intros x y Hx Hy Hxy. by destruct (disjoint x y). }
  apply lev_mismatch; [|done..].
  intros x y Hx Hy ->. by apply (disjoint y y).
Qed.

Lemma mismatch_op i j :
  i < length hyp → j < length ref →
  (dp_cell hyp ref (S i) (S j)).2 = op_substitute.
Proof.
  intros Hi Hj.
  destruct (lookup_lt_is_Some_2 hyp i Hi) as [x Hx].
  destruct (lookup_lt_is_Some_2 ref j Hj) as [y Hy].
  rewrite (dp_cell_S_S _ _ _ _ x y) by done.
  rewrite decide_False
    by (apply disjoint; by eapply list_elem_of_lookup_2).
  rewrite !mismatch_cost by lia.
  unfold choose, min3. rewrite decide_True; [done|lia].
Qed.

(** From a cell on the diagonal the loop walks the diagonal down to the
    origin and counts one substitution per step. *)
Lemma mismatch_count_run fuel k subs :
  k ≤ length hyp → k ≤ length ref → k ≤ fuel →
  count_run (λ i j, (dp_cell hyp ref i j).2) fuel
    {| cs_i := k; cs_j := k; cs_subs := subs; cs_dels := 0; cs_ins := 0 |}
  = {| cs_i := 0; cs_j := 0; cs_subs := subs + k; cs_dels := 0;
       cs_ins := 0 |}.
Proof.
  revert fuel subs. induction k as [|k IH]; intros fuel subs Hh Hr Hfuel.
  { destruct fuel; simpl; by rewrite Nat.add_0_r. }
  destruct fuel as [|fuel]; [lia|].
  cbn [count_run count_continue cs_i cs_j Nat.ltb Nat.leb orb].
  rewrite mismatch_op by lia. unfold count_next. cbn [cs_i cs_j cs_subs
    cs_dels cs_ins].
  rewrite IH by lia. f_equal. lia.
Qed.
End Mismatch.

(** ** [compute_standard_wer] *)

Section StandardWER.
Context `{CaseFold}.

(** [compute_standard_wer] never raises; this is the record it returns. *)
Lemma compute_standard_wer_eq hyp ref :
  compute_standard_wer hyp ref
  = Ok {| wer := match length ref with
                 | 0 => 0%Q
                 | S _ => Z.of_nat (editdistance_eval hyp ref)
                          # Pos.of_nat (length ref)
                 end;
          distance := editdistance_eval hyp ref;
          reference_length := length ref;
          substitutions := al_substitutions (alignment_details_spec hyp ref);
          deletions := al_deletions (alignment_details_spec hyp ref);
          insertions := al_insertions (alignment_details_spec hyp ref) |}.
Proof.
  unfold compute_standard_wer.
  rewrite get_alignment_details_refines. simpl.
  by destruct (length ref).
Qed.

(** The recurrence only looks at the case-folded tokens. *)
Lemma dp_cell_lower hyp ref i j :
  dp_cell (lower <$> hyp) (lower <$> ref) i j = dp_cell hyp ref i j.
Proof.
  revert j. induction i as [|i IHi]; intros j; [done|].
  induction j as [|j IHj]; [done|].
  change (dp_cell ?a ?b (S i) (S j)) with
    (if decide (lower <$> a !! i = lower <$> b !! j)
     then ((dp_cell a b i j).1, op_match)
     else choose (dp_cell a b i j).1 (dp_cell a b i (S j)).1
                 (dp_cell a b (S i) j).1).
  rewrite !IHi, IHj, !list_lookup_fmap.
  destruct (hyp !! i) as [x|], (ref !! j) as [y|]; simpl;
    by rewrite ?lower_idem.
Qed.

Lemma alignment_details_spec_lower hyp ref :
  alignment_details_spec (lower <$> hyp) (lower <$> ref)
  = alignment_details_spec hyp ref.
Proof.
  unfold alignment_details_spec. rewrite !length_fmap.
  assert (Hext : ∀ f g : nat → nat → align_op,
            (∀ i j, f i j = g i j) →
            ∀ fuel st, count_run f fuel st = count_run g fuel st).
  { intros f g Hfg fuel. induction fuel as [|fuel IH]; intros st; simpl.
    - done.
    - rewrite Hfg. by destruct (count_continue st). }
  rewrite (Hext _ (λ i j, (dp_cell hyp ref i j).2)); [done|].
  intros i j. by rewrite dp_cell_lower.
Qed.
End StandardWER.

(** ** Grouping nodes by position *)

Lemma dd_get_dd_append {A} p q (x : A) pw :
  dd_get [] p (dd_append q x pw)
  = if decide (q = p) then dd_get [] p pw ++ [x] else dd_get [] p pw.
Proof.
  unfold dd_get, dd_append. rewrite dict_get_set.
  by case_decide; subst.
Qed.

Section Grouping.
Context {A : Type} (f : LatticeNode → A).

Lemma group_nodes_get acc ns p :
  dd_get [] p (group_nodes f acc ns)
  = dd_get [] p acc ++ (f <$> filter (λ n, position n = p) ns).
Proof.
  revert acc. induction ns as [|n ns IH]; intros acc; simpl.
  - by rewrite app_nil_r.
  - unfold group_nodes in *. simpl. rewrite IH, dd_get_dd_append.
    rewrite filter_cons. case_decide; csimpl; [|done].
    by rewrite <-app_assoc.
Qed.

Lemma group_nodes_keys acc ns p :
  p ∈ dict_keys (group_nodes f acc ns)
  ↔ p ∈ dict_keys acc ∨ ∃ n, n ∈ ns ∧ position n = p.
Proof.
  revert acc. induction ns as [|n ns IH]; intros acc; simpl.
  - split; [by left|]. intros [?|(n & Hn & _)]; [done|].
    by apply not_elem_of_nil in Hn.
  - unfold group_nodes in *. simpl. rewrite IH.
    unfold dd_append. rewrite dict_keys_set.
    setoid_rewrite elem_of_cons.
    case_decide as Hin.
    + split.
      * intros [?|(n' & ? & ?)]; [by left|right; eauto].
      * intros [?|(n' & [-> | ?] & <-)]; [by left|by left|right; eauto].
    + rewrite elem_of_app, list_elem_of_singleton. split.
      * intros [[? | ->] | (n' & ? & ?)]; [by left|right; eauto|right; eauto].
      * intros [?|(n' & [-> | ?] & <-)];
          [by left; left|by left; right|right; eauto].
Qed.

Lemma group_nodes_keys_NoDup acc ns :
  NoDup (dict_keys acc) → NoDup (dict_keys (group_nodes f acc ns)).
Proof.
  revert acc. induction ns as [|n ns IH]; intros acc Hnd; [done|].
  unfold group_nodes in *. simpl. apply IH.
  by apply dict_keys_set_NoDup.
Qed.
End Grouping.

Lemma group_nodes_keys_indep {A B} (f : LatticeNode → A)
    (g : LatticeNode → B) acc acc' ns :
  dict_keys acc = dict_keys acc' →
  dict_keys (group_nodes f acc ns) = dict_keys (group_nodes g acc' ns).
Proof.
  revert acc acc'. induction ns as [|n ns IH]; intros acc acc' Hk; [done|].
  unfold group_nodes in *. simpl. apply IH.
  unfold dd_append. by rewrite !dict_keys_set, Hk.
Qed.

(** ** Sorted positions *)

Lemma StronglySorted_le_lt (l : list nat) :
  StronglySorted le l → NoDup l → StronglySorted lt l.
Proof.
  induction 1 as [|x l Hs IH Hall]; intros Hnd; [constructor|].
  apply NoDup_cons in Hnd as [Hx Hnd].
  constructor; [by apply IH|].
  apply Forall_forall. intros y Hy.
  rewrite Forall_forall in Hall. specialize (Hall y Hy).
  assert (x ≠ y) by (by intros ->). lia.
Qed.

Lemma sorted_keys_spec (ks : list nat) :
  NoDup ks →
  StronglySorted lt (merge_sort (≤) ks)
  ∧ ∀ p, p ∈ merge_sort (≤) ks ↔ p ∈ ks.
Proof.
  intros Hnd.
  pose proof (merge_sort_Permutation (≤) ks) as Hperm.
  split; [|intros p; by rewrite Hperm].
  apply StronglySorted_le_lt; [|by rewrite Hperm].
  apply (StronglySorted_merge_sort (≤)).
Qed.

Lemma StronglySorted_lt_NoDup (l : list nat) : StronglySorted lt l → NoDup l.
Proof.
  induction 1 as [|x l Hs IH Hall]; [constructor|].
  apply NoDup_cons. split; [|done].
  intros Hx. rewrite Forall_forall in Hall. specialize (Hall x Hx). lia.
Qed.

(** ** Consensus *)

Lemma for_each_ext {A St} (xs : list A) (body1 body2 : A → St → result St)
    (s : St) :
  (∀ x s, body1 x s = body2 x s) →
  for_each xs body1 s = for_each xs body2 s.
Proof.
  intros Hext. revert s. induction xs as [|x xs IH]; intros s; simpl; [done|].
  rewrite Hext. destruct (body2 x s); simpl; [apply IH|done].
Qed.

Section PickBest.
Context {K : Type} (gt : K → K → bool) (k : LatticeNode → K).
Variable ns : list LatticeNode.

(** Each word [pick_best] emits is the word of a node at the position
    it was emitted for. *)
Lemma returns_pick_best ps acc :
  (∀ p, p ∈ ps → ∃ n, n ∈ ns ∧ position n = p) →
  returns (pick_best gt (group_nodes (λ n, (word n, k n)) [] ns) ps acc)
    (λ ws, ∃ ws', ws = acc ++ ws'
       ∧ Forall2 (λ p w, ∃ n, n ∈ ns ∧ position n = p ∧ word n = w)
           ps ws').
Proof.
  intros Hps. unfold pick_best.
  apply (returns_for_each (λ pre s, ∃ ws', s = acc ++ ws'
    ∧ Forall2 (λ p w, ∃ n, n ∈ ns ∧ position n = p ∧ word n = w) pre ws')).
  { exists []. by rewrite app_nil_r. }
  intros pre p rest s Heq (ws' & -> & Hws'). simpl.
  rewrite group_nodes_get. simpl.
  destruct (Hps p) as (n0 & Hn0 & Hp0).
  { rewrite Heq. apply elem_of_app. right. apply elem_of_cons. by left. }
  apply returns_bind.
  eapply returns_mono.
  { apply (returns_py_max _ _ _
      (λ best, ∃ n, n ∈ ns ∧ position n = p ∧ word n = best.1)).
    - intros Hnil. apply fmap_nil_inv in Hnil.
      assert (Hin : n0 ∈ filter (λ n, position n = p) ns)
        by (by apply list_elem_of_filter).
      rewrite Hnil in Hin. by apply not_elem_of_nil in Hin.
    - apply Forall_fmap, Forall_forall. intros n Hn.
      apply list_elem_of_filter in Hn as [Hp Hn]. simpl. eauto.
    - apply Forall_forall. by intros. }
  intros best (n & Hn & Hp & Hw). simpl.
  exists (ws' ++ [best.1]). split; [by rewrite app_assoc|].
  apply Forall2_app; [done|]. constructor; [|constructor]. eauto.
Qed.
End PickBest.

Lemma Zpos_of_nat (total : nat) :
  0 < total → Z.pos (Pos.of_nat total) = Z.of_nat total.
Proof.
  intros Htotal. destruct total as [|t]; [lia|]. rewrite <-Pos.of_nat_succ.
  by rewrite Znat.Zpos_P_of_succ_nat, Nat2Z.inj_succ.
Qed.

Lemma Q_gt_same_den (a b total : nat) :
  0 < total →
  Q_gt (Z.of_nat a # Pos.of_nat total) (Z.of_nat b # Pos.of_nat total)
  = nat_gt a b.
Proof.
  intros Htotal. unfold Q_gt, nat_gt, Qle_bool. simpl.
  rewrite Zpos_of_nat by done.
  destruct (Z.leb_spec (Z.of_nat a * Z.of_nat total)
                       (Z.of_nat b * Z.of_nat total)),
           (Nat.ltb_spec b a); simpl; try done; nia.
Qed.

Section Agreement.
Context `{CaseFold}.
Variable total : nat.

Lemma max_from_agree (l : list LatticeNode) (b : LatticeNode) :
  Forall (created_node total) (b :: l) →
  ∃ z,
    max_from Q_gt (λ x, Ok x.2) ((λ n, (word n, confidence n)) <$> l)
      (word b, confidence b) (confidence b)
    = Ok (word z, confidence z)
    ∧ max_from nat_gt (λ x, Ok x.2)
        ((λ n, (word n, size (sources n))) <$> l)
        (word b, size (sources b)) (size (sources b))
      = Ok (word z, size (sources z)).
Proof.
  revert b. induction l as [|x l IH]; intros b Hall; [by exists b|].
  assert (Hgt : Q_gt (confidence x) (confidence b)
                = nat_gt (size (sources x)) (size (sources b))).
  { pose proof Hall as Hall'.
    apply Forall_cons in Hall' as [(_ & Ht & Hb) Hl].
    apply Forall_cons in Hl as [(_ & _ & Hx) _].
    rewrite Hx, Hb. by apply Q_gt_same_den. }
  csimpl. rewrite Hgt.
  destruct (nat_gt (size (sources x)) (size (sources b))).
  - apply IH. by inversion_clear Hall.
  - apply IH. inversion_clear Hall as [|? ? Hb Hl].
    inversion_clear Hl. by constructor.
Qed.

(** On nodes whose confidence is the share of their sources among
    [total] sequences, choosing by confidence is choosing by votes. *)
Lemma pick_best_agree (ns : list LatticeNode) ps acc :
  Forall (created_node total) ns →
  pick_best Q_gt (group_nodes (λ n, (word n, confidence n)) [] ns) ps acc
  = pick_best nat_gt
      (group_nodes (λ n, (word n, size (sources n))) [] ns) ps acc.
Proof.
  intros Hns. unfold pick_best. apply for_each_ext.
  intros p consensus. simpl. rewrite !group_nodes_get. simpl.
  assert (Hl : Forall (created_node total)
                 (filter (λ n, position n = p) ns)).
  { apply Forall_forall. intros n Hn.
    apply list_elem_of_filter in Hn as [_ Hn].
    by eapply Forall_forall in Hns. }
  destruct (filter (λ n, position n = p) ns) as [|b l]; [done|].
  csimpl. destruct (max_from_agree l b Hl) as (z & -> & ->). done.
Qed.

Lemma consensus_strategies_agree (L : WordLattice) :
  Forall (created_node total) (nodes L) →
  _confidence_consensus L = _voting_consensus L.
Proof.
  intros Hns.
  change (_confidence_consensus L) with
    (pick_best Q_gt (group_nodes (λ n, (word n, confidence n)) [] (nodes L))
       (merge_sort (≤) (dict_keys
          (group_nodes (λ n, (word n, confidence n)) [] (nodes L)))) []).
  change (_voting_consensus L) with
    (pick_best nat_gt
       (group_nodes (λ n, (word n, size (sources n))) [] (nodes L))
       (merge_sort (≤) (dict_keys
          (group_nodes (λ n, (word n, size (sources n))) [] (nodes L))))
       []).
  rewrite (group_nodes_keys_indep _ (λ n, (word n, size (sources n)))
             [] [] (nodes L)) by done.
  by apply pick_best_agree.
Qed.
End Agreement.

(** Both strategies return one word per position of the lattice, in
    ascending order of position, each the word of a node there. *)
Lemma consensus_spec {K} (gt : K → K → bool) (k : LatticeNode → K)
    (ns : list LatticeNode) :
  let position_words := group_nodes (λ n, (word n, k n)) [] ns in
  let ps := merge_sort (≤) (dict_keys position_words) in
  StronglySorted lt ps
  ∧ (∀ p, p ∈ ps ↔ ∃ n, n ∈ ns ∧ position n = p)
  ∧ returns (pick_best gt position_words ps [])
      (Forall2 (λ p w, ∃ n, n ∈ ns ∧ position n = p ∧ word n = w) ps).
Proof.
  intros position_words ps.
  destruct (sorted_keys_spec (dict_keys position_words)) as [Hsorted Hin].
  { apply group_nodes_keys_NoDup. constructor. }
  assert (Hps : ∀ p, p ∈ ps ↔ ∃ n, n ∈ ns ∧ position n = p).
  { intros p. unfold ps. rewrite Hin. unfold position_words.
    rewrite group_nodes_keys. split; [|by right].
    intros [Hnil|?]; [|done]. by apply not_elem_of_nil in Hnil. }
  split_and!; [done|done|].
  eapply returns_mono.
  - apply returns_pick_best. intros p Hp. by apply Hps.
  - simpl. by intros ws (ws' & -> & ?).
Qed.

(** ** [_construct_lattice] and [build_from_hypotheses] *)

Lemma Forall_dict_set {K V} `{EqDecision K} (Q : K * V → Prop) k v
    (d : list (K * V)) :
  Forall Q d → Q (k, v) → Forall Q (dict_set k v d).
Proof.
  intros Hd Hkv. induction d as [|[k0 v0] d IH]; simpl.
  - by constructor.
  - inversion_clear Hd. case_decide; constructor; auto.
Qed.

Lemma Forall_dd_get {K V} `{EqDecision K} (Q : list V → Prop) k
    (d : list (K * list V)) :
  Forall (λ e, Q e.2) d → Q [] → Q (dd_get [] k d).
Proof.
  intros Hd Hnil. unfold dd_get.
  destruct (dict_get k d) as [v|] eqn:Hv; simpl; [|done].
  apply dict_get_elem_of in Hv.
  rewrite Forall_forall in Hd. by apply (Hd (k, v)).
Qed.


Section Construct.
Context `{CaseFold}.

Lemma add_source_Forall (Q : string * gset string → Prop) pos w name pw :
  Forall (λ e, Forall Q e.2) pw →
  (∀ srcs, srcs = ∅ ∨ Q (w, srcs) → Q (w, srcs ∪ {[name]})) →
  Forall (λ e, Forall Q e.2) (add_source pos w name pw).
Proof.
  intros Hpw Hadd. unfold add_source.
  assert (Hwords : Forall Q (dd_get [] pos pw))
    by (by apply (Forall_dd_get (Forall Q))).
  apply Forall_dict_set; [done|]. simpl.
  apply Forall_dict_set; [done|].
  apply Hadd. unfold dd_get at 1 3.
  destruct (dict_get w (dd_get [] pos pw)) as [srcs|] eqn:Hsrcs; simpl;
    [|by left].
  right. apply dict_get_elem_of in Hsrcs.
  rewrite Forall_forall in Hwords. by apply Hwords.
Qed.

(** An invariant of the source sets that holds of the empty set's first
    extension and of every further extension holds in the grouping
    dictionary. *)
Lemma group_words_Forall (Q : string * gset string → Prop) alignments :
  (∀ name w srcs, name ∈ alignments.*1 →
     srcs = ∅ ∨ Q (lower w, srcs) → Q (lower w, srcs ∪ {[name]})) →
  Forall (λ e, Forall Q e.2) (group_words alignments).
Proof.
  unfold group_words. intros Hadd.
  assert (Hgen : ∀ als pw,
    (∀ name, name ∈ als.*1 → name ∈ alignments.*1) →
    Forall (λ e, Forall Q e.2) pw →
    Forall (λ e, Forall Q e.2)
      (foldl (λ position_words '(model_name, alignment),
        foldl (λ position_words '(pos, w, op),
          if decide (op ≠ op_delete)
          then add_source pos (lower w) model_name position_words
          else position_words) position_words alignment) pw als)).
  { induction als as [|[name alignment] als IH]; intros pw Hsub Hpw; [done|].
    simpl. apply IH.
    { intros name' Hname'. apply Hsub. csimpl. by right. }
    assert (Hname : name ∈ alignments.*1) by (apply Hsub; csimpl; by left).
    clear IH Hsub. revert pw Hpw.
    induction alignment as [|[[pos w] op] al IH]; intros pw Hpw; [done|].
    simpl. apply IH. case_decide; [|done].
    apply add_source_Forall; [done|]. intros srcs. by apply Hadd. }
  apply Hgen; [done|constructor].
Qed.

Lemma add_node_spec total positions i pos w srcs self :
  0 < total →
  returns (add_node total positions i pos (w, srcs) self)
    (λ L, nodes L
          = nodes self
            ++ [{| position := pos; word := w; sources := srcs;
                   confidence := Z.of_nat (size srcs) # Pos.of_nat total |}]).
Proof.
  intros Htotal. unfold add_node.
  destruct total as [|t]; [lia|]. simpl truediv.
  apply returns_bind. simpl.
  destruct (i <? length positions - 1) eqn:Hi; [|done].
  apply Nat.ltb_lt in Hi.
  destruct (lookup_lt_is_Some_2 positions (i + 1)) as [next Hnext]; [lia|].
  by apply returns_bind, (returns_getitem _ _ next).
Qed.

(** [_construct_lattice] returns, and only appends nodes: each carries a
    case-folded word, sources among the names of the alignments, and the
    share of its sources among the alignments as confidence. *)
Lemma construct_lattice_spec self alignments reference :
  returns (_construct_lattice self alignments reference)
    (λ L, ∃ new, nodes L = nodes self ++ new
                 ∧ Forall (created_node (length alignments)) new
                 ∧ Forall (λ n, sources n ⊆ list_to_set alignments.*1) new).
Proof.
  unfold _construct_lattice.
  destruct alignments as [|al0 als].
  { simpl. exists []. by rewrite app_nil_r. }
  set (alignments := al0 :: als).
  assert (Htotal : 0 < length alignments) by (simpl; lia).
  set (Q := λ ws : string * gset string,
         lower ws.1 = ws.1 ∧ ws.2 ⊆ list_to_set alignments.*1).
  assert (Hkeys : Forall (λ e, Forall Q e.2) (group_words alignments)).
  { apply group_words_Forall. intros name w srcs Hname Hsrcs.
    split; [apply lower_idem|]. simpl.
    assert (name ∈ (list_to_set alignments.*1 : gset string))
      by (by apply elem_of_list_to_set).
    apply union_subseteq. split; [|by apply singleton_subseteq_l].
    destruct Hsrcs as [->|[_ ?]]; [apply empty_subseteq|done]. }
  set (position_words := group_words alignments) in *.
  set (positions := merge_sort (≤) (dict_keys position_words)).
  set (I := λ L, ∃ new, nodes L = nodes self ++ new
             ∧ Forall (created_node (length alignments)) new
             ∧ Forall (λ n, sources n ⊆ list_to_set alignments.*1) new).
  apply (returns_for_each (λ _, I)).
  { exists []. by rewrite app_nil_r. }
  intros pre [i pos] rest L _ HL.
  apply (returns_for_each (λ _, I)); [done|].
  intros pre' [w srcs] rest' L' Hwords (new & Hnew & Hall & Hsub).
  assert (HQ : Q (w, srcs)).
  { assert (Hall' : Forall Q (dd_get [] pos position_words))
      by (by apply (Forall_dd_get (Forall Q))).
    rewrite Hwords in Hall'.
    apply Forall_app in Hall' as [_ Hall'].
    by apply Forall_cons in Hall' as [? _]. }
  destruct HQ as [Hw Hs]. cbn [fst snd] in Hw, Hs.
  eapply returns_mono; [by apply add_node_spec|].
  intros L'' Hnodes. cbn beta in Hnodes. eexists (new ++ [_]).
  split; [by rewrite Hnodes, Hnew, app_assoc|].
  split; (apply Forall_app; split; [done|]); (constructor; [|constructor]).
  - by split_and!.
  - exact Hs.
Qed.

Lemma build_from_hypotheses_spec self hypotheses reference :
  returns (build_from_hypotheses self hypotheses reference)
    (λ L, ∃ alignments new,
            _align_all_sequences hypotheses reference = Ok alignments
            ∧ nodes L = nodes self ++ new
            ∧ Forall (created_node (length alignments)) new
            ∧ Forall (λ n, sources n ⊆ list_to_set alignments.*1) new).
Proof.
  unfold build_from_hypotheses.
  pose proof (align_all_sequences_returns hypotheses reference) as Hal.
  apply returns_exists in Hal as (alignments & -> & _). simpl.
  eapply returns_mono; [apply construct_lattice_spec|].
  simpl. intros L (new & ? & ? & ?). by exists alignments, new.
Qed.

(** A lattice built from scratch. *)
Lemma build_fresh unit hypotheses reference :
  ∃ L total,
    build_from_hypotheses (WordLattice_init unit) hypotheses reference
    = Ok L
    ∧ Forall (created_node total) (nodes L).
Proof.
  pose proof (build_from_hypotheses_spec (WordLattice_init unit)
                hypotheses reference) as Hb.
  apply returns_exists
    in Hb as (L & HL & alignments & new & _ & Hnodes & Hnew & _).
  exists L, (length alignments). split; [done|]. by rewrite Hnodes.
Qed.
End Construct.

(** ** [should_trust_models_over_reference] *)

Lemma max_from_Q (xs : list Q) (best : Q) :
  ∃ r, max_from Q_gt Ok xs best best = Ok r
       ∧ r ∈ best :: xs
       ∧ Forall (λ c, (c <= r)%Q) (best :: xs).
Proof.
  revert best. induction xs as [|x xs IH]; intros best.
  { exists best. split_and!; [done|by left|].
    constructor; [apply Qle_refl|constructor]. }
  simpl. unfold Q_gt at 1.
  destruct (Qle_bool x best) eqn:Hle; simpl.
  - apply Qle_bool_iff in Hle.
    destruct (IH best) as (r & -> & Hr & Hall). exists r.
    apply Forall_cons in Hall as [Hb Hall].
    split_and!; [done| |].
    + apply elem_of_cons in Hr as [->|Hr]; [by left|].
      right. by right.
    + constructor; [done|]. constructor; [|done]. by eapply Qle_trans.
  - assert (Hlt : (best < x)%Q).
    { apply Qnot_le_lt. intros Hle'%Qle_bool_iff. congruence. }
    destruct (IH x) as (r & -> & Hr & Hall). exists r.
    apply Forall_cons in Hall as [Hx Hall].
    split_and!; [done|by right|].
    constructor; [|by constructor].
    eapply Qle_trans; [by apply Qlt_le_weak|done].
Qed.

Lemma pick_words_snoc mc ns n :
  pick_words mc (ns ++ [n])
  = (if decide ("reference" ∈ sources n) then Some (word n)
     else (pick_words mc ns).1,
     if Qeq_bool (confidence n) mc then Some (word n)
     else (pick_words mc ns).2).
Proof.
  unfold pick_words. rewrite foldl_snoc.
  by destruct (foldl _ _ ns).
Qed.

Lemma pick_words_no_reference mc ns :
  Forall (λ n, "reference" ∉ sources n) ns → (pick_words mc ns).1 = None.
Proof.
  induction ns as [|n ns IH] using rev_ind; intros Hall; [done|].
  apply Forall_app in Hall as [Hns Hn]. apply Forall_cons in Hn as [Hn _].
  rewrite pick_words_snoc. simpl. rewrite decide_False by done. by apply IH.
Qed.

Lemma pick_words_consensus mc ns :
  (∃ n, n ∈ ns ∧ Qeq_bool (confidence n) mc = true) →
  is_Some (pick_words mc ns).2.
Proof.
  induction ns as [|n ns IH] using rev_ind; intros (n' & Hn' & Heq).
  { by apply not_elem_of_nil in Hn'. }
  rewrite pick_words_snoc. simpl.
  destruct (Qeq_bool (confidence n) mc) eqn:Hn; [by eexists|].
  apply IH. exists n'. split; [|done].
  apply elem_of_app in Hn' as [?|Hn']; [done|].
  apply list_elem_of_singleton in Hn'. congruence.
Qed.

(** The value [should_trust_models_over_reference] returns when some node
    sits at the position: the greatest confidence there is compared with
    the threshold, and the two picked words with each other. *)
Lemma should_trust_eq (L : WordLattice) (pos : nat) :
  filter (λ n, position n = pos) (nodes L) ≠ [] →
  ∃ n,
    n ∈ nodes L ∧ position n = pos
    ∧ (∀ n', n' ∈ nodes L → position n' = pos →
         (confidence n' <= confidence n)%Q)
    ∧ ∀ threshold,
        should_trust_models_over_reference L pos threshold
        = Ok (Qle_bool threshold (confidence n)
              && negb (bool_decide
                   ((pick_words (confidence n)
                       (filter (λ n, position n = pos) (nodes L))).1
                    = (pick_words (confidence n)
                         (filter (λ n, position n = pos) (nodes L))).2))).
Proof.
  intros Hne. unfold should_trust_models_over_reference.
  set (ns := filter (λ n, position n = pos) (nodes L)) in *.
  destruct ns as [|n0 ns'] eqn:Hns; [done|].
  rewrite <-Hns. clear Hne.
  assert (Hmax : ∃ n, n ∈ ns ∧ py_max Q_gt Ok (confidence <$> ns)
                                = Ok (confidence n)
                      ∧ Forall (λ n', (confidence n' <= confidence n)%Q) ns).
  { rewrite Hns. csimpl.
    destruct (max_from_Q (confidence <$> ns') (confidence n0))
      as (r & -> & Hr & Hall).
    change (confidence n0 :: (confidence <$> ns'))
      with (confidence <$> (n0 :: ns')) in Hr, Hall.
    apply list_elem_of_fmap in Hr as (n & -> & Hn).
    exists n. split_and!; [done|done|].
    rewrite Forall_fmap in Hall. exact Hall. }
  destruct Hmax as (n & Hn & Hmax & Hall).
  pose proof Hn as Hn'. apply list_elem_of_filter in Hn' as [Hpos HnL].
  exists n. split_and!; [done|done| |].
  - intros n' Hn'L Hpos'.
    eapply Forall_forall in Hall; [done|]. by apply list_elem_of_filter.
  - intros threshold. rewrite Hmax. simpl.
    destruct (pick_words (confidence n) ns) as [rw cw]. simpl.
    by destruct (Qle_bool threshold (confidence n) && _).
Qed.

(** ** Running the model

    The examples use the ASCII instance of [lower]. *)

Example wer_identity :
  compute_standard_wer ["the"; "cat"] ["the"; "cat"]
  = Ok {| wer := 0 # 2; distance := 0; reference_length := 2;
          substitutions := 0; deletions := 0; insertions := 0 |}.
Proof. vm_compute. reflexivity. Qed.

Example wer_mixed :
  compute_standard_wer ["a"; "x"; "c"; "d"] ["a"; "b"; "c"]
  = Ok {| wer := 2 # 3; distance := 2; reference_length := 3;
          substitutions := 1; deletions := 1; insertions := 0 |}.
Proof. vm_compute. reflexivity. Qed.

Example align_pair_deletion :
  _align_pair ["a"; "b"; "c"] ["a"; "c"] "m"
  = Ok [(0, "a", op_match); (1, "b", op_delete); (2, "c", op_match)].
Proof. vm_compute. reflexivity. Qed.

(** Three hypotheses and a reference; the third hypothesis is the anchor. *)
Example consensus_three_models :
  (L ← build_from_hypotheses (WordLattice_init "word")
         [("m1", ["I"; "like"; "it"]); ("m2", ["i"; "love"; "it"]);
          ("m3", ["i"; "love"; "it"; "x"])]
         ["i"; "like"; "it"];
   (get_consensus_transcription L "voting").2)
  = Ok ["i"; "like"; "it"; "x"].
Proof. vm_compute. reflexivity. Qed.

(** The second example of [main.py]: the reference has one word that four
    of the five models contradict; the consensus follows the models. *)
Example consensus_reference_error :
  (L ← build_from_hypotheses (WordLattice_init "word")
         [("model_1_whisper", ["यह"; "बहुत"; "अच्छा"; "बात"; "है"]);
          ("model_2_wav2vec", ["यह"; "बहुत"; "अच्छा"; "बात"; "है"]);
          ("model_3_conformer", ["यह"; "बहुत"; "अच्छा"; "बात"; "है"]);
          ("model_4_deepspeech", ["यह"; "बहुत"; "अच्छा"; "बात"; "है"]);
          ("model_5_custom", ["यह"; "बहुत"; "अच्छी"; "बात"; "है"])]
         ["यह"; "बहुत"; "अच्छी"; "बात"; "है"];
   (get_consensus_transcription L "voting").2)
  = Ok ["यह"; "बहुत"; "अच्छा"; "बात"; "है"].
Proof. vm_compute. reflexivity. Qed.

(** The third example of [main.py]: three of the five models insert a
    word, one drops a word; the consensus keeps the inserted word. *)
Example consensus_insertion_majority :
  (L ← build_from_hypotheses (WordLattice_init "word")
         [("model_1_whisper", ["मुझे"; "यह"; "बहुत"; "पसंद"; "है"]);
          ("model_2_wav2vec", ["मुझे"; "यह"; "पसंद"; "है"]);
          ("model_3_conformer", ["मुझे"; "यह"; "बहुत"; "पसंद"; "है"]);
          ("model_4_deepspeech", ["मुझे"; "पसंद"; "है"]);
          ("model_5_custom", ["मुझे"; "यह"; "बहुत"; "पसंद"; "है"])]
         ["मुझे"; "यह"; "पसंद"; "है"];
   (get_consensus_transcription L "voting").2)
  = Ok ["मुझे"; "यह"; "बहुत"; "पसंद"; "है"].
Proof. vm_compute. reflexivity. Qed.

(** ** Properties of the specification *)

(** C1, at the failing input: for the hypothesis [A] and the reference
    [a] the record reports distance 1 (from [editdistance.eval], which
    compares the tokens as they are) and no substitution, deletion or
    insertion (from the case-folded alignment), so the three counts do not
    add up to the distance. *)
Theorem wer_counts_miss_distance :
  ∃ r, compute_standard_wer ["A"] ["a"] = Ok r
       ∧ distance r = 1
       ∧ substitutions r = 0 ∧ deletions r = 0 ∧ insertions r = 0
       ∧ substitutions r + deletions r + insertions r ≠ distance r.
Proof. eexists. split; [vm_compute; reflexivity|]. by vm_compute. Qed.

(** C2, at the failing input: replacing the hypothesis token [a] by its
    case variant [A] changes the distance from 0 to 1 and the error rate
    from 0 to 1, while the three counts stay 0. *)
Theorem wer_distance_case_sensitive :
  ∃ r r', compute_standard_wer ["A"] ["a"] = Ok r
          ∧ compute_standard_wer (lower <$> ["A"]) (lower <$> ["a"]) = Ok r'
          ∧ distance r = 1 ∧ distance r' = 0
          ∧ wer r = 1%Q ∧ wer r' = 0%Q
          ∧ substitutions r = substitutions r'
          ∧ deletions r = deletions r'
          ∧ insertions r = insertions r'.
Proof. do 2 eexists. split_and!; by vm_compute. Qed.

(** C5: two sequences of the same length [len > 0] without a common token
    under case-folded comparison give distance [len], [len] substitutions,
    no deletion, no insertion and an error rate of 1. *)
Theorem total_mismatch `{CaseFold} (hyp ref : list string) (len : nat) :
  length hyp = len → length ref = len → 0 < len →
  (∀ x y, x ∈ hyp → y ∈ ref → lower x ≠ lower y) →
  ∃ r, compute_standard_wer hyp ref = Ok r
       ∧ distance r = len
       ∧ substitutions r = len ∧ deletions r = 0 ∧ insertions r = 0
       ∧ (wer r == 1)%Q.
Proof.
  intros Hh Hr Hlen Hdis. rewrite compute_standard_wer_eq.
  eexists. split; [done|]. simpl.
  assert (Hdist : editdistance_eval hyp ref = len).
  { unfold editdistance_eval. rewrite lev_mismatch; [lia| |done..].
    intros x y Hx Hy ->. by apply (Hdis y y). }
  unfold alignment_details_spec.
  rewrite Hh, Hr, (mismatch_count_run hyp ref Hdis) by lia. simpl.
  rewrite Hdist. split_and!; [done..|].
  destruct len as [|len']; [lia|].
  unfold Qeq. simpl.
  rewrite <-Pos.of_nat_succ, Znat.Zpos_P_of_succ_nat. lia.
Qed.

Lemma total_mismatch_witness :
  ∃ r, compute_standard_wer ["the"; "Cat"; "sat"] ["a"; "dog"; "ran"] = Ok r
       ∧ distance r = 3
       ∧ substitutions r = 3 ∧ deletions r = 0 ∧ insertions r = 0
       ∧ (wer r == 1)%Q.
Proof.
  apply (total_mismatch ["the"; "Cat"; "sat"] ["a"; "dog"; "ran"] 3);
    [reflexivity | reflexivity | lia |].
  intros x y Hx Hy.
  assert (Hall : Forall (λ x, Forall (λ y, lower x ≠ lower y)
                                 ["a"; "dog"; "ran"])
                   ["the"; "Cat"; "sat"])
    by (apply (bool_decide_unpack _); vm_compute; exact I).
  rewrite Forall_forall in Hall. specialize (Hall x Hx).
  rewrite Forall_forall in Hall. exact (Hall y Hy).
Defined.

(** C8: [compute_standard_wer] always returns a record; the distance of
    the record is the edit distance of the hypothesis and the reference
    and its reference length is the length of the reference; its error
    rate is 0 when the reference is empty, and the quotient of the
    distance by the reference length otherwise. *)
Theorem wer_division_safe `{CaseFold} (hyp ref : list string) :
  ∃ r, compute_standard_wer hyp ref = Ok r
       ∧ distance r = editdistance_eval hyp ref
       ∧ reference_length r = length ref
       ∧ (length ref = 0 → wer r = 0%Q)
       ∧ (0 < length ref →
          (wer r == inject_Z (Z.of_nat (distance r))
                    / inject_Z (Z.of_nat (reference_length r)))%Q).
Proof.
  rewrite compute_standard_wer_eq. eexists. split; [done|].
  cbn [distance reference_length wer].
  split; [done|]. split; [done|].
  split; [by intros ->|]. intros Hlen.
  destruct (length ref) as [|n] eqn:Hn; [lia|].
  rewrite Qmake_Qdiv. rewrite <-Pos.of_nat_succ, Znat.Zpos_P_of_succ_nat.
  by rewrite Nat2Z.inj_succ.
Qed.

(** Both strategies return on every lattice. *)
Lemma voting_consensus_returns (L : WordLattice) :
  ∃ ws, _voting_consensus L = Ok ws.
Proof.
  destruct (consensus_spec nat_gt (λ n, size (sources n)) (nodes L))
    as (_ & _ & Hret).
  apply returns_exists in Hret as (ws & Hws & _). by exists ws.
Qed.

Lemma confidence_consensus_returns (L : WordLattice) :
  ∃ ws, _confidence_consensus L = Ok ws.
Proof.
  destruct (consensus_spec Q_gt confidence (nodes L)) as (_ & _ & Hret).
  apply returns_exists in Hret as (ws & Hws & _). by exists ws.
Qed.

Lemma get_consensus_voting (L : WordLattice) :
  get_consensus_transcription L "voting" = (L, _voting_consensus L).
Proof. done. Qed.

Lemma get_consensus_confidence (L : WordLattice) :
  get_consensus_transcription L "confidence" = (L, _confidence_consensus L).
Proof. done. Qed.

(** C3: on the lattice built from any hypotheses and reference, the
    strategy ['confidence'] returns the token sequence that ['voting']
    returns. *)
Theorem confidence_consensus_is_voting `{CaseFold} (unit : string)
    (hypotheses : list (string * list string)) (reference : list string) :
  ∃ L ws,
    build_from_hypotheses (WordLattice_init unit) hypotheses reference = Ok L
    ∧ (get_consensus_transcription L "voting").2 = Ok ws
    ∧ (get_consensus_transcription L "confidence").2 = Ok ws.
Proof.
  destruct (build_fresh unit hypotheses reference) as (L & total & HL & Hall).
  destruct (voting_consensus_returns L) as [ws Hws].
  exists L, ws. split; [done|].
  rewrite get_consensus_voting, get_consensus_confidence. simpl.
  split; [done|]. by rewrite (consensus_strategies_agree total).
Qed.

(** C4: on a built lattice the voting consensus has one word for each
    distinct node position, in ascending order of position; each word is
    the word of a node at that position, and the length of the consensus
    is the number of distinct positions. *)
Theorem voting_consensus_per_position `{CaseFold} (unit : string)
    (hypotheses : list (string * list string)) (reference : list string) :
  ∃ L ws ps,
    build_from_hypotheses (WordLattice_init unit) hypotheses reference = Ok L
    ∧ (get_consensus_transcription L "voting").2 = Ok ws
    ∧ StronglySorted lt ps
    ∧ (∀ p, p ∈ ps ↔ ∃ n, n ∈ nodes L ∧ position n = p)
    ∧ Forall2 (λ p w, ∃ n, n ∈ nodes L ∧ position n = p ∧ word n = w) ps ws
    ∧ length ws = size (list_to_set (position <$> nodes L) : gset nat).
Proof.
  destruct (build_fresh unit hypotheses reference) as (L & total & HL & _).
  destruct (consensus_spec nat_gt (λ n, size (sources n)) (nodes L))
    as (Hsorted & Hps & Hret).
  apply returns_exists in Hret as (ws & Hws & Hall).
  set (ps := merge_sort (≤) (dict_keys (group_nodes
               (λ n, (word n, size (sources n))) [] (nodes L)))) in *.
  exists L, ws, ps. split_and!; [done|exact Hws|done|done|done|].
  rewrite <-(Forall2_length _ _ _ Hall).
  rewrite <-(size_list_to_set (C := gset nat) ps)
    by (by apply StronglySorted_lt_NoDup).
  f_equal. apply set_eq. intros p.
  rewrite !elem_of_list_to_set, Hps, list_elem_of_fmap.
  split; intros (n & ? & ?); by exists n.
Qed.

(** C6: [should_trust_models_over_reference] always returns; it returns
    true only when the greatest confidence of a node at the position
    reaches the threshold; a true result at a threshold stays true at
    every lower threshold; and the result is false when no node sits at
    the position. *)
Theorem trust_threshold_monotone (L : WordLattice) (pos : nat) :
  (∀ t, ∃ b, should_trust_models_over_reference L pos t = Ok b)
  ∧ (∀ t, should_trust_models_over_reference L pos t = Ok true →
       ∃ n, n ∈ nodes L ∧ position n = pos
            ∧ (∀ n', n' ∈ nodes L → position n' = pos →
                 (confidence n' <= confidence n)%Q)
            ∧ (t <= confidence n)%Q)
  ∧ (∀ t1 t2, (t1 <= t2)%Q →
       should_trust_models_over_reference L pos t2 = Ok true →
       should_trust_models_over_reference L pos t1 = Ok true)
  ∧ ((∀ n, n ∈ nodes L → position n ≠ pos) →
       ∀ t, should_trust_models_over_reference L pos t = Ok false).
Proof.
  destruct (filter (λ n, position n = pos) (nodes L)) as [|n0 ns] eqn:Hns.
  { assert (Hf : ∀ t, should_trust_models_over_reference L pos t = Ok false).
    { intros t. unfold should_trust_models_over_reference. by rewrite Hns. }
    split_and!.
    - intros t. rewrite Hf. by eexists.
    - intros t. by rewrite Hf.
    - intros t1 t2 _. by rewrite !Hf.
    - done. }
  assert (Hne : filter (λ n, position n = pos) (nodes L) ≠ [])
    by (by rewrite Hns).
  destruct (should_trust_eq L pos Hne) as (n & Hn & Hpos & Hmax & Heq).
  split_and!.
  - intros t. rewrite Heq. by eexists.
  - intros t. rewrite Heq. intros [= Ht].
    apply andb_true_iff in Ht as [Ht _]. apply Qle_bool_iff in Ht.
    by exists n.
  - intros t1 t2 Hle. rewrite !Heq. intros [= Ht]. f_equal.
    apply andb_true_iff in Ht as [Ht ->]. rewrite andb_true_r.
    apply Qle_bool_iff. apply Qle_bool_iff in Ht. by eapply Qle_trans.
  - intros Hnone. by destruct (Hnone n Hn).
Qed.

(** C7: [get_consensus_transcription] raises exactly when the strategy is
    neither ['voting'] nor ['confidence']; what it raises then is the
    [ValueError] for an unknown strategy, and the lattice is the one it
    was called on. *)
Theorem unknown_strategy_raises (L : WordLattice) (strategy : string) :
  ((∃ e, (get_consensus_transcription L strategy).2 = Raise e)
   ↔ strategy ≠ "voting" ∧ strategy ≠ "confidence")
  ∧ (∀ e, (get_consensus_transcription L strategy).2 = Raise e →
       e = ValueError ("Unknown strategy: " +:+ strategy)
       ∧ (get_consensus_transcription L strategy).1 = L).
Proof.
  unfold get_consensus_transcription.
  destruct (decide (strategy = "voting")) as [->|Hv]; simpl.
  { destruct (voting_consensus_returns L) as [ws ->].
    split; [|done]. split; [by intros [e ?]|by intros [? _]]. }
  destruct (decide (strategy = "confidence")) as [->|Hc]; simpl.
  { destruct (confidence_consensus_returns L) as [ws ->].
    split; [|done]. split; [by intros [e ?]|by intros [_ ?]]. }
  split.
  - split; [done|]. intros _. by eexists.
  - by intros e [= <-].
Qed.

(** C9: on a built lattice, at a position with at least one node, when no
    node there has ['reference'] among its sources and some node there has
    a confidence that reaches the threshold, the result is true. *)
Theorem trust_without_reference `{CaseFold} (unit : string)
    (hypotheses : list (string * list string)) (reference : list string) :
  ∃ L,
    build_from_hypotheses (WordLattice_init unit) hypotheses reference = Ok L
    ∧ ∀ pos t,
        (∃ n, n ∈ nodes L ∧ position n = pos) →
        (∀ n, n ∈ nodes L → position n = pos → "reference" ∉ sources n) →
        (∃ n, n ∈ nodes L ∧ position n = pos ∧ (t <= confidence n)%Q) →
        should_trust_models_over_reference L pos t = Ok true.
Proof.
  destruct (build_fresh unit hypotheses reference) as (L & total & HL & _).
  exists L. split; [done|].
  intros pos t (n0 & Hn0 & Hp0) Hnoref (n1 & Hn1 & Hp1 & Ht).
  assert (Hne : filter (λ n, position n = pos) (nodes L) ≠ []).
  { intros Hnil.
    assert (Hin : n0 ∈ filter (λ n, position n = pos) (nodes L))
      by (by apply list_elem_of_filter).
    rewrite Hnil in Hin. by apply not_elem_of_nil in Hin. }
  destruct (should_trust_eq L pos Hne) as (n & Hn & Hpos & Hmax & ->).
  f_equal. apply andb_true_iff. split.
  - apply Qle_bool_iff. eapply Qle_trans; [exact Ht|]. by apply Hmax.
  - rewrite pick_words_no_reference.
    + destruct (pick_words_consensus (confidence n)
                  (filter (λ n, position n = pos) (nodes L))) as [w ->].
      * exists n. split; [by apply list_elem_of_filter|].
        apply Qeq_bool_iff. reflexivity.
      * done.
    + apply Forall_forall. intros n' Hn'.
      apply list_elem_of_filter in Hn' as [? ?]. by apply Hnoref.
Qed.

Lemma trust_without_reference_witness :
  ∃ L,
    build_from_hypotheses (WordLattice_init "word")
      [("m1", ["a"; "b"])] ["a"] = Ok L
    ∧ should_trust_models_over_reference L 1 (1 # 2) = Ok true.
Proof.
  destruct (trust_without_reference "word" [("m1", ["a"; "b"])] ["a"])
    as (L & HL & Htrust).
  exists L. split; [exact HL|].
  assert (Hnodes : (λ n, (position n, word n, elements (sources n),
                          confidence n)) <$> nodes L
                   = [(0, "a", ["m1"; "reference"], 2 # 2);
                      (1, "b", ["m1"], 1 # 2)]).
  { revert HL. vm_compute. by intros [= <-]. }
  destruct (nodes L) as [|na [|nb [|? ?]]] eqn:HnL; try done.
  injection Hnodes as Hpa _ _ _ Hpb _ Hsb Hcb.
  apply Htrust.
  - exists nb. split; [|done]. right. by left.
  - intros n Hn Hpos Href.
    apply elem_of_cons in Hn as [->|Hn]; [congruence|].
    apply list_elem_of_singleton in Hn as ->.
    apply elem_of_elements in Href. rewrite Hsb in Href.
    by apply list_elem_of_singleton in Href.
  - exists nb. split_and!; [right; by left|done|].
    rewrite Hcb. apply Qle_refl.
Defined.

Lemma Forall2_words ns (Q : string → Prop) ps ws :
  Forall (λ n, Q (word n)) ns →
  Forall2 (λ (p : nat) w, ∃ n, n ∈ ns ∧ position n = p ∧ word n = w) ps ws →
  Forall Q ws.
Proof.
  intros Hns Hall. induction Hall as [|p w ps ws (n & Hn & _ & <-) _ IH];
    constructor; [|done].
  rewrite Forall_forall in Hns. by apply Hns.
Qed.

(** C10: every node [_construct_lattice] creates carries a case-folded
    word, and every token of the consensus of a built lattice, under
    either strategy, is case-folded. *)
Theorem lattice_words_case_folded `{CaseFold} (unit : string)
    (hypotheses : list (string * list string)) (reference : list string) :
  (∀ self alignments,
     ∃ L new, _construct_lattice self alignments reference = Ok L
              ∧ nodes L = nodes self ++ new
              ∧ Forall (λ n, lower (word n) = word n) new)
  ∧ ∃ L,
      build_from_hypotheses (WordLattice_init unit) hypotheses reference
      = Ok L
      ∧ Forall (λ n, lower (word n) = word n) (nodes L)
      ∧ ∀ strategy ws,
          (get_consensus_transcription L strategy).2 = Ok ws →
          Forall (λ w, lower w = w) ws.
Proof.
  split.
  { intros self alignments.
    pose proof (construct_lattice_spec self alignments reference) as Hc.
    apply returns_exists in Hc as (L & HL & new & Hnodes & Hnew & _).
    exists L, new. split_and!; [done|done|].
    eapply Forall_impl; [exact Hnew|]. by intros n (? & _). }
  destruct (build_fresh unit hypotheses reference) as (L & total & HL & Hall).
  assert (Hlow : Forall (λ n, lower (word n) = word n) (nodes L)).
  { eapply Forall_impl; [exact Hall|]. by intros n (? & _). }
  exists L. split_and!; [done|done|].
  intros strategy ws. unfold get_consensus_transcription.
  destruct (decide (strategy = "voting")) as [->|Hv]; simpl.
  { destruct (consensus_spec nat_gt (λ n, size (sources n)) (nodes L))
      as (_ & _ & Hret).
    apply returns_exists in Hret as (ws' & Hws' & Hf).
    change (_voting_consensus L = Ok ws') in Hws'. rewrite Hws'.
    intros [= <-]. by eapply Forall2_words. }
  destruct (decide (strategy = "confidence")) as [->|Hc]; simpl; [|done].
  destruct (consensus_spec Q_gt confidence (nodes L)) as (_ & _ & Hret).
  apply returns_exists in Hret as (ws' & Hws' & Hf).
  change (_confidence_consensus L = Ok ws') in Hws'. rewrite Hws'.
  intros [= <-]. by eapply Forall2_words.
Qed.

(** ** Further properties of [compute_standard_wer] *)

(** X1: when case folding identifies no two distinct tokens of the inputs
    (for instance when every token is already lowercase), the three
    counts add up to the reported distance. *)
Theorem wer_counts_total `{CaseFold} (hyp ref : list string) :
  (∀ x y, x ∈ hyp → y ∈ ref → lower x = lower y → x = y) →
  ∃ r, compute_standard_wer hyp ref = Ok r
       ∧ substitutions r + deletions r + insertions r = distance r.
Proof.
  intros Hcase. rewrite compute_standard_wer_eq. eexists. split; [done|].
  cbn [substitutions deletions insertions distance].
  rewrite alignment_details_total.
  unfold editdistance_eval. by apply cost_lev.
Qed.

Lemma wer_counts_total_witness :
  ∃ r, compute_standard_wer ["a"; "x"; "c"; "d"] ["a"; "b"; "c"] = Ok r
       ∧ substitutions r + deletions r + insertions r = distance r.
Proof.
  apply (wer_counts_total ["a"; "x"; "c"; "d"] ["a"; "b"; "c"]).
  intros x y Hx Hy.
  assert (Hall : Forall (λ x, Forall (λ y, lower x = lower y → x = y)
                                 ["a"; "b"; "c"])
                   ["a"; "x"; "c"; "d"])
    by (apply (bool_decide_unpack _); vm_compute; exact I).
  rewrite Forall_forall in Hall. specialize (Hall x Hx).
  rewrite Forall_forall in Hall. exact (Hall y Hy).
Defined.

(** X2: the reference length and the three counts do not depend on the
    case of the tokens. *)
Theorem wer_counts_case_insensitive `{CaseFold} (hyp ref : list string) :
  ∃ r r', compute_standard_wer hyp ref = Ok r
          ∧ compute_standard_wer (lower <$> hyp) (lower <$> ref) = Ok r'
          ∧ reference_length r' = reference_length r
          ∧ substitutions r' = substitutions r
          ∧ deletions r' = deletions r
          ∧ insertions r' = insertions r.
Proof.
  rewrite !compute_standard_wer_eq. do 2 eexists.
  split; [done|]. split; [done|].
  cbn [substitutions deletions insertions reference_length].
  rewrite alignment_details_spec_lower, length_fmap. done.
Qed.

Section Identity.
Context `{CaseFold}.
Variable s : list string.

Lemma identity_cell i :
  i < length s → dp_cell s s (S i) (S i) = (0, op_match).
Proof.
  induction i as [|i IH]; intros Hi.
  - destruct (lookup_lt_is_Some_2 s 0 Hi) as [x Hx].
    rewrite (dp_cell_S_S _ _ _ _ x x) by done.
    by rewrite decide_True by done.
  - destruct (lookup_lt_is_Some_2 s (S i) Hi) as [x Hx].
    rewrite (dp_cell_S_S _ _ _ _ x x) by done.
    rewrite decide_True by done. by rewrite IH by lia.
Qed.

Lemma identity_count_run fuel k :
  k ≤ length s → k ≤ fuel →
  count_run (λ i j, (dp_cell s s i j).2) fuel
    {| cs_i := k; cs_j := k; cs_subs := 0; cs_dels := 0; cs_ins := 0 |}
  = {| cs_i := 0; cs_j := 0; cs_subs := 0; cs_dels := 0; cs_ins := 0 |}.
Proof.
  revert fuel. induction k as [|k IH]; intros fuel Hk Hfuel.
  { by destruct fuel. }
  destruct fuel as [|fuel]; [lia|].
  cbn [count_run count_continue cs_i cs_j Nat.ltb Nat.leb orb].
  rewrite identity_cell by lia. unfold count_next. cbn [cs_i cs_j cs_subs
    cs_dels cs_ins snd]. apply IH; lia.
Qed.

Lemma lev_identity i : lev s s i i = 0.
Proof. induction i as [|i IH]; [done|]. by rewrite lev_S_S_eq. Qed.
End Identity.

(** X3: a sequence against itself gives distance 0, no operation counted
    and error rate 0. *)
Theorem wer_identity_any `{CaseFold} (s : list string) :
  ∃ r, compute_standard_wer s s = Ok r
       ∧ distance r = 0
       ∧ substitutions r = 0 ∧ deletions r = 0 ∧ insertions r = 0
       ∧ (wer r == 0)%Q.
Proof.
  rewrite compute_standard_wer_eq. eexists. split; [done|]. simpl.
  unfold alignment_details_spec, editdistance_eval.
  rewrite identity_count_run, lev_identity by lia. simpl.
  split_and!; [done..|]. by destruct (length s).
Qed.

(** X4: [_align_pair] returns for every pair of sequences: no index
    leaves the table, no empty cell is read and the backtracking loop
    ends. *)
Theorem align_pair_total `{CaseFold} (seq1 seq2 : list string)
    (name : string) :
  ∃ alignment, _align_pair seq1 seq2 name = Ok alignment.
Proof.
  pose proof (align_pair_returns seq1 seq2 name) as Hret.
  apply returns_exists in Hret as (alignment & Hal & _). by exists alignment.
Qed.

(** ** Further properties of the lattice *)



(** ** [_align_pair]: the alignment it returns *)

Section AlignPath.
Context `{CaseFold}.
Variables sa sb : list string.

Lemma align_back_path dp i j acc :
  tbl_inv (length sa) (length sb) (λ _ _, True)
    (λ a b, Some (dp_cell sa sb a b)) dp →
  i ≤ length sa → j ≤ length sb → 0 < i + j →
  returns (align_back sa sb dp (i, j, acc))
    (λ st, ∃ e, st.2 = acc ++ [e]
       ∧ st.1.1 ≤ length sa ∧ st.1.2 ≤ length sb
       ∧ st.1.1 + st.1.2 < i + j
       ∧ ∀ al, path sa sb st.1.1 st.1.2 al → path sa sb i j (al ++ [e])).
Proof.
  intros Hdp Hi Hj Hpos. unfold align_back.
  destruct i as [|i].
  { destruct j as [|j]; [lia|]. simpl. rewrite Nat.sub_0_r.
    destruct (lookup_lt_is_Some_2 sb j) as [w Hw]; [lia|].
    apply returns_bind, (returns_getitem _ _ w); [done|]. simpl.
    eexists. split_and!; [done|lia..|].
    intros al Hal. by apply path_insert. }
  destruct j as [|j].
  { simpl. rewrite Nat.sub_0_r.
    destruct (lookup_lt_is_Some_2 sa i) as [w Hw]; [lia|].
    apply returns_bind, (returns_getitem _ _ w); [done|]. simpl.
    eexists. split_and!; [done|lia..|].
    intros al Hal. by apply path_delete. }
  destruct (lookup_lt_is_Some_2 sa i) as [wa Hwa]; [lia|].
  destruct (lookup_lt_is_Some_2 sb j) as [wb Hwb]; [lia|].
  rewrite decide_False by done. rewrite decide_False by done.
  apply returns_bind. eapply returns_op_at; [done|lia|lia|done|].
  pose proof (dp_cell_op_inner sa sb i j) as Hop.
  destruct (dp_cell sa sb (S i) (S j)).2 eqn:Hcell; simpl;
    rewrite ?Nat.sub_0_r.
  - exfalso. apply Hop; [lia|lia|done].
  - apply returns_bind, (returns_getitem _ _ wb); [done|]. simpl.
    eexists. split_and!; [done|lia..|].
    intros al Hal. by eapply path_diagonal; eauto.
  - apply returns_bind, (returns_getitem _ _ wb); [done|]. simpl.
    eexists. split_and!; [done|lia..|].
    intros al Hal. by eapply path_diagonal; eauto.
  - apply returns_bind, (returns_getitem _ _ wa); [done|]. simpl.
    eexists. split_and!; [done|lia..|].
    intros al Hal. by apply path_delete.
  - apply returns_bind, (returns_getitem _ _ wb); [done|]. simpl.
    eexists. split_and!; [done|lia..|].
    intros al Hal. by apply path_insert.
Qed.

(** [_align_pair] returns the path from the origin to the last cell. *)
Lemma align_pair_path name :
  returns (_align_pair sa sb name) (path sa sb (length sa) (length sb)).
Proof.
  unfold _align_pair. apply returns_bind.
  eapply returns_mono; [apply align_table_spec|].
  intros dp Hdp. simpl. apply returns_bind.
  eapply returns_mono.
  { apply (returns_while
      (λ st, st.1.1 ≤ length sa ∧ st.1.2 ≤ length sb
             ∧ ∀ al, path sa sb st.1.1 st.1.2 al →
                     path sa sb (length sa) (length sb)
                       (al ++ reverse st.2))
      (λ st, st.1.1 + st.1.2)); [|simpl; lia|].
    { simpl. split_and!; [lia..|]. intros al. by rewrite app_nil_r. }
    intros [[i j] acc] (Hi & Hj & Hinv) Hc. simpl in *.
    eapply returns_mono.
    - apply align_back_path; [done|done|done|].
      apply orb_true_iff in Hc as [Hc|Hc]; apply Nat.ltb_lt in Hc; lia.
    - simpl. intros [[i' j'] acc'] (e & -> & Hi' & Hj' & Hlt & Hstep).
      simpl in *. split_and!; [done|done| |done].
      intros al Hal. rewrite reverse_app. simpl.
      rewrite cons_middle, app_assoc. apply Hinv. by apply Hstep. }
  simpl. intros [[i j] acc] [(Hi & Hj & Hinv) Hc]. simpl in *.
  apply orb_false_iff in Hc as [Hi0 Hj0].
  apply Nat.ltb_ge in Hi0, Hj0.
  assert (i = 0 ∧ j = 0) as [-> ->] by lia.
  apply (Hinv []). constructor.
Qed.

(** What a path consists of. *)
Lemma path_words i j al :
  path sa sb i j al →
  (λ e : aligned, e.1.2) <$> filter (λ e : aligned, e.2 ≠ op_delete) al
  = take j sb.
Proof.
  induction 1 as [|i j x w o al Ho Hm Hx Hw _ IH|i j w al Ho Hw _ IH
                  |i j w al Ho Hw _ IH]; [done|..];
    rewrite filter_app, fmap_app, IH, filter_cons; simpl.
  - rewrite decide_True by (by destruct Hm as [-> | ->]).
    by erewrite take_S_r.
  - by rewrite app_nil_r.
  - by erewrite take_S_r.
Qed.

Lemma path_positions i j al :
  path sa sb i j al →
  (λ e : aligned, e.1.1) <$> filter (λ e : aligned, e.2 ≠ op_insert) al
  = seq 0 i.
Proof.
  induction 1 as [|i j x w o al Ho Hm Hx Hw _ IH|i j w al Ho Hw _ IH
                  |i j w al Ho Hw _ IH]; [done|..];
    rewrite ?seq_S, filter_app, fmap_app, IH, filter_cons.
  - by rewrite decide_True by (by destruct Hm as [-> | ->]).
  - by rewrite decide_True by done.
  - rewrite decide_False by (by intros []). by rewrite app_nil_r.
Qed.

Lemma path_entries i j al : path sa sb i j al → Forall (entry_ok sa sb) al.
Proof.
  induction 1 as [|i j x w o al Ho Hm Hx Hw Hp IH|i j w al Ho Hw Hp IH
                  |i j w al Ho Hw Hp IH]; [constructor|..];
    (apply Forall_app; split; [done|]); (constructor; [|constructor]);
    unfold entry_ok; simpl; [|done..].
  rewrite (dp_cell_S_S _ _ _ _ x w) in Ho by done.
  assert (Hin : w ∈ sb) by (by eapply list_elem_of_lookup_2).
  destruct (decide (lower x = lower w)) as [Heq|Hne]; simpl in Ho.
  - subst o. by exists x.
  - destruct Hm as [-> | ->]; [|by exists x].
    by destruct (choose_op (dp_cell sa sb i j).1 (dp_cell sa sb i (S j)).1
                   (dp_cell sa sb (S i) j).1) as [_ []].
Qed.

(** The entries that are not matches are as many as the cost stored in
    the cell the path ends in. *)
Lemma path_cost i j al :
  path sa sb i j al → i ≤ length sa → j ≤ length sb →
  length (filter (λ e : aligned, e.2 ≠ op_match) al)
  = (dp_cell sa sb i j).1.
Proof.
  induction 1 as [|i j x w o al Ho Hm Hx Hw Hp IH|i j w al Ho Hw Hp IH
                  |i j w al Ho Hw Hp IH]; intros Hi Hj; [done|..];
    rewrite filter_app, length_app, IH, filter_cons by lia; cbn [snd].
  - pose proof (cost_step sa sb i j) as Hstep. cbv beta zeta in Hstep.
    rewrite Ho in Hstep.
    destruct Hm as [-> | ->].
    + rewrite decide_False by (by intros []). rewrite Hstep by lia.
      simpl. lia.
    + rewrite decide_True by done. rewrite Hstep by lia. simpl. lia.
  - rewrite decide_True by done.
    destruct j as [|j]; [rewrite !dp_cell_cost_0_r; simpl; lia|].
    pose proof (cost_step sa sb i j) as Hstep. cbv beta zeta in Hstep.
    rewrite Ho in Hstep. rewrite Hstep by lia. simpl. lia.
  - rewrite decide_True by done.
    destruct i as [|i]; [rewrite !dp_cell_cost_0_l; simpl; lia|].
    pose proof (cost_step sa sb i j) as Hstep. cbv beta zeta in Hstep.
    rewrite Ho in Hstep. rewrite Hstep by lia. simpl. lia.
Qed.

Lemma path_length i j al :
  path sa sb i j al → i `max` j ≤ length al ∧ length al ≤ i + j.
Proof.
  induction 1 as [|i j x w o al Ho Hm Hx Hw Hp IH|i j w al Ho Hw Hp IH
                  |i j w al Ho Hw Hp IH]; [simpl; lia|..];
    rewrite length_app; simpl; lia.
Qed.
End AlignPath.

(** ** [_construct_lattice]: what the grouping dictionary holds *)

Section DictMore.
Context {K V : Type} `{EqDecision K}.
Implicit Types d : list (K * V).

Lemma dict_get_NoDup k v d :
  NoDup (dict_keys d) → (k, v) ∈ d → dict_get k d = Some v.
Proof.
  unfold dict_keys. induction d as [|[k0 v0] d IH]; csimpl; intros Hnd Hin.
  { by apply not_elem_of_nil in Hin. }
  apply NoDup_cons in Hnd as [Hk0 Hnd].
  apply elem_of_cons in Hin as [[= -> ->]|Hin].
  - by rewrite decide_True.
  - rewrite decide_False; [by apply IH|].
    intros ->. apply Hk0. apply list_elem_of_fmap. by exists (k, v).
Qed.

Lemma dict_set_fresh k v d :
  k ∉ dict_keys d → dict_set k v d = d ++ [(k, v)].
Proof.
  unfold dict_keys. induction d as [|[k0 v0] d IH]; csimpl; intros Hk; [done|].
  rewrite not_elem_of_cons in Hk. destruct Hk as [Hne Hk].
  rewrite decide_False by done. by rewrite IH.
Qed.

Lemma dict_set_not_nil k v d : dict_set k v d ≠ [].
Proof. destruct d as [|[k0 v0] d]; simpl; [done|]. by case_decide. Qed.
End DictMore.

Section Grouped.
Context `{CaseFold}.

Lemma group_words_events alignments :
  group_words alignments = foldl add_event [] (events alignments).
Proof.
  unfold group_words, events. generalize (@nil (nat * list (string * gset string))).
  induction alignments as [|[name alignment] als IH]; intros pw; [done|].
  csimpl. rewrite foldl_app, <-IH. f_equal.
  clear IH. revert pw.
  induction alignment as [|[[pos w] op] al IH]; intros pw; [done|].
  csimpl. by rewrite <-IH.
Qed.

Lemma elem_of_events alignments e name :
  (e, name) ∈ events alignments
  ↔ ∃ alignment, (name, alignment) ∈ alignments ∧ e ∈ alignment.
Proof.
  unfold events. rewrite list_elem_of_bind. split.
  - intros ([name' alignment] & Hin & Hal).
    apply list_elem_of_fmap in Hin as (e' & [= -> ->] & He').
    by exists alignment.
  - intros (alignment & Hal & He). exists (name, alignment).
    split; [|done]. apply list_elem_of_fmap. by exists e.
Qed.

Lemma stored_add_source pw pos w name pos' w' :
  stored (add_source pos w name pw) pos' w'
  = if decide (pos = pos' ∧ w = w') then stored pw pos w ∪ {[name]}
    else stored pw pos' w'.
Proof.
  unfold stored, add_source, dd_get. rewrite dict_get_set.
  destruct (decide (pos = pos')) as [->|Hpos]; simpl.
  - rewrite dict_get_set.
    destruct (decide (w = w')) as [->|Hw]; simpl.
    + by rewrite decide_True.
    + by rewrite decide_False by (by intros [_ ?]).
  - by rewrite decide_False by (by intros [? _]).
Qed.

Lemma add_source_grouped_ok pw pos w name :
  grouped_ok pw → grouped_ok (add_source pos w name pw).
Proof.
  intros [Hnd Hall]. unfold add_source. split.
  { by apply dict_keys_set_NoDup. }
  apply Forall_dict_set; [done|]. simpl.
  assert (Hwords : NoDup (dict_keys (dd_get [] pos pw))
                   ∧ Forall (λ ws, ws.2 ≠ ∅) (dd_get [] pos pw)).
  { unfold dd_get. destruct (dict_get pos pw) as [words|] eqn:Hw; simpl.
    - apply dict_get_elem_of in Hw. rewrite Forall_forall in Hall.
      by destruct (Hall _ Hw) as (? & _ & ?).
    - split; constructor. }
  destruct Hwords as [Hnd' Hne]. split_and!.
  - by apply dict_keys_set_NoDup.
  - apply dict_set_not_nil.
  - apply Forall_dict_set; [done|]. simpl.
    intros Hempty. assert (Hin : name ∈ (∅ : gset string)).
    { rewrite <-Hempty. apply elem_of_union. right.
      by apply elem_of_singleton. }
    by apply not_elem_of_empty in Hin.
Qed.

Lemma events_grouped_ok evs : grouped_ok (foldl add_event [] evs).
Proof.
  induction evs as [|[[[pos w] op] name] evs IH] using rev_ind.
  { split; constructor. }
  rewrite foldl_snoc. simpl. case_decide; [|done].
  by apply add_source_grouped_ok.
Qed.

Lemma events_stored evs pos w name :
  name ∈ stored (foldl add_event [] evs) pos w
  ↔ ∃ w' op, (pos, w', op, name) ∈ evs ∧ op ≠ op_delete ∧ lower w' = w.
Proof.
  induction evs as [|[[[pos0 w0] op0] name0] evs IH] using rev_ind.
  { split; [by intros ?%not_elem_of_empty|].
    by intros (? & ? & ?%not_elem_of_nil & _). }
  rewrite foldl_snoc. simpl.
  setoid_rewrite elem_of_app. setoid_rewrite list_elem_of_singleton.
  destruct (decide (op0 ≠ op_delete)) as [Hop|Hop].
  - rewrite stored_add_source.
    destruct (decide (pos0 = pos ∧ lower w0 = w)) as [[Hp Hw]|Hne].
    + rewrite elem_of_union, elem_of_singleton. subst pos0 w.
      rewrite IH. split.
      * intros [(w' & op & ? & ? & ?)|Hname].
        -- exists w', op. split_and!; [by left|done..].
        -- subst name. exists w0, op0. split_and!; [by right|done..].
      * intros (w' & op & [?|Heq] & ? & ?).
        -- left. by exists w', op.
        -- right. by simplify_eq.
    + rewrite IH. split.
      * intros (w' & op & ? & ? & ?).
        exists w', op. split_and!; [by left|done..].
      * intros (w' & op & [?|Heq] & ? & ?); [by exists w', op|].
        simplify_eq. by destruct Hne.
  - rewrite IH. split.
    + intros (w' & op & ? & ? & ?).
      exists w', op. split_and!; [by left|done..].
    + intros (w' & op & [?|Heq] & ? & ?); [by exists w', op|].
      by simplify_eq.
Qed.

(** The set stored for a word at a position holds the models that
    support it. *)
Lemma group_words_stored alignments pos w name :
  name ∈ stored (group_words alignments) pos w
  ↔ supports alignments pos w name.
Proof.
  rewrite group_words_events, events_stored. unfold supports. split.
  - intros (w' & op & Hin & ? & ?).
    apply elem_of_events in Hin as (alignment & ? & ?).
    by exists alignment, w', op.
  - intros (alignment & w' & op & ? & ? & ? & ?). exists w', op.
    split_and!; [|done..]. apply elem_of_events. by exists alignment.
Qed.

Lemma group_words_grouped_ok alignments : grouped_ok (group_words alignments).
Proof. rewrite group_words_events. apply events_grouped_ok. Qed.

(** Entries of a well-formed grouping dictionary. *)
Lemma grouped_entry pw pos w srcs :
  grouped_ok pw →
  (w, srcs) ∈ dd_get [] pos pw ↔ srcs = stored pw pos w ∧ srcs ≠ ∅.
Proof.
  intros [Hnd Hall]. unfold stored, dd_get.
  destruct (dict_get pos pw) as [words|] eqn:Hwords; simpl.
  - apply dict_get_elem_of in Hwords. rewrite Forall_forall in Hall.
    destruct (Hall _ Hwords) as (Hnd' & _ & Hne). simpl in *. split.
    + intros Hin. rewrite (dict_get_NoDup _ _ _ Hnd' Hin). simpl.
      split; [done|]. rewrite Forall_forall in Hne. by apply (Hne (w, srcs)).
    + intros [-> Hsrcs].
      destruct (dict_get w words) as [srcs|] eqn:Hw; simpl in *; [|done].
      by apply dict_get_elem_of.
  - split; [by intros ?%not_elem_of_nil|]. by intros [-> ?].
Qed.

Lemma grouped_keys pw pos :
  grouped_ok pw →
  pos ∈ dict_keys pw ↔ ∃ w, stored pw pos w ≠ ∅.
Proof.
  intros Hok. pose proof Hok as [Hnd Hall].
  rewrite <-dict_get_is_Some. split.
  - intros [words Hwords].
    pose proof (dict_get_elem_of _ _ _ Hwords) as Hin.
    rewrite Forall_forall in Hall.
    destruct (Hall _ Hin) as (_ & Hne & _). simpl in Hne.
    destruct words as [|[w srcs] words]; [done|].
    exists w. assert (Hent : (w, srcs) ∈ dd_get [] pos pw).
    { unfold dd_get. rewrite Hwords. simpl. by left. }
    apply grouped_entry in Hent as [<- ?]; done.
  - intros [w Hw]. unfold stored, dd_get in Hw.
    destruct (dict_get pos pw); [by eexists|done].
Qed.
End Grouped.

(** ** [_construct_lattice]: the nodes and edges it appends *)

Lemma bind_imap_snd {A B} (f : A → list B) (l : list A) :
  imap (λ i x, (i, x)) l ≫= (λ ip, f ip.2) = l ≫= f.
Proof.
  assert (Hgen : ∀ g : nat → nat,
            imap (λ i x, (g i, x)) l ≫= (λ ip, f ip.2) = l ≫= f).
  { induction l as [|x l IH]; intros g; [done|].
    rewrite imap_cons, !bind_cons. simpl. f_equal.
    apply (IH (g ∘ S)). }
  apply (Hgen id).
Qed.

Section ConstructFull.
Context `{CaseFold}.

Lemma add_node_full total positions i pos entry self :
  0 < total →
  returns (add_node total positions i pos entry self)
    (λ L, alignment_unit L = alignment_unit self
          ∧ paths L = paths self
          ∧ nodes L = nodes self ++ [node_of total pos entry]
          ∧ edges L
            = edges self
              ++ (if i <? length positions - 1
                  then [edge_of total pos
                          (default 0 (positions !! (i + 1))) entry]
                  else [])).
Proof.
  intros Htotal. unfold add_node. destruct entry as [w srcs].
  destruct total as [|t]; [lia|]. simpl truediv.
  apply returns_bind. simpl.
  destruct (i <? length positions - 1) eqn:Hi.
  - apply Nat.ltb_lt in Hi.
    destruct (lookup_lt_is_Some_2 positions (i + 1)) as [next Hnext]; [lia|].
    apply returns_bind, (returns_getitem _ _ next); [done|]. simpl.
    by rewrite Hnext.
  - simpl. by rewrite app_nil_r.
Qed.

(** [_construct_lattice] appends [new_nodes] and [new_edges] and changes
    nothing else. *)
Lemma construct_lattice_full self alignments reference :
  returns (_construct_lattice self alignments reference)
    (λ L,
       alignment_unit L = alignment_unit self
       ∧ paths L = paths self
       ∧ nodes L
         = nodes self
           ++ new_nodes (length alignments) (group_words alignments)
                (merge_sort (≤) (dict_keys (group_words alignments)))
       ∧ edges L
         = edges self
           ++ new_edges (length alignments) (group_words alignments)
                (merge_sort (≤) (dict_keys (group_words alignments)))).
Proof.
  unfold _construct_lattice.
  destruct alignments as [|al0 als].
  { simpl. by rewrite !app_nil_r. }
  set (alignments := al0 :: als).
  assert (Htotal : 0 < length alignments) by (simpl; lia).
  set (pw := group_words alignments).
  set (positions := merge_sort (≤) (dict_keys pw)).
  set (total := length alignments).
  set (nblock := λ ip : nat * nat, node_of total ip.2 <$> dd_get [] ip.2 pw).
  set (eblock := λ ip : nat * nat,
         if ip.1 <? length positions - 1
         then edge_of total ip.2 (default 0 (positions !! (ip.1 + 1)))
                <$> dd_get [] ip.2 pw
         else []).
  eapply returns_mono.
  { apply (returns_for_each (λ pre L,
      alignment_unit L = alignment_unit self ∧ paths L = paths self
      ∧ nodes L = nodes self ++ (pre ≫= nblock)
      ∧ edges L = edges self ++ (pre ≫= eblock))).
    { simpl. by rewrite !app_nil_r. }
    intros pre [i pos] rest L _ (Hau & Hpaths & Hnodes & Hedges).
    eapply returns_mono.
    { apply (returns_for_each (λ pre' L',
        alignment_unit L' = alignment_unit self ∧ paths L' = paths self
        ∧ nodes L' = nodes L ++ (node_of total pos <$> pre')
        ∧ edges L'
          = edges L
            ++ (if i <? length positions - 1
                then edge_of total pos (default 0 (positions !! (i + 1)))
                       <$> pre'
                else []))).
      { destruct (i <? _); simpl; by rewrite !app_nil_r. }
      intros pre' entry rest' L' _ (Hau' & Hpaths' & Hnodes' & Hedges').
      eapply returns_mono; [by apply add_node_full|].
      simpl. intros L'' (-> & -> & -> & ->).
      rewrite Hnodes', Hedges', !fmap_app, <-!app_assoc.
      split_and!; [done..|].
      destruct (i <? length positions - 1); [done|by rewrite !app_nil_r]. }
    simpl. intros L' (Hau' & Hpaths' & Hnodes' & Hedges').
    rewrite !bind_app, !bind_cons. simpl. rewrite !app_nil_r.
    rewrite Hnodes', Hedges', Hnodes, Hedges, <-!app_assoc. done. }
  simpl. intros L (Hau & Hpaths & Hnodes & Hedges).
  split_and!; [done|done| |done].
  rewrite Hnodes. f_equal. unfold nblock.
  apply (bind_imap_snd (λ pos, node_of total pos <$> dd_get [] pos pw)).
Qed.
End ConstructFull.

(** ** Further properties of [_align_pair] *)

(** X6: both sequences can be read back from the alignment
    [_align_pair] returns: the words of the entries that are not deletions
    are the tokens of [seq2] in order, and the positions of the entries
    that are not insertions are the indices of [seq1] in order; the
    alignment has at least as many entries as the longer sequence has
    tokens and at most as many as both together. *)
Theorem align_pair_round_trip `{CaseFold} (seq1 seq2 : list string)
    (name : string) :
  ∃ alignment,
    _align_pair seq1 seq2 name = Ok alignment
    ∧ (λ e : aligned, e.1.2)
        <$> filter (λ e : aligned, e.2 ≠ op_delete) alignment
      = seq2
    ∧ (λ e : aligned, e.1.1)
        <$> filter (λ e : aligned, e.2 ≠ op_insert) alignment
      = seq 0 (length seq1)
    ∧ length seq1 `max` length seq2 ≤ length alignment
    ∧ length alignment ≤ length seq1 + length seq2.
Proof.
  pose proof (align_pair_path seq1 seq2 name) as Hret.
  apply returns_exists in Hret as (alignment & Hal & Hpath).
  exists alignment. split; [done|].
  pose proof (path_words _ _ _ _ _ Hpath) as Hw.
  rewrite firstn_all in Hw.
  pose proof (path_positions _ _ _ _ _ Hpath) as Hp.
  pose proof (path_length _ _ _ _ _ Hpath) as [? ?].
  done.
Qed.

(** X7: what the entries of the alignment say.  A match or a
    substitution sits at an index of [seq1] and carries a token of [seq2]
    that is equal, respectively different, up to case; a deletion carries
    the token of [seq1] at its position; an insertion carries the token of
    [seq2] at its position, which is an index of [seq2]. *)
Theorem align_pair_entries `{CaseFold} (seq1 seq2 : list string)
    (name : string) :
  ∃ alignment,
    _align_pair seq1 seq2 name = Ok alignment
    ∧ ∀ pos w op, (pos, w, op) ∈ alignment →
        match op with
        | op_match =>
            ∃ x, seq1 !! pos = Some x ∧ w ∈ seq2 ∧ lower x = lower w
        | op_substitute =>
            ∃ x, seq1 !! pos = Some x ∧ w ∈ seq2 ∧ lower x ≠ lower w
        | op_delete => seq1 !! pos = Some w
        | op_insert => seq2 !! pos = Some w
        | op_start => False
        end.
Proof.
  pose proof (align_pair_path seq1 seq2 name) as Hret.
  apply returns_exists in Hret as (alignment & Hal & Hpath).
  exists alignment. split; [done|].
  pose proof (path_entries _ _ _ _ _ Hpath) as Hall.
  rewrite Forall_forall in Hall. intros pos w op Hin.
  apply (Hall _ Hin).
Qed.

(** X8: when case folding identifies no two distinct tokens of the two
    sequences, the entries of the alignment that are not matches are as
    many as the edit distance of the sequences. *)
Theorem align_pair_minimal `{CaseFold} (seq1 seq2 : list string)
    (name : string) :
  (∀ x y, x ∈ seq1 → y ∈ seq2 → lower x = lower y → x = y) →
  ∃ alignment,
    _align_pair seq1 seq2 name = Ok alignment
    ∧ length (filter (λ e : aligned, e.2 ≠ op_match) alignment)
      = editdistance_eval seq1 seq2.
Proof.
  intros Hcase.
  pose proof (align_pair_path seq1 seq2 name) as Hret.
  apply returns_exists in Hret as (alignment & Hal & Hpath).
  exists alignment. split; [done|].
  rewrite (path_cost _ _ _ _ _ Hpath) by done.
  unfold editdistance_eval. by apply cost_lev.
Qed.

Lemma align_pair_minimal_witness :
  ∃ alignment,
    _align_pair ["a"; "b"; "c"] ["a"; "x"; "c"; "d"] "m1" = Ok alignment
    ∧ length (filter (λ e : aligned, e.2 ≠ op_match) alignment)
      = editdistance_eval ["a"; "b"; "c"] ["a"; "x"; "c"; "d"].
Proof.
  apply (align_pair_minimal ["a"; "b"; "c"] ["a"; "x"; "c"; "d"] "m1").
  intros x y Hx Hy.
  assert (Hall : Forall (λ x, Forall (λ y, lower x = lower y → x = y)
                                 ["a"; "x"; "c"; "d"])
                   ["a"; "b"; "c"])
    by (apply (bool_decide_unpack _); vm_compute; exact I).
  rewrite Forall_forall in Hall. specialize (Hall x Hx).
  rewrite Forall_forall in Hall. exact (Hall y Hy).
Defined.

(** ** [_construct_lattice]: the nodes, one by one *)

Section NewNodes.
Variable total : nat.
Variable pw : list (nat * list (string * gset string)).
Hypothesis pw_ok : grouped_ok pw.

Lemma elem_of_new_nodes n :
  n ∈ new_nodes total pw (merge_sort (≤) (dict_keys pw))
  ↔ ∃ pos w, stored pw pos w ≠ ∅
             ∧ n = node_of total pos (w, stored pw pos w).
Proof.
  destruct pw_ok as [Hnd _].
  destruct (sorted_keys_spec _ Hnd) as [_ Hin].
  unfold new_nodes. rewrite list_elem_of_bind. split.
  - intros (pos & Hn & Hpos). apply list_elem_of_fmap in Hn as ([w srcs] & -> & Hent).
    apply grouped_entry in Hent as [-> Hne]; [|done].
    by exists pos, w.
  - intros (pos & w & Hne & ->). exists pos. split.
    + apply list_elem_of_fmap. exists (w, stored pw pos w). split; [done|].
      by apply grouped_entry.
    + apply Hin. apply grouped_keys; [done|]. by exists w.
Qed.

Lemma new_nodes_NoDup :
  NoDup ((λ n, (position n, word n))
           <$> new_nodes total pw (merge_sort (≤) (dict_keys pw))).
Proof.
  destruct pw_ok as [Hnd Hall].
  destruct (sorted_keys_spec _ Hnd) as [Hsorted _].
  apply StronglySorted_lt_NoDup in Hsorted.
  unfold new_nodes. revert Hsorted.
  generalize (merge_sort (≤) (dict_keys pw)). intros ps Hps.
  induction Hps as [|p ps Hp Hps IH]; [constructor|].
  rewrite bind_cons, fmap_app. apply NoDup_app. split_and!; [| |done].
  - rewrite <-list_fmap_compose.
    assert (Hkeys : NoDup (dict_keys (dd_get [] p pw))).
    { unfold dd_get. destruct (dict_get p pw) as [words|] eqn:Hwords; simpl;
        [|constructor].
      apply dict_get_elem_of in Hwords. rewrite Forall_forall in Hall.
      by destruct (Hall _ Hwords) as (? & _). }
    unfold dict_keys in Hkeys.
    apply (NoDup_fmap_1 snd). rewrite <-list_fmap_compose.
    by erewrite list_fmap_ext; [exact Hkeys|].
  - intros [p' w] Hin1 Hin2.
    apply list_elem_of_fmap in Hin1 as (n1 & Heq1 & Hn1).
    apply list_elem_of_fmap in Hn1 as (e1 & -> & _). simpl in Heq1.
    apply list_elem_of_fmap in Hin2 as (n2 & Heq2 & Hn2).
    apply list_elem_of_bind in Hn2 as (p2 & Hn2 & Hp2).
    apply list_elem_of_fmap in Hn2 as (e2 & -> & _). simpl in Heq2.
    simplify_eq. done.
Qed.

Lemma new_nodes_sorted :
  StronglySorted le
    (position <$> new_nodes total pw (merge_sort (≤) (dict_keys pw))).
Proof.
  destruct pw_ok as [Hnd _].
  destruct (sorted_keys_spec _ Hnd) as [Hsorted _].
  unfold new_nodes. revert Hsorted.
  generalize (merge_sort (≤) (dict_keys pw)). intros ps Hps.
  induction Hps as [|p ps Hps IH Hp]; [constructor|].
  rewrite bind_cons, fmap_app. apply StronglySorted_app. split_and!; [| |done].
  - intros x1 x2 Hx1 Hx2.
    apply list_elem_of_fmap in Hx1 as (n1 & -> & Hn1).
    apply list_elem_of_fmap in Hn1 as (e1 & -> & _).
    apply list_elem_of_fmap in Hx2 as (n2 & -> & Hn2).
    apply list_elem_of_bind in Hn2 as (p2 & Hn2 & Hp2).
    apply list_elem_of_fmap in Hn2 as (e2 & -> & _). simpl.
    rewrite Forall_forall in Hp. specialize (Hp _ Hp2). lia.
  - rewrite <-list_fmap_compose. simpl.
    generalize (dd_get [] p pw). intros l.
    induction l as [|e l IHl]; csimpl; constructor; [done|].
    apply Forall_forall. intros x Hx.
    apply list_elem_of_fmap in Hx as (? & -> & _). done.
Qed.
End NewNodes.

(** The nodes [_construct_lattice] appends: one for each word supported
    at each position, with exactly its supporters as sources, listed by
    ascending position. *)
Lemma construct_nodes_spec `{CaseFold} (self : WordLattice)
    (alignments : list (string * list aligned)) (reference : list string) :
  returns (_construct_lattice self alignments reference)
    (λ L, ∃ new,
       nodes L = nodes self ++ new
       ∧ (∀ n, n ∈ new →
            sources n ≠ ∅
            ∧ ∀ name, name ∈ sources n
                      ↔ supports alignments (position n) (word n) name)
       ∧ (∀ pos w name, supports alignments pos w name →
            ∃ n, n ∈ new ∧ position n = pos ∧ word n = w)
       ∧ NoDup ((λ n, (position n, word n)) <$> new)
       ∧ StronglySorted le (position <$> new)).
Proof.
  eapply returns_mono; [apply construct_lattice_full|].
  intros L (_ & _ & Hnodes & _).
  pose proof (group_words_grouped_ok alignments) as Hok.
  eexists. split_and!; [exact Hnodes|..].
  - intros n Hn. apply elem_of_new_nodes in Hn as (pos & w & Hne & ->); [|done].
    simpl. split; [done|]. intros name. apply group_words_stored.
  - intros pos w name Hsup. apply group_words_stored in Hsup.
    exists (node_of (length alignments) pos
              (w, stored (group_words alignments) pos w)).
    split; [|done]. apply elem_of_new_nodes; [done|].
    exists pos, w. split; [|done]. intros Hempty. rewrite Hempty in Hsup.
    by apply not_elem_of_empty in Hsup.
  - by apply new_nodes_NoDup.
  - by apply new_nodes_sorted.
Qed.

(** X9: [_construct_lattice] appends one node for each pair of a position
    and a case-folded word that some alignment supports there with an
    entry that is not a deletion; the sources of the node are exactly the
    names of the alignments that support it, no two new nodes share
    position and word, and the new nodes are listed by ascending
    position. *)
Theorem construct_lattice_nodes `{CaseFold} (self : WordLattice)
    (alignments : list (string * list aligned)) (reference : list string) :
  ∃ L new,
    _construct_lattice self alignments reference = Ok L
    ∧ nodes L = nodes self ++ new
    ∧ (∀ n, n ∈ new →
         sources n ≠ ∅
         ∧ ∀ name, name ∈ sources n
                   ↔ supports alignments (position n) (word n) name)
    ∧ (∀ pos w name, supports alignments pos w name →
         ∃ n, n ∈ new ∧ position n = pos ∧ word n = w)
    ∧ NoDup ((λ n, (position n, word n)) <$> new)
    ∧ StronglySorted le (position <$> new).
Proof.
  pose proof (construct_nodes_spec self alignments reference) as Hc.
  apply returns_exists in Hc as (L & HL & new & Hc). by exists L, new.
Qed.

(** ** [_construct_lattice]: the edges *)

Lemma sorted_lookup_lt (l : list nat) i j a b :
  StronglySorted lt l → l !! i = Some a → l !! j = Some b → i < j → a < b.
Proof.
  intros Hsorted. revert i j.
  induction Hsorted as [|x l _ IH Hx]; intros i j Ha Hb Hij; [done|].
  destruct j as [|j]; [lia|]. simpl in Hb.
  destruct i as [|i]; simpl in Ha.
  - simplify_eq. rewrite Forall_forall in Hx.
    apply Hx. by eapply list_elem_of_lookup_2.
  - apply (IH i j); [done|done|lia].
Qed.

Lemma elem_of_new_edges total pw positions e :
  e ∈ new_edges total pw positions
  ↔ ∃ i pos next entry,
      positions !! i = Some pos ∧ positions !! S i = Some next
      ∧ entry ∈ dd_get [] pos pw ∧ e = edge_of total pos next entry.
Proof.
  unfold new_edges. rewrite list_elem_of_bind. split.
  - intros ([i pos] & He & Hip). simpl in He.
    apply elem_of_lookup_imap_1 in Hip as (i' & pos' & [= -> ->] & Hpos).
    destruct (i' <? length positions - 1) eqn:Hi;
      [|by apply not_elem_of_nil in He].
    apply Nat.ltb_lt in Hi.
    destruct (lookup_lt_is_Some_2 positions (S i')) as [next Hnext]; [lia|].
    apply list_elem_of_fmap in He as (entry & -> & Hentry).
    exists i', pos', next, entry. split_and!; [done|done|done|].
    by rewrite Nat.add_1_r, Hnext.
  - intros (i & pos & next & entry & Hpos & Hnext & Hentry & ->).
    exists (i, pos). split.
    + simpl. pose proof (lookup_lt_Some _ _ _ Hnext) as Hlt.
      destruct (Nat.ltb_spec i (length positions - 1)) as [_|?]; [|lia].
      apply list_elem_of_fmap. exists entry. split; [|done].
      by rewrite Nat.add_1_r, Hnext.
    + by apply (elem_of_lookup_imap_2 (λ i pos, (i, pos))).
Qed.

Section NewEdges.
Variable total : nat.
Variable pw : list (nat * list (string * gset string)).
Hypothesis pw_ok : grouped_ok pw.

Lemma entry_new_node pos entry :
  pos ∈ merge_sort (≤) (dict_keys pw) → entry ∈ dd_get [] pos pw →
  node_of total pos entry
  ∈ new_nodes total pw (merge_sort (≤) (dict_keys pw)).
Proof.
  intros Hpos Hentry. unfold new_nodes. apply list_elem_of_bind.
  exists pos. split; [|done]. apply list_elem_of_fmap. by exists entry.
Qed.

Lemma new_node_position n :
  n ∈ new_nodes total pw (merge_sort (≤) (dict_keys pw)) →
  position n ∈ merge_sort (≤) (dict_keys pw)
  ∧ ∃ entry, entry ∈ dd_get [] (position n) pw
             ∧ n = node_of total (position n) entry.
Proof.
  unfold new_nodes. intros Hn.
  apply list_elem_of_bind in Hn as (pos & Hn & Hpos).
  apply list_elem_of_fmap in Hn as (entry & -> & Hentry). simpl.
  split; [done|]. by exists entry.
Qed.

Lemma position_occupied pos :
  pos ∈ merge_sort (≤) (dict_keys pw) →
  ∃ entry, entry ∈ dd_get [] pos pw.
Proof.
  destruct pw_ok as [Hnd _].
  destruct (sorted_keys_spec _ Hnd) as [_ Hin].
  intros Hpos. apply Hin, grouped_keys in Hpos as [w Hw]; [|done].
  exists (w, stored pw pos w). by apply grouped_entry.
Qed.

(** Every edge leaves a new node for the next occupied position, and
    every new node below another one has its edge. *)
Lemma new_edges_spec :
  let new := new_nodes total pw (merge_sort (≤) (dict_keys pw)) in
  (∀ e, e ∈ new_edges total pw (merge_sort (≤) (dict_keys pw)) →
     ∃ n, n ∈ new
          ∧ start_pos e = position n ∧ edge_word e = word n
          ∧ edge_sources e = sources n
          ∧ weight e = (1 - confidence n)%Q
          ∧ start_pos e < end_pos e
          ∧ (∃ n', n' ∈ new ∧ position n' = end_pos e)
          ∧ ∀ n', n' ∈ new →
              ¬ (start_pos e < position n' ∧ position n' < end_pos e))
  ∧ (∀ n n', n ∈ new → n' ∈ new → position n < position n' →
       ∃ e, e ∈ new_edges total pw (merge_sort (≤) (dict_keys pw))
            ∧ start_pos e = position n ∧ edge_word e = word n).
Proof.
  intros new.
  destruct pw_ok as [Hnd _].
  destruct (sorted_keys_spec _ Hnd) as [Hsorted _].
  set (positions := merge_sort (≤) (dict_keys pw)) in *.
  split.
  - intros e He.
    apply elem_of_new_edges
      in He as (i & pos & next & entry & Hpos & Hnext & Hentry & ->).
    exists (node_of total pos entry). simpl.
    split_and!; [|done|done|done|done| | |].
    + apply entry_new_node; [|done]. by eapply list_elem_of_lookup_2.
    + apply (sorted_lookup_lt positions i (S i)); [done|done|done|lia].
    + destruct (position_occupied next) as [entry' Hentry'].
      { by eapply list_elem_of_lookup_2. }
      exists (node_of total next entry'). split; [|done].
      apply entry_new_node; [|done]. by eapply list_elem_of_lookup_2.
    + intros n' Hn' [Hlo Hhi].
      apply new_node_position in Hn' as [Hp' _].
      apply list_elem_of_lookup in Hp' as [k Hk]. fold positions in Hk.
      simpl in Hlo, Hhi.
      destruct (decide (k ≤ i)) as [Hki|Hki].
      * destruct (decide (k = i)) as [->|Hne].
        { rewrite Hpos in Hk. injection Hk as Hk. lia. }
        pose proof (sorted_lookup_lt positions k i _ _ Hsorted Hk Hpos).
        lia.
      * destruct (decide (k = S i)) as [->|Hne].
        { rewrite Hnext in Hk. injection Hk as Hk. lia. }
        pose proof (sorted_lookup_lt positions (S i) k _ _ Hsorted Hnext Hk).
        lia.
  - intros n n' Hn Hn' Hlt.
    apply new_node_position in Hn as (Hp & entry & Hentry & Heq).
    assert (Hword : word n = entry.1) by (by rewrite Heq).
    apply new_node_position in Hn' as (Hp' & _). simpl in *.
    apply list_elem_of_lookup in Hp as [i Hi].
    apply list_elem_of_lookup in Hp' as [j Hj].
    fold positions in Hi, Hj.
    assert (Hij : i < j).
    { destruct (decide (i < j)) as [?|Hge]; [done|]. exfalso.
      destruct (decide (j = i)) as [->|Hne].
      { rewrite Hi in Hj. injection Hj as Hj. lia. }
      pose proof (sorted_lookup_lt positions j i _ _ Hsorted Hj Hi).
      lia. }
    destruct (lookup_lt_is_Some_2 positions (S i)) as [next Hnext].
    { apply lookup_lt_Some in Hj. lia. }
    exists (edge_of total (position n) next entry). split; [|done].
    apply elem_of_new_edges. by exists i, (position n), next, entry.
Qed.
End NewEdges.

(** X10: [_construct_lattice] keeps the alignment unit and the paths,
    and appends edges as follows.  Every new edge leaves a new node, with
    the word and the sources of that node and the weight one minus its
    confidence, for the next position that holds a new node; and every new
    node that is not at the last position has such an edge. *)
Theorem construct_lattice_edges `{CaseFold} (self : WordLattice)
    (alignments : list (string * list aligned)) (reference : list string) :
  ∃ L new new_e,
    _construct_lattice self alignments reference = Ok L
    ∧ alignment_unit L = alignment_unit self
    ∧ paths L = paths self
    ∧ nodes L = nodes self ++ new
    ∧ edges L = edges self ++ new_e
    ∧ (∀ e, e ∈ new_e →
         ∃ n, n ∈ new
              ∧ start_pos e = position n ∧ edge_word e = word n
              ∧ edge_sources e = sources n
              ∧ weight e = (1 - confidence n)%Q
              ∧ start_pos e < end_pos e
              ∧ (∃ n', n' ∈ new ∧ position n' = end_pos e)
              ∧ ∀ n', n' ∈ new →
                  ¬ (start_pos e < position n' ∧ position n' < end_pos e))
    ∧ (∀ n n', n ∈ new → n' ∈ new → position n < position n' →
         ∃ e, e ∈ new_e ∧ start_pos e = position n ∧ edge_word e = word n).
Proof.
  pose proof (construct_lattice_full self alignments reference) as Hc.
  apply returns_exists in Hc as (L & HL & Hau & Hpaths & Hnodes & Hedges).
  pose proof (new_edges_spec (length alignments) (group_words alignments)
                (group_words_grouped_ok alignments)) as [He Hn].
  eexists L, _, _. split_and!; [done|done|done|exact Hnodes|exact Hedges|..].
  - exact He.
  - exact Hn.
Qed.

(** ** [max] with a key: the first greatest element *)

Lemma max_from_first {A} (f : A → nat) (key : A → result nat)
    (xs pre mid : list A) (best : A) :
  Forall (λ x, key x = Ok (f x)) xs →
  Forall (λ x, f x < f best) pre →
  Forall (λ x, f x ≤ f best) mid →
  ∃ r, max_from nat_gt key xs best (f best) = Ok r
       ∧ first_max f (pre ++ best :: mid ++ xs) r.
Proof.
  revert pre mid best.
  induction xs as [|x xs IH]; intros pre mid best Hkey Hpre Hmid.
  { exists best. split; [done|]. exists pre, mid. by rewrite app_nil_r. }
  apply Forall_cons in Hkey as [Hx Hkey]. simpl. rewrite Hx. simpl.
  unfold nat_gt at 1. destruct (Nat.ltb_spec (f best) (f x)) as [Hlt|Hge].
  - destruct (IH (pre ++ best :: mid) [] x) as (r & Hr & Hfirst);
      [done| |constructor|].
    { apply Forall_app. split.
      - eapply Forall_impl; [exact Hpre|]. simpl. lia.
      - constructor; [done|]. eapply Forall_impl; [exact Hmid|]. simpl. lia. }
    exists r. split; [done|]. simpl in Hfirst.
    by rewrite <-app_assoc in Hfirst.
  - destruct (IH pre (mid ++ [x]) best) as (r & Hr & Hfirst); [done|done| |].
    { apply Forall_app. split; [done|]. by repeat constructor. }
    exists r. split; [done|]. by rewrite <-app_assoc in Hfirst.
Qed.

Lemma py_max_first {A} (f : A → nat) (key : A → result nat) (xs : list A) :
  xs ≠ [] →
  Forall (λ x, key x = Ok (f x)) xs →
  ∃ r, py_max nat_gt key xs = Ok r ∧ first_max f xs r.
Proof.
  intros Hne Hkey. destruct xs as [|x xs]; [done|].
  apply Forall_cons in Hkey as [Hx Hkey]. simpl. rewrite Hx. simpl.
  destruct (max_from_first f key xs [] [] x) as (r & Hr & Hfirst);
    [done|constructor|constructor|].
  by exists r.
Qed.

Lemma first_max_fmap {A B} (g : A → B) (f : B → nat) (l : list A) (r : B) :
  first_max f (g <$> l) r → ∃ a, r = g a ∧ first_max (f ∘ g) l a.
Proof.
  intros (pre & post & Heq & Hpre & Hpost).
  apply fmap_app_inv in Heq as (lpre & l2 & -> & Hl2 & ->).
  symmetry in Hl2.
  apply fmap_cons_inv in Hl2 as (a & lpost & -> & -> & ->).
  exists a. split; [done|]. exists lpre, lpost. split; [done|].
  by rewrite !Forall_fmap in Hpre, Hpost.
Qed.

Lemma first_max_elem_of {A} (f : A → nat) (l : list A) (r : A) :
  first_max f l r → r ∈ l ∧ Forall (λ x, f x ≤ f r) l.
Proof.
  intros (pre & post & -> & Hpre & Hpost). split.
  - apply elem_of_app. right. by left.
  - apply Forall_app. split.
    + eapply Forall_impl; [exact Hpre|]. simpl. lia.
    + by constructor.
Qed.

Lemma first_max_unique {A} (f : A → nat) (l : list A) (r r' : A) :
  first_max f l r → first_max f l r' → r = r'.
Proof.
  intros (pre & post & -> & Hpre & Hpost) (pre' & post' & Heq & Hpre' & Hpost').
  assert (Hlen : length pre = length pre').
  { destruct (Nat.lt_trichotomy (length pre) (length pre'))
      as [Hlt|[?|Hlt]]; [|done|]; exfalso.
    - assert (Hr : pre' !! length pre = Some r).
      { rewrite <-(lookup_app_l _ (r' :: post')) by done.
        rewrite <-Heq. by rewrite list_lookup_middle. }
      rewrite Forall_forall in Hpre'.
      apply list_elem_of_lookup_2 in Hr. specialize (Hpre' _ Hr).
      assert (Hr' : (pre ++ r :: post) !! length pre' = Some r').
      { rewrite Heq. by rewrite list_lookup_middle. }
      rewrite lookup_app_r in Hr' by lia.
      destruct (length pre' - length pre) as [|d] eqn:Hd; [lia|].
      simpl in Hr'. apply list_elem_of_lookup_2 in Hr'.
      rewrite Forall_forall in Hpost. specialize (Hpost _ Hr'). lia.
    - assert (Hr : pre !! length pre' = Some r').
      { rewrite <-(lookup_app_l _ (r :: post)) by done.
        rewrite Heq. by rewrite list_lookup_middle. }
      rewrite Forall_forall in Hpre.
      apply list_elem_of_lookup_2 in Hr. specialize (Hpre _ Hr).
      assert (Hr' : (pre' ++ r' :: post') !! length pre = Some r).
      { rewrite <-Heq. by rewrite list_lookup_middle. }
      rewrite lookup_app_r in Hr' by lia.
      destruct (length pre - length pre') as [|d] eqn:Hd; [lia|].
      simpl in Hr'. apply list_elem_of_lookup_2 in Hr'.
      rewrite Forall_forall in Hpost'. specialize (Hpost' _ Hr'). lia. }
  assert (Hr : (pre ++ r :: post) !! length pre = Some r)
    by (by rewrite list_lookup_middle).
  rewrite Heq, Hlen, list_lookup_middle in Hr by done. by injection Hr.
Qed.

(** ** [_voting_consensus]: the word with most sources wins *)

Lemma voting_first_max (ns : list LatticeNode) (ps : list nat) :
  (∀ p, p ∈ ps → ∃ n, n ∈ ns ∧ position n = p) →
  returns
    (pick_best nat_gt (group_nodes (λ n, (word n, size (sources n))) [] ns)
       ps [])
    (Forall2 (λ p w,
       ∃ n, first_max (λ n, size (sources n))
              (filter (λ n, position n = p) ns) n
            ∧ word n = w) ps).
Proof.
  intros Hps. unfold pick_best.
  apply (returns_for_each (λ pre s,
    Forall2 (λ p w,
       ∃ n, first_max (λ n, size (sources n))
              (filter (λ n, position n = p) ns) n
            ∧ word n = w) pre s)).
  { constructor. }
  intros pre p rest s Heq Hs. simpl.
  rewrite group_nodes_get. simpl.
  destruct (Hps p) as (n0 & Hn0 & Hp0).
  { rewrite Heq. apply elem_of_app. right. apply elem_of_cons. by left. }
  destruct (py_max_first snd (λ x : string * nat, Ok x.2)
              ((λ n, (word n, size (sources n)))
                 <$> filter (λ n, position n = p) ns))
    as (r & -> & Hfirst).
  { intros Hnil. apply fmap_nil_inv in Hnil.
    assert (Hin : n0 ∈ filter (λ n, position n = p) ns)
      by (by apply list_elem_of_filter).
    rewrite Hnil in Hin. by apply not_elem_of_nil in Hin. }
  { by apply Forall_forall. }
  simpl. apply first_max_fmap in Hfirst as (n & -> & Hfirst).
  apply Forall2_app; [done|]. constructor; [|constructor]. by exists n.
Qed.

(** X11: on any lattice the voting consensus has, for each occupied
    position in ascending order, the word of the node with the most
    sources among the nodes at the position; among several such nodes the
    first in the node list wins. *)
Theorem voting_picks_most_sources (L : WordLattice) :
  ∃ ws ps,
    (get_consensus_transcription L "voting").2 = Ok ws
    ∧ StronglySorted lt ps
    ∧ (∀ p, p ∈ ps ↔ ∃ n, n ∈ nodes L ∧ position n = p)
    ∧ Forall2 (λ p w,
        ∃ n, first_max (λ n, size (sources n))
               (filter (λ n, position n = p) (nodes L)) n
             ∧ word n = w) ps ws.
Proof.
  destruct (consensus_spec nat_gt (λ n, size (sources n)) (nodes L))
    as (Hsorted & Hps & _).
  set (ps := merge_sort (≤) (dict_keys (group_nodes
               (λ n, (word n, size (sources n))) [] (nodes L)))) in *.
  pose proof (voting_first_max (nodes L) ps) as Hret.
  apply returns_exists in Hret as (ws & Hws & Hall).
  - by exists ws, ps.
  - intros p Hp. by apply Hps.
Qed.

(** ** [_align_all_sequences]: the anchor and the alignments *)

Lemma first_max_ext {A} (f g : A → nat) (l : list A) (r : A) :
  (∀ x, x ∈ l → f x = g x) → first_max f l r → first_max g l r.
Proof.
  intros Hext (pre & post & -> & Hpre & Hpost).
  assert (Hr : f r = g r).
  { apply Hext. apply elem_of_app. right. by left. }
  exists pre, post. split; [done|]. rewrite <-Hr. split.
  - apply Forall_forall. intros x Hx. rewrite <-Hext.
    + rewrite Forall_forall in Hpre. by apply Hpre.
    + apply elem_of_app. by left.
  - apply Forall_forall. intros x Hx. rewrite <-Hext.
    + rewrite Forall_forall in Hpost. by apply Hpost.
    + apply elem_of_app. right. by right.
Qed.

Section AlignAllFull.
Context `{CaseFold}.

Lemma align_all_sequences_full hypotheses reference :
  NoDup (dict_keys hypotheses) →
  returns (_align_all_sequences hypotheses reference)
    (λ alignments, ∃ anchor_name anchor_seq,
       first_max (λ e, length e.2)
         (dict_set "reference" reference hypotheses)
         (anchor_name, anchor_seq)
       ∧ Forall2 (aligned_to anchor_name anchor_seq)
           (dict_set "reference" reference hypotheses) alignments).
Proof.
  intros Hnd. unfold _align_all_sequences.
  set (all_sequences := dict_set "reference" reference hypotheses).
  assert (Hnd' : NoDup (dict_keys all_sequences))
    by (by apply dict_keys_set_NoDup).
  assert (Hne : dict_keys all_sequences ≠ []).
  { intros Hnil. unfold dict_keys in Hnil. apply fmap_nil_inv in Hnil.
    by apply dict_set_not_nil in Hnil. }
  destruct (py_max_first
              (λ k, length (default [] (dict_get k all_sequences)))
              (λ k, s ← dict_getitem k all_sequences; Ok (length s))
              (dict_keys all_sequences) Hne) as (r & -> & Hfirst).
  { apply Forall_forall. intros k Hk.
    apply dict_get_is_Some in Hk as [s Hs].
    unfold dict_getitem. by rewrite Hs. }
  simpl. apply first_max_fmap in Hfirst as ([anchor_name anchor_seq] & -> & Hfirst).
  assert (Hfirst' : first_max (λ e, length e.2) all_sequences
                      (anchor_name, anchor_seq)).
  { eapply first_max_ext; [|exact Hfirst].
    intros [k s] Hin. simpl. by rewrite (dict_get_NoDup k s). }
  clear Hfirst. pose proof (first_max_elem_of _ _ _ Hfirst') as [Hanchor _].
  simpl. unfold dict_getitem.
  rewrite (dict_get_NoDup anchor_name anchor_seq) by done. simpl.
  eapply returns_mono.
  { apply (returns_for_each (λ pre alignments,
      Forall2 (aligned_to anchor_name anchor_seq) pre alignments));
      [constructor|].
    intros pre [name s] rest alignments Heq Hpre.
    assert (Hset : ∀ al,
              aligned_to anchor_name anchor_seq (name, s) (name, al) →
              Forall2 (aligned_to anchor_name anchor_seq)
                (pre ++ [(name, s)]) (dict_set name al alignments)).
    { intros al Hal. rewrite dict_set_fresh.
      - apply Forall2_app; [done|]. constructor; [done|constructor].
      - assert (Hkeys : dict_keys alignments = dict_keys pre).
        { unfold dict_keys. clear -Hpre.
          induction Hpre as [|e o pre alignments [Ho _] _ IH]; [done|].
          csimpl. by rewrite Ho, IH. }
        rewrite Hkeys. unfold dict_keys in *.
        rewrite Heq, fmap_app in Hnd'. csimpl in Hnd'.
        apply NoDup_app in Hnd' as (_ & Hnot & _).
        intros Hin. apply (Hnot name Hin). by left. }
    case_decide as Hname.
    - simpl. apply Hset. split; [done|]. simpl. by rewrite decide_True.
    - apply returns_bind.
      eapply returns_mono; [apply align_pair_path|].
      intros al Hal. simpl. apply Hset. split; [done|]. simpl.
      by rewrite decide_False. }
  simpl. intros alignments Hall. by exists anchor_name, anchor_seq.
Qed.
End AlignAllFull.

(** ** The lattice of [build_from_hypotheses] in terms of the sequences *)


Lemma filter_Forall_id {A} (P : A → Prop) `{!∀ x, Decision (P x)}
    (l : list A) :
  Forall P l → filter P l = l.
Proof.
  induction 1 as [|x l Hx _ IH]; [done|].
  by rewrite filter_cons, decide_True, IH.
Qed.


Section Sequences.
Context `{CaseFold}.
Variables (all_sequences : list (string * list string))
          (alignments : list (string * list aligned))
          (anchor_name : string) (anchor_seq : list string).
Hypothesis all_NoDup : NoDup (dict_keys all_sequences).
Hypothesis anchor_first :
  first_max (λ e, length e.2) all_sequences (anchor_name, anchor_seq).
Hypothesis all_aligned :
  Forall2 (aligned_to anchor_name anchor_seq) all_sequences alignments.

Lemma aligned_of_sequence name s :
  (name, s) ∈ all_sequences →
  ∃ al, (name, al) ∈ alignments
        ∧ aligned_to anchor_name anchor_seq (name, s) (name, al).
Proof.
  intros Hin. apply list_elem_of_lookup in Hin as [k Hk].
  destruct (Forall2_lookup_l _ _ _ _ _ all_aligned Hk)
    as ([name' al] & Hal & Hto).
  pose proof Hto as [Hname _]. simpl in Hname. subst name'.
  exists al. split; [|done]. by eapply list_elem_of_lookup_2.
Qed.

Lemma sequence_of_aligned name al :
  (name, al) ∈ alignments →
  ∃ s, (name, s) ∈ all_sequences
       ∧ aligned_to anchor_name anchor_seq (name, s) (name, al).
Proof.
  intros Hin. apply list_elem_of_lookup in Hin as [k Hk].
  destruct (Forall2_lookup_r _ _ _ _ _ all_aligned Hk)
    as ([name' s] & Hs & Hto).
  pose proof Hto as [Hname _]. simpl in Hname. subst name'.
  exists s. split; [|done]. by eapply list_elem_of_lookup_2.
Qed.

Lemma anchor_in : (anchor_name, anchor_seq) ∈ all_sequences.
Proof. by apply first_max_elem_of in anchor_first as [? _]. Qed.

Lemma anchor_longest name s :
  (name, s) ∈ all_sequences → length s ≤ length anchor_seq.
Proof.
  intros Hin. apply first_max_elem_of in anchor_first as [_ Hle].
  rewrite Forall_forall in Hle. apply (Hle _ Hin).
Qed.

Lemma anchor_unique s : (anchor_name, s) ∈ all_sequences → s = anchor_seq.
Proof.
  intros Hin. pose proof anchor_in as Hin'.
  apply (dict_get_NoDup _ _ _ all_NoDup) in Hin, Hin'. congruence.
Qed.

(** The tokens of a sequence, read back from its alignment. *)
Lemma aligned_to_words name s al :
  aligned_to anchor_name anchor_seq (name, s) (name, al) →
  (λ e : aligned, e.1.2) <$> filter (λ e : aligned, e.2 ≠ op_delete) al = s.
Proof.
  intros [_ Hal]. simpl in Hal. case_decide.
  - subst al. rewrite filter_Forall_id.
    + rewrite fmap_imap, (imap_ext _ (const id)) by done.
      by rewrite imap_const, list_fmap_id.
    + apply Forall_forall. intros e He.
      by apply elem_of_lookup_imap_1 in He as (i & w & -> & _).
  - apply path_words in Hal. by rewrite firstn_all in Hal.
Qed.

(** Entries other than deletions lie below the length of the anchor. *)
Lemma aligned_to_position name s al pos w op :
  (name, s) ∈ all_sequences →
  aligned_to anchor_name anchor_seq (name, s) (name, al) →
  (pos, w, op) ∈ al → op ≠ op_delete → pos < length anchor_seq.
Proof.
  intros Hin [_ Hal] He Hop. simpl in Hal.
  pose proof (anchor_longest _ _ Hin) as Hlen. case_decide.
  - subst al. apply elem_of_lookup_imap_1 in He as (i & w' & [= -> -> ->] & Hi).
    apply lookup_lt_Some in Hi. lia.
  - apply path_entries in Hal. rewrite Forall_forall in Hal.
    specialize (Hal _ He). unfold entry_ok in Hal. simpl in Hal.
    destruct op; [done| | |done|].
    + destruct Hal as (x & Hx & _). by apply lookup_lt_Some in Hx.
    + destruct Hal as (x & Hx & _). by apply lookup_lt_Some in Hx.
    + apply lookup_lt_Some in Hal. lia.
Qed.



End Sequences.


(** X12: for hypotheses with distinct names, [_align_all_sequences]
    returns one alignment per sequence under the names of the sequences.
    The anchor is the first longest sequence; its alignment is all
    matches at its own indices.  The tokens of every sequence can be read
    back from its alignment, and every entry that is not a deletion has a
    position below the length of the anchor. *)
Theorem align_all_round_trip `{CaseFold}
    (hypotheses : list (string * list string)) (reference : list string) :
  NoDup (dict_keys hypotheses) →
  ∃ alignments anchor_name anchor_seq,
    _align_all_sequences hypotheses reference = Ok alignments
    ∧ dict_keys alignments
      = dict_keys (dict_set "reference" reference hypotheses)
    ∧ first_max (λ e, length e.2)
        (dict_set "reference" reference hypotheses)
        (anchor_name, anchor_seq)
    ∧ dict_get anchor_name alignments
      = Some (imap (λ i w, (i, w, op_match)) anchor_seq)
    ∧ ∀ name s,
        (name, s) ∈ dict_set "reference" reference hypotheses →
        ∃ alignment,
          dict_get name alignments = Some alignment
          ∧ (λ e : aligned, e.1.2)
              <$> filter (λ e : aligned, e.2 ≠ op_delete) alignment
            = s
          ∧ ∀ pos w op, (pos, w, op) ∈ alignment → op ≠ op_delete →
              pos < length anchor_seq.
Proof.
  intros Hnd.
  pose proof (align_all_sequences_full hypotheses reference Hnd) as Hal.
  apply returns_exists
    in Hal as (alignments & Hal & anchor_name & anchor_seq & Hfirst & Hall).
  pose proof (align_all_sequences_spec hypotheses reference) as Hkeys.
  rewrite Hal in Hkeys. simpl in Hkeys. specialize (Hkeys Hnd).
  assert (Hnd' : NoDup (dict_keys alignments)).
  { rewrite Hkeys. by apply dict_keys_set_NoDup. }
  exists alignments, anchor_name, anchor_seq.
  split_and!; [done|done|done| |].
  - destruct (aligned_of_sequence _ _ _ _ Hall anchor_name anchor_seq)
      as (al & Hin & _ & Hto).
    { by apply first_max_elem_of in Hfirst as [? _]. }
    simpl in Hto. rewrite decide_True in Hto by done. subst al.
    by apply dict_get_NoDup.
  - intros name s Hin.
    destruct (aligned_of_sequence _ _ _ _ Hall name s Hin)
      as (al & Hal_in & Hto).
    exists al. split_and!.
    + by apply dict_get_NoDup.
    + by eapply aligned_to_words.
    + intros pos w op He Hop.
      by eapply (aligned_to_position _ anchor_name anchor_seq Hfirst).
Qed.

Lemma align_all_round_trip_witness :
  ∃ alignments anchor_name anchor_seq,
    _align_all_sequences [("m1", ["a"; "b"; "c"]); ("m2", ["a"])] ["a"; "b"]
    = Ok alignments
    ∧ dict_keys alignments = ["m1"; "m2"; "reference"]
    ∧ first_max (λ e, length e.2)
        [("m1", ["a"; "b"; "c"]); ("m2", ["a"]); ("reference", ["a"; "b"])]
        (anchor_name, anchor_seq)
    ∧ dict_get anchor_name alignments
      = Some (imap (λ i w, (i, w, op_match)) anchor_seq)
    ∧ ∀ name s,
        (name, s) ∈ [("m1", ["a"; "b"; "c"]); ("m2", ["a"]);
                     ("reference", ["a"; "b"])] →
        ∃ alignment,
          dict_get name alignments = Some alignment
          ∧ (λ e : aligned, e.1.2)
              <$> filter (λ e : aligned, e.2 ≠ op_delete) alignment
            = s
          ∧ ∀ pos w op, (pos, w, op) ∈ alignment → op ≠ op_delete →
              pos < length anchor_seq.
Proof.
  apply (align_all_round_trip [("m1", ["a"; "b"; "c"]); ("m2", ["a"])]
           ["a"; "b"]).
  apply (bool_decide_unpack _). vm_compute. exact I.
Defined.






(** ** Sequences that agree up to case *)

Lemma elem_of_dict_set {K V} `{EqDecision K} (k k' : K) (v v' : V)
    (d : list (K * V)) :
  (k, v) ∈ dict_set k' v' d → (k = k' ∧ v = v') ∨ (k, v) ∈ d.
Proof.
  induction d as [|[k0 v0] d IH]; simpl.
  - intros Hin. apply list_elem_of_singleton in Hin. left. by simplify_eq.
  - case_decide; subst; rewrite !elem_of_cons.
    + intros [?|?]; [left; by simplify_eq|right; by right].
    + intros [?|?]; [right; by left|].
      destruct IH as [?|?]; [done|by left|right; by right].
Qed.

Lemma Forall2_seq_lookup {A} (l ws : list A) :
  Forall2 (λ p w, l !! p = Some w) (seq 0 (length l)) ws → ws = l.
Proof.
  intros Hall. pose proof (Forall2_length _ _ _ Hall) as Hlen.
  rewrite length_seq in Hlen.
  apply list_eq. intros i.
  destruct (decide (i < length l)) as [Hi|Hi].
  - destruct (Forall2_lookup_l _ _ _ i i Hall) as (w & -> & Hw); [|done].
    by rewrite lookup_seq_lt.
  - rewrite !lookup_ge_None_2 by lia. done.
Qed.

Lemma sorted_positions_seq (ps : list nat) (M : nat) :
  StronglySorted lt ps → (∀ p, p ∈ ps ↔ p < M) → ps = seq 0 M.
Proof.
  intros Hsorted Hps.
  apply (StronglySorted_unique_strong lt).
  - intros; lia.
  - done.
  - clear. generalize 0. induction M as [|M IH]; intros k; simpl;
      constructor; [apply IH|].
    apply Forall_forall. intros p Hp. apply elem_of_seq in Hp. lia.
  - apply NoDup_Permutation;
      [by apply StronglySorted_lt_NoDup|apply NoDup_seq|].
    intros p. rewrite Hps, elem_of_seq. lia.
Qed.

Section Unanimous.
Context `{CaseFold}.
Variables sa sb : list string.
Hypothesis same_lower : lower <$> sa = lower <$> sb.

Lemma unanimous_cell i :
  i < length sa → dp_cell sa sb (S i) (S i) = (0, op_match).
Proof.
  intros Hi. rewrite <-dp_cell_lower, <-same_lower.
  apply identity_cell. by rewrite length_fmap.
Qed.

Lemma path_unanimous i j al :
  path sa sb i j al → i = j → i ≤ length sa →
  al = imap (λ k w, (k, w, op_match)) (take i sb).
Proof.
  induction 1 as [|i j x w o al Ho Hm Hx Hw Hp IH|i j w al Ho Hw Hp IH
                  |i j w al Ho Hw Hp IH]; intros Hij Hi; [done|..].
  - assert (i = j) as <- by lia.
    rewrite unanimous_cell in Ho by lia. simpl in Ho. subst o.
    rewrite (take_S_r _ _ w) by done. rewrite imap_app. simpl.
    rewrite <-IH by lia. rewrite length_take.
    apply lookup_lt_Some in Hw.
    by replace (i `min` length sb + 0) with i by lia.
  - subst j. by rewrite unanimous_cell in Ho by lia.
  - subst i. by rewrite unanimous_cell in Ho by lia.
Qed.
End Unanimous.

Lemma build_unanimous `{CaseFold} (self : WordLattice)
    (hypotheses : list (string * list string)) (reference : list string) :
  NoDup (dict_keys hypotheses) →
  (∀ name h, (name, h) ∈ hypotheses → lower <$> h = lower <$> reference) →
  returns (build_from_hypotheses self hypotheses reference)
    (λ L, ∃ new,
       nodes L = nodes self ++ new
       ∧ (∀ n, n ∈ new →
            (lower <$> reference) !! position n = Some (word n)
            ∧ ∀ name, name ∈ sources n
                      ↔ name ∈ dict_keys (dict_set "reference" reference
                                            hypotheses))
       ∧ ∀ p, p < length reference → ∃ n, n ∈ new ∧ position n = p).
Proof.
  intros Hnd Hsame. unfold build_from_hypotheses.
  pose proof (align_all_sequences_full hypotheses reference Hnd) as Hal.
  apply returns_exists
    in Hal as (alignments & -> & anchor_name & anchor_seq & Hfirst & Hall).
  simpl.
  set (all_sequences := dict_set "reference" reference hypotheses) in *.
  assert (Hlow : ∀ name s, (name, s) ∈ all_sequences →
            lower <$> s = lower <$> reference).
  { intros name s Hin. apply elem_of_dict_set in Hin as [[_ ->]|Hin];
      [done|by eapply Hsame]. }
  pose proof (first_max_elem_of _ _ _ Hfirst) as [Hanchor _].
  pose proof (Hlow _ _ Hanchor) as Hlow_anchor.
  assert (Hal : ∀ name s al,
            (name, s) ∈ all_sequences →
            aligned_to anchor_name anchor_seq (name, s) (name, al) →
            al = imap (λ k w, (k, w, op_match)) s).
  { intros name s al Hin [_ Hto]. simpl in Hto. case_decide; [done|].
    pose proof (Hlow _ _ Hin) as Hs.
    assert (Hlen : length anchor_seq = length s).
    { rewrite <-(length_fmap lower anchor_seq), Hlow_anchor, <-Hs.
      by rewrite length_fmap. }
    apply (path_unanimous anchor_seq s) in Hto; [|congruence|lia|lia].
    by rewrite Hlen, firstn_all in Hto. }
  assert (Hsup : ∀ pos w name,
            supports alignments pos w name
            ↔ (lower <$> reference) !! pos = Some w
              ∧ name ∈ dict_keys all_sequences).
  { intros pos w name. split.
    - intros (al & w' & op & Hin & He & Hop & Hw).
      destruct (sequence_of_aligned _ _ _ _ Hall _ _ Hin) as (s & Hs & Hto).
      rewrite (Hal _ _ _ Hs Hto) in He.
      apply elem_of_lookup_imap_1 in He as (i & y & [= -> -> ->] & Hy).
      split.
      + rewrite <-(Hlow _ _ Hs), list_lookup_fmap, Hy. simpl. by rewrite Hw.
      + apply list_elem_of_fmap. by exists (name, s).
    - intros [Hw Hname].
      apply list_elem_of_fmap in Hname as ([name' s] & -> & Hs). simpl.
      destruct (aligned_of_sequence _ _ _ _ Hall _ _ Hs) as (al & Hin & Hto).
      rewrite <-(Hlow _ _ Hs), list_lookup_fmap in Hw.
      destruct (s !! pos) as [w'|] eqn:Hw'; simpl in Hw; [|done].
      exists al, w', op_match. split_and!; [done| |done|congruence].
      rewrite (Hal _ _ _ Hs Hto).
      by apply (elem_of_lookup_imap_2 (λ i w, (i, w, op_match))). }
  eapply returns_mono; [apply construct_nodes_spec|].
  intros L (new & Hnodes & Hsrc & Hex & _ & _).
  exists new. split_and!; [done| |].
  - intros n Hn. destruct (Hsrc n Hn) as [Hne Hiff].
    apply set_choose_L in Hne as [name0 Hname0].
    apply Hiff, Hsup in Hname0 as [Hw _]. split; [done|].
    intros name. rewrite Hiff, Hsup. split; [by intros [_ ?]|done].
  - intros p Hp.
    destruct (lookup_lt_is_Some_2 (lower <$> reference) p) as [w Hw];
      [by rewrite length_fmap|].
    destruct (Hex p w "reference") as (n & Hn & Hpos & _); [|by exists n].
    apply Hsup. split; [done|].
    apply dict_get_is_Some. unfold all_sequences.
    rewrite dict_get_set, decide_True by done. by eexists.
Qed.

(** X15: when every hypothesis equals the reference up to case, the
    voting consensus is the case-folded reference, and every node has the
    reference and all hypotheses as its sources. *)
Theorem unanimous_consensus `{CaseFold} (unit : string)
    (hypotheses : list (string * list string)) (reference : list string) :
  NoDup (dict_keys hypotheses) →
  (∀ name h, (name, h) ∈ hypotheses → lower <$> h = lower <$> reference) →
  ∃ L,
    build_from_hypotheses (WordLattice_init unit) hypotheses reference = Ok L
    ∧ (get_consensus_transcription L "voting").2 = Ok (lower <$> reference)
    ∧ ∀ n name, n ∈ nodes L →
        name ∈ sources n ↔ name = "reference" ∨ name ∈ dict_keys hypotheses.
Proof.
  intros Hnd Hsame.
  pose proof (build_unanimous (WordLattice_init unit) hypotheses reference
                Hnd Hsame) as Hb.
  apply returns_exists in Hb as (L & HL & new & Hnodes & Hnode & Hpos).
  simpl in Hnodes. subst new.
  exists L. split; [done|].
  destruct (consensus_spec nat_gt (λ n, size (sources n)) (nodes L))
    as (Hsorted & Hps & Hret).
  apply returns_exists in Hret as (ws & Hws & Hall).
  set (ps := merge_sort (≤) (dict_keys (group_nodes
               (λ n, (word n, size (sources n))) [] (nodes L)))) in *.
  split.
  - rewrite get_consensus_voting. simpl.
    change (_voting_consensus L = Ok ws) in Hws. rewrite Hws. f_equal.
    assert (Hseq : ps = seq 0 (length (lower <$> reference))).
    { apply sorted_positions_seq; [done|]. intros p. rewrite Hps.
      rewrite length_fmap. split; [|by apply Hpos].
      intros (n & Hn & <-). destruct (Hnode n Hn) as [Hw _].
      apply lookup_lt_Some in Hw. by rewrite length_fmap in Hw. }
    rewrite Hseq in Hall. apply Forall2_seq_lookup.
    eapply Forall2_impl; [exact Hall|].
    intros p w (n & Hn & <- & <-). by apply Hnode.
  - intros n name Hn. destruct (Hnode n Hn) as [_ ->].
    rewrite dict_keys_set. case_decide as Href.
    + split; [by right|]. by intros [-> | ?].
    + rewrite elem_of_app, list_elem_of_singleton. tauto.
Qed.

Lemma unanimous_consensus_witness :
  ∃ L,
    build_from_hypotheses (WordLattice_init "word")
      [("m1", ["The"; "cat"]); ("m2", ["the"; "CAT"])] ["the"; "Cat"] = Ok L
    ∧ (get_consensus_transcription L "voting").2
      = Ok (lower <$> ["the"; "Cat"])
    ∧ ∀ n name, n ∈ nodes L →
        name ∈ sources n
        ↔ name = "reference"
          ∨ name ∈ dict_keys [("m1", ["The"; "cat"]); ("m2", ["the"; "CAT"])].
Proof.
  apply (unanimous_consensus "word"
           [("m1", ["The"; "cat"]); ("m2", ["the"; "CAT"])] ["the"; "Cat"]).
  - apply (bool_decide_unpack _). vm_compute. exact I.
  - intros name h Hin.
    assert (Hall : Forall (λ e : string * list string,
                             lower <$> e.2 = lower <$> ["the"; "Cat"])
                     [("m1", ["The"; "cat"]); ("m2", ["the"; "CAT"])])
      by (apply (bool_decide_unpack _); vm_compute; exact I).
    rewrite Forall_forall in Hall. apply (Hall _ Hin).
Defined.

(** ** [compute_lattice_wer] *)

Lemma Q_gt_0_minus (a b : Q) : Q_gt (a - b) 0 = true ↔ (b < a)%Q.
Proof.
  unfold Q_gt. rewrite negb_true_iff, <-not_true_iff_false, Qle_bool_iff.
  rewrite (Qlt_minus_iff b a). split.
  - intros Hnle. by apply Qnot_le_lt.
  - intros Hlt Hle. by apply (Qlt_not_le _ _ Hlt).
Qed.

Section ComputeLatticeWER.
Context `{CaseFold}.

Lemma model_result_spec reference consensus name hypothesis results :
  ∃ r, model_result reference consensus (name, hypothesis) results
       = Ok (dict_set name (ModelResult r) results)
       ∧ model_entry reference consensus hypothesis r.
Proof.
  unfold model_result.
  rewrite (compute_standard_wer_eq hypothesis reference). simpl.
  rewrite (compute_standard_wer_eq hypothesis consensus). simpl.
  eexists. split; [done|]. unfold model_entry. simpl.
  rewrite !compute_standard_wer_eq.
  split_and!; [done|done|done| |done]. apply Q_gt_0_minus.
Qed.

Lemma models_loop_spec reference consensus hypotheses :
  returns (for_each hypotheses (model_result reference consensus) [])
    (λ results,
       (∀ name, name ∈ dict_keys results ↔ name ∈ dict_keys hypotheses)
       ∧ (NoDup (dict_keys hypotheses) →
          dict_keys results = dict_keys hypotheses
          ∧ ∀ name h, (name, h) ∈ hypotheses →
              ∃ r, dict_get name results = Some (ModelResult r)
                   ∧ model_entry reference consensus h r)).
Proof.
  apply (returns_for_each (λ pre results,
    (∀ name, name ∈ dict_keys results ↔ name ∈ dict_keys pre)
    ∧ (NoDup (dict_keys hypotheses) →
       dict_keys results = dict_keys pre
       ∧ ∀ name h, (name, h) ∈ pre →
           ∃ r, dict_get name results = Some (ModelResult r)
                ∧ model_entry reference consensus h r))).
  { split; [done|]. intros _. split; [done|].
    intros name h Hin. by apply not_elem_of_nil in Hin. }
  intros pre [name h] rest results Heq [Hkeys Hinv].
  destruct (model_result_spec reference consensus name h results)
    as (r & -> & Hr).
  simpl. split.
  - intros name'.
    assert (Hpre : dict_keys (pre ++ [(name, h)]) = dict_keys pre ++ [name])
      by (unfold dict_keys; by rewrite fmap_app).
    rewrite Hpre, dict_keys_set, elem_of_app, list_elem_of_singleton, <-Hkeys.
    case_decide as Hin; [|rewrite elem_of_app, list_elem_of_singleton; tauto].
    split; [by left|]. by intros [? | ->].
  - intros Hnd. destruct (Hinv Hnd) as [Hk Hent].
    assert (Hfresh : name ∉ dict_keys pre).
    { unfold dict_keys in *. rewrite Heq, fmap_app in Hnd. csimpl in Hnd.
      apply NoDup_app in Hnd as (_ & Hnot & _).
      intros Hin. apply (Hnot name Hin). by left. }
    split.
    + rewrite dict_keys_set, decide_False by (by rewrite Hk).
      rewrite Hk. unfold dict_keys. by rewrite fmap_app.
    + intros name' h' Hin. rewrite dict_get_set.
      apply elem_of_app in Hin as [Hin|Hin].
      * rewrite decide_False; [by apply Hent|].
        intros <-. apply Hfresh. apply list_elem_of_fmap.
        by exists (name, h').
      * apply list_elem_of_singleton in Hin. simplify_eq.
        rewrite decide_True by done. by exists r.
Qed.

Lemma compute_lattice_wer_spec unit hypotheses reference threshold :
  ∃ L consensus results,
    build_from_hypotheses (WordLattice_init unit) hypotheses reference = Ok L
    ∧ _voting_consensus L = Ok consensus
    ∧ for_each hypotheses (model_result reference consensus) [] = Ok results
    ∧ compute_lattice_wer unit hypotheses reference threshold
      = Ok (dict_set "_meta"
              (Meta {| original_reference := reference;
                       consensus_transcription := consensus;
                       meta_reference_length := length reference;
                       consensus_length := length consensus;
                       meta_alignment_unit := unit;
                       trust_threshold := threshold |})
              results).
Proof.
  destruct (build_fresh unit hypotheses reference) as (L & total & HL & _).
  destruct (voting_consensus_returns L) as [consensus Hcons].
  pose proof (models_loop_spec reference consensus hypotheses) as Hloop.
  apply returns_exists in Hloop as (results & Hresults & _).
  exists L, consensus, results. split_and!; [done..|].
  unfold compute_lattice_wer. rewrite HL.
  change (Ok L ≫= ?k) with (k L). cbv beta.
  rewrite get_consensus_voting. cbn [snd]. rewrite Hcons.
  change (Ok consensus ≫= ?k) with (k consensus). cbv beta.
  by rewrite Hresults.
Qed.
End ComputeLatticeWER.

(** X16: [compute_lattice_wer] returns for every input; the result has a
    key for each hypothesis and the key ['_meta'], and under ['_meta'] it
    holds the reference, the voting consensus of the lattice built from
    the input, their lengths, the alignment unit and the threshold. *)
Theorem lattice_wer_returns `{CaseFold} (unit : string)
    (hypotheses : list (string * list string)) (reference : list string)
    (threshold : Q) :
  ∃ results L consensus,
    compute_lattice_wer unit hypotheses reference threshold = Ok results
    ∧ build_from_hypotheses (WordLattice_init unit) hypotheses reference
      = Ok L
    ∧ (get_consensus_transcription L "voting").2 = Ok consensus
    ∧ dict_get "_meta" results
      = Some (Meta {| original_reference := reference;
                      consensus_transcription := consensus;
                      meta_reference_length := length reference;
                      consensus_length := length consensus;
                      meta_alignment_unit := unit;
                      trust_threshold := threshold |})
    ∧ ∀ name, name ∈ dict_keys results
              ↔ name = "_meta" ∨ name ∈ dict_keys hypotheses.
Proof.
  destruct (compute_lattice_wer_spec unit hypotheses reference threshold)
    as (L & consensus & results & HL & Hcons & Hloop & ->).
  eexists _, L, consensus. split_and!; [done|done|exact Hcons| |].
  - by rewrite dict_get_set, decide_True.
  - intros name.
    pose proof (models_loop_spec reference consensus hypotheses) as Hspec.
    rewrite Hloop in Hspec. destruct Hspec as [Hkeys _].
    rewrite dict_keys_set, <-Hkeys.
    case_decide as Hin.
    + split; [by right|]. by intros [-> | ?].
    + rewrite elem_of_app, list_elem_of_singleton. tauto.
Qed.



(** ** [should_trust_models_over_reference]: the two picked words *)

Lemma pick_words_reference mc ns :
  (∃ n, n ∈ ns ∧ "reference" ∈ sources n) →
  ∃ n, n ∈ ns ∧ "reference" ∈ sources n
       ∧ (pick_words mc ns).1 = Some (word n).
Proof.
  induction ns as [|n ns IH] using rev_ind; intros (n' & Hn' & Href).
  { by apply not_elem_of_nil in Hn'. }
  rewrite pick_words_snoc. simpl.
  destruct (decide ("reference" ∈ sources n)) as [Hn|Hn].
  { exists n. split_and!; [|done|done]. apply elem_of_app. right. by left. }
  destruct IH as (n0 & Hn0 & Href0 & Hpick).
  { exists n'. split; [|done].
    apply elem_of_app in Hn' as [?|Hn']; [done|].
    apply list_elem_of_singleton in Hn'. by subst. }
  exists n0. split_and!; [|done|done]. apply elem_of_app. by left.
Qed.

Lemma pick_words_top mc ns :
  (∃ n, n ∈ ns ∧ Qeq_bool (confidence n) mc = true) →
  ∃ n, n ∈ ns ∧ Qeq_bool (confidence n) mc = true
       ∧ (pick_words mc ns).2 = Some (word n).
Proof.
  induction ns as [|n ns IH] using rev_ind; intros (n' & Hn' & Heq).
  { by apply not_elem_of_nil in Hn'. }
  rewrite pick_words_snoc. simpl.
  destruct (Qeq_bool (confidence n) mc) eqn:Hn.
  { exists n. split_and!; [|done|done]. apply elem_of_app. right. by left. }
  destruct IH as (n0 & Hn0 & Heq0 & Hpick).
  { exists n'. split; [|done].
    apply elem_of_app in Hn' as [?|Hn']; [done|].
    apply list_elem_of_singleton in Hn'. congruence. }
  exists n0. split_and!; [|done|done]. apply elem_of_app. by left.
Qed.

(** X18: at a position where the nodes that carry ['reference'] share
    one word and the nodes of greatest confidence share one word,
    [should_trust_models_over_reference] returns true exactly when the
    greatest confidence reaches the threshold and the two words differ. *)
Theorem trust_exactly_when (L : WordLattice) (pos : nat) (t : Q)
    (nr nc : LatticeNode) :
  nr ∈ nodes L → position nr = pos → "reference" ∈ sources nr →
  nc ∈ nodes L → position nc = pos →
  (∀ n, n ∈ nodes L → position n = pos → "reference" ∈ sources n →
        word n = word nr) →
  (∀ n, n ∈ nodes L → position n = pos →
        (confidence n <= confidence nc)%Q) →
  (∀ n, n ∈ nodes L → position n = pos →
        (confidence n == confidence nc)%Q → word n = word nc) →
  ∃ b, should_trust_models_over_reference L pos t = Ok b
       ∧ (b = true ↔ (t <= confidence nc)%Q ∧ word nr ≠ word nc).
Proof.
  intros Hnr Hpr Href Hnc Hpc Huref Hmax Hutop.
  set (ns := filter (λ n, position n = pos) (nodes L)).
  assert (Hin : ∀ n, n ∈ ns ↔ position n = pos ∧ n ∈ nodes L)
    by (intros n; unfold ns; by rewrite list_elem_of_filter).
  assert (Hne : ns ≠ []).
  { intros Hnil. assert (Hnr' : nr ∈ ns) by (by apply Hin).
    rewrite Hnil in Hnr'. by apply not_elem_of_nil in Hnr'. }
  destruct (should_trust_eq L pos Hne) as (n & Hn & Hpos & Hn_max & ->).
  fold ns. eexists. split; [done|].
  assert (Hconf : (confidence n == confidence nc)%Q).
  { apply Qle_antisym; [by apply Hmax|by apply Hn_max]. }
  destruct (pick_words_reference (confidence n) ns)
    as (n1 & Hn1 & Href1 & ->).
  { exists nr. split; [by apply Hin|done]. }
  destruct (pick_words_top (confidence n) ns) as (n2 & Hn2 & Heq2 & ->).
  { exists n. split; [by apply Hin|]. apply Qeq_bool_iff. reflexivity. }
  apply Hin in Hn1 as [Hp1 Hn1]. apply Hin in Hn2 as [Hp2 Hn2].
  rewrite (Huref n1) by done.
  rewrite (Hutop n2); [|done|done|].
  2:{ apply Qeq_bool_iff in Heq2. by rewrite Heq2. }
  rewrite andb_true_iff, negb_true_iff, bool_decide_eq_false, Qle_bool_iff.
  rewrite Hconf. split; intros [? Hw]; (split; [done|]); congruence.
Qed.

Lemma trust_exactly_when_witness :
  ∃ b,
    should_trust_models_over_reference
      {| alignment_unit := "word";
         nodes := [ {| position := 0; word := "x"; sources := {["m1"; "m2"]};
                       confidence := 2 # 3 |};
                    {| position := 0; word := "b";
                       sources := {["reference"]}; confidence := 1 # 3 |} ];
         edges := []; paths := [] |} 0 (1 # 2) = Ok b
    ∧ (b = true ↔ (1 # 2 <= 2 # 3)%Q ∧ "b" ≠ "x").
Proof.
  set (nc := {| position := 0; word := "x"; sources := {["m1"; "m2"]};
                confidence := 2 # 3 |}).
  set (nr := {| position := 0; word := "b"; sources := {["reference"]};
                confidence := 1 # 3 |}).
  apply (trust_exactly_when
           {| alignment_unit := "word"; nodes := [nc; nr]; edges := [];
              paths := [] |} 0 (1 # 2) nr nc).
  - simpl. right. by left.
  - done.
  - by vm_compute.
  - simpl. by left.
  - done.
  - simpl. intros n Hn _ Href.
    apply elem_of_cons in Hn as [->|Hn].
    + by vm_compute in Href.
    + by apply list_elem_of_singleton in Hn as ->.
  - simpl. intros n Hn _.
    apply elem_of_cons in Hn as [->|Hn]; [apply Qle_refl|].
    by apply list_elem_of_singleton in Hn as ->.
  - simpl. intros n Hn _ Heq.
    apply elem_of_cons in Hn as [->|Hn]; [done|].
    by apply list_elem_of_singleton in Hn as ->.
Defined.

(** ** The counting loop: balance of the counts *)

Lemma count_run_balance (opf : nat → nat → align_op) fuel st :
  cs_i st + cs_j st ≤ fuel →
  let st' := count_run opf fuel st in
  cs_i st' = 0 ∧ cs_j st' = 0
  ∧ cs_dels st' + cs_j st + cs_ins st = cs_ins st' + cs_i st + cs_dels st
  ∧ cs_subs st' + cs_dels st' ≤ cs_subs st + cs_dels st + cs_i st
  ∧ cs_subs st' + cs_ins st' ≤ cs_subs st + cs_ins st + cs_j st.
Proof.
  revert st. induction fuel as [|fuel IH]; intros st Hfuel.
  { destruct st as [i j subs dels ins]. simpl in *.
    assert (i = 0 ∧ j = 0) as [-> ->] by lia. simpl. lia. }
  destruct st as [i j subs dels ins]. simpl in Hfuel.
  destruct i as [|i].
  { destruct j as [|j]; [simpl; lia|].
    cbn [count_run count_continue cs_i cs_j Nat.ltb Nat.leb orb].
    unfold count_next. cbn [cs_i cs_j cs_subs cs_dels cs_ins].
    edestruct (IH {| cs_i := 0; cs_j := S j - 1; cs_subs := subs;
                     cs_dels := dels; cs_ins := ins + 1 |})
      as (? & ? & ? & ? & ?); [simpl; lia|].
    simpl in *. lia. }
  destruct j as [|j].
  { cbn [count_run count_continue cs_i cs_j Nat.ltb Nat.leb orb].
    unfold count_next. cbn [cs_i cs_j cs_subs cs_dels cs_ins].
    edestruct (IH {| cs_i := i; cs_j := 0; cs_subs := subs;
                     cs_dels := dels + 1; cs_ins := ins |})
      as (? & ? & ? & ? & ?); [simpl; lia|].
    simpl in *. lia. }
  cbn [count_run count_continue cs_i cs_j Nat.ltb Nat.leb orb].
  unfold count_next. cbn [cs_i cs_j cs_subs cs_dels cs_ins].
  destruct (opf (S i) (S j));
    match goal with
    | |- context [count_run opf fuel ?s] =>
        destruct (IH s) as (? & ? & ? & ? & ?); [simpl; lia|]
    end; simpl in *; lia.
Qed.

(** X19: the counts of [compute_standard_wer] balance the lengths: the
    deletions count tokens of the hypothesis and the insertions tokens of
    the reference, so deletions plus the length of the reference equal
    insertions plus the length of the hypothesis; substitutions and
    deletions together do not exceed the length of the hypothesis, nor
    substitutions and insertions the length of the reference. *)
Theorem wer_counts_balance `{CaseFold} (hyp ref : list string) :
  ∃ r, compute_standard_wer hyp ref = Ok r
       ∧ deletions r + length ref = insertions r + length hyp
       ∧ substitutions r + deletions r ≤ length hyp
       ∧ substitutions r + insertions r ≤ length ref.
Proof.
  rewrite compute_standard_wer_eq. eexists. split; [done|].
  cbn [substitutions deletions insertions].
  unfold alignment_details_spec.
  cbn [al_substitutions al_deletions al_insertions].
  edestruct (count_run_balance (λ i j, (dp_cell hyp ref i j).2)
               (length hyp + length ref)
               {| cs_i := length hyp; cs_j := length ref; cs_subs := 0;
                  cs_dels := 0; cs_ins := 0 |})
    as (_ & _ & Hbal & Hhyp & Href); [simpl; lia|].
  simpl in *. lia.
Qed.

(** ** The two dynamic programs agree *)

Section Agree.
Context `{CaseFold}.
Variables sa sb : list string.

Lemma count_run_path i j al fuel subs dels ins :
  path sa sb i j al → i + j ≤ fuel →
  count_run (λ a b, (dp_cell sa sb a b).2) fuel
    {| cs_i := i; cs_j := j; cs_subs := subs; cs_dels := dels;
       cs_ins := ins |}
  = {| cs_i := 0; cs_j := 0;
       cs_subs := subs + length (filter (λ e : aligned, e.2 = op_substitute) al);
       cs_dels := dels + length (filter (λ e : aligned, e.2 = op_delete) al);
       cs_ins := ins + length (filter (λ e : aligned, e.2 = op_insert) al) |}.
Proof.
  intros Hpath. revert fuel subs dels ins.
  induction Hpath as [|i j x w o al Ho Hm Hx Hw Hp IH|i j w al Ho Hw Hp IH
                      |i j w al Ho Hw Hp IH]; intros fuel subs dels ins Hfuel.
  - destruct fuel; simpl; by rewrite !Nat.add_0_r.
  - destruct fuel as [|fuel]; [lia|].
    cbn [count_run count_continue cs_i cs_j Nat.ltb Nat.leb orb].
    unfold count_next. cbn [cs_i cs_j cs_subs cs_dels cs_ins].
    rewrite Ho. rewrite !filter_app, !length_app, !filter_cons. cbn [snd].
    destruct Hm as [-> | ->]; rewrite IH by lia; simpl; f_equal; lia.
  - destruct fuel as [|fuel]; [lia|].
    cbn [count_run count_continue cs_i cs_j Nat.ltb Nat.leb orb].
    unfold count_next. cbn [cs_i cs_j cs_subs cs_dels cs_ins].
    rewrite !filter_app, !length_app, !filter_cons. cbn [snd].
    destruct j as [|j].
    + rewrite IH by lia. simpl. f_equal; lia.
    + rewrite Ho. rewrite IH by lia. simpl. f_equal; lia.
  - destruct fuel as [|fuel]; [lia|].
    rewrite !filter_app, !length_app, !filter_cons. cbn [snd].
    destruct i as [|i].
    + cbn [count_run count_continue cs_i cs_j Nat.ltb Nat.leb orb].
      unfold count_next. cbn [cs_i cs_j cs_subs cs_dels cs_ins].
      replace (S j - 1) with j by lia. rewrite IH by lia.
      simpl. f_equal; lia.
    + cbn [count_run count_continue cs_i cs_j Nat.ltb Nat.leb orb].
      unfold count_next. cbn [cs_i cs_j cs_subs cs_dels cs_ins].
      rewrite Ho. rewrite IH by lia. simpl. f_equal; lia.
Qed.
End Agree.

(** X20: the two dynamic programs agree: the counts
    [compute_standard_wer] reports for a hypothesis and a reference are
    the numbers of substitutions, deletions and insertions in the
    alignment [_align_pair] returns for the same two sequences. *)
Theorem wer_counts_match_alignment `{CaseFold} (hyp ref : list string)
    (name : string) :
  ∃ alignment r,
    _align_pair hyp ref name = Ok alignment
    ∧ compute_standard_wer hyp ref = Ok r
    ∧ substitutions r
      = length (filter (λ e : aligned, e.2 = op_substitute) alignment)
    ∧ deletions r
      = length (filter (λ e : aligned, e.2 = op_delete) alignment)
    ∧ insertions r
      = length (filter (λ e : aligned, e.2 = op_insert) alignment).
Proof.
  pose proof (align_pair_path hyp ref name) as Hret.
  apply returns_exists in Hret as (alignment & Hal & Hpath).
  rewrite compute_standard_wer_eq. eexists alignment, _.
  split; [done|]. split; [done|].
  cbn [substitutions deletions insertions].
  unfold alignment_details_spec.
  rewrite (count_run_path hyp ref _ _ alignment) by done. done.
Qed.

(** ** Bounds on the distance *)

Section LevBounds.
Variables a b : list string.

Lemma lev_upper i j : lev a b i j ≤ i `max` j.
Proof.
  revert j. induction i as [|i IHi]; intros j; [rewrite lev_0; lia|].
  destruct j as [|j]; [rewrite lev_0_r; lia|].
  rewrite lev_S_S. unfold min3. specialize (IHi j). case_decide; lia.
Qed.

Lemma lev_lower i j : i - j ≤ lev a b i j ∧ j - i ≤ lev a b i j.
Proof.
  revert j. induction i as [|i IHi]; intros j; [rewrite lev_0; lia|].
  induction j as [|j IHj]; [rewrite lev_0_r; lia|].
  rewrite lev_S_S. unfold min3.
  pose proof (IHi j). pose proof (IHi (S j)). case_decide; lia.
Qed.
End LevBounds.

(** X21: the distance lies between the difference of the two lengths
    and the greater of them; the error rate is not negative, and it is at
    most 1 when the hypothesis is not longer than the reference. *)
Theorem wer_distance_bounds `{CaseFold} (hyp ref : list string) :
  ∃ r, compute_standard_wer hyp ref = Ok r
       ∧ distance r ≤ length hyp `max` length ref
       ∧ length hyp - length ref ≤ distance r
       ∧ length ref - length hyp ≤ distance r
       ∧ (0 <= wer r)%Q
       ∧ (length hyp ≤ length ref → (wer r <= 1)%Q).
Proof.
  rewrite compute_standard_wer_eq. eexists. split; [done|].
  cbn [distance wer]. unfold editdistance_eval.
  pose proof (lev_upper hyp ref (length hyp) (length ref)) as Hup.
  pose proof (lev_lower hyp ref (length hyp) (length ref)) as [Hlo1 Hlo2].
  split_and!; [done|done|done| |].
  - destruct (length ref); [done|]. unfold Qle. simpl. lia.
  - intros Hlen. destruct (length ref) as [|n] eqn:Hn; [done|].
    unfold Qle. cbn [Qnum Qden]. rewrite Zpos_of_nat by lia. lia.
Qed.

(** ** [_confidence_consensus]: the word of greatest confidence wins *)

Lemma max_from_first_Q {A} (f : A → Q) (key : A → result Q)
    (xs pre mid : list A) (best : A) :
  Forall (λ x, key x = Ok (f x)) xs →
  Forall (λ x, (f x < f best)%Q) pre →
  Forall (λ x, (f x <= f best)%Q) mid →
  ∃ r, max_from Q_gt key xs best (f best) = Ok r
       ∧ first_greatest f (pre ++ best :: mid ++ xs) r.
Proof.
  revert pre mid best.
  induction xs as [|x xs IH]; intros pre mid best Hkey Hpre Hmid.
  { exists best. split; [done|]. exists pre, mid. by rewrite app_nil_r. }
  apply Forall_cons in Hkey as [Hx Hkey]. simpl. rewrite Hx. simpl.
  unfold Q_gt at 1. destruct (Qle_bool (f x) (f best)) eqn:Hle; simpl.
  - apply Qle_bool_iff in Hle.
    destruct (IH pre (mid ++ [x]) best) as (r & Hr & Hfirst); [done|done| |].
    { apply Forall_app. split; [done|]. by repeat constructor. }
    exists r. split; [done|]. by rewrite <-app_assoc in Hfirst.
  - assert (Hlt : (f best < f x)%Q).
    { apply Qnot_le_lt. intros Hle'%Qle_bool_iff. congruence. }
    destruct (IH (pre ++ best :: mid) [] x) as (r & Hr & Hfirst);
      [done| |constructor|].
    { apply Forall_app. split.
      - eapply Forall_impl; [exact Hpre|]. simpl. intros y Hy.
        by eapply Qlt_trans.
      - constructor; [done|]. eapply Forall_impl; [exact Hmid|]. simpl.
        intros y Hy. by eapply Qle_lt_trans. }
    exists r. split; [done|]. simpl in Hfirst.
    by rewrite <-app_assoc in Hfirst.
Qed.

Lemma py_max_first_Q {A} (f : A → Q) (key : A → result Q) (xs : list A) :
  xs ≠ [] →
  Forall (λ x, key x = Ok (f x)) xs →
  ∃ r, py_max Q_gt key xs = Ok r ∧ first_greatest f xs r.
Proof.
  intros Hne Hkey. destruct xs as [|x xs]; [done|].
  apply Forall_cons in Hkey as [Hx Hkey]. simpl. rewrite Hx. simpl.
  destruct (max_from_first_Q f key xs [] [] x) as (r & Hr & Hfirst);
    [done|constructor|constructor|].
  by exists r.
Qed.

Lemma first_greatest_fmap {A B} (g : A → B) (f : B → Q) (l : list A)
    (r : B) :
  first_greatest f (g <$> l) r → ∃ a, r = g a ∧ first_greatest (f ∘ g) l a.
Proof.
  intros (pre & post & Heq & Hpre & Hpost).
  apply fmap_app_inv in Heq as (lpre & l2 & -> & Hl2 & ->).
  symmetry in Hl2.
  apply fmap_cons_inv in Hl2 as (a & lpost & -> & -> & ->).
  exists a. split; [done|]. exists lpre, lpost. split; [done|].
  by rewrite !Forall_fmap in Hpre, Hpost.
Qed.

Lemma confidence_first_greatest (ns : list LatticeNode) (ps : list nat) :
  (∀ p, p ∈ ps → ∃ n, n ∈ ns ∧ position n = p) →
  returns
    (pick_best Q_gt (group_nodes (λ n, (word n, confidence n)) [] ns) ps [])
    (Forall2 (λ p w,
       ∃ n, first_greatest confidence (filter (λ n, position n = p) ns) n
            ∧ word n = w) ps).
Proof.
  intros Hps. unfold pick_best.
  apply (returns_for_each (λ pre s,
    Forall2 (λ p w,
       ∃ n, first_greatest confidence (filter (λ n, position n = p) ns) n
            ∧ word n = w) pre s)).
  { constructor. }
  intros pre p rest s Heq Hs. simpl.
  rewrite group_nodes_get. simpl.
  destruct (Hps p) as (n0 & Hn0 & Hp0).
  { rewrite Heq. apply elem_of_app. right. apply elem_of_cons. by left. }
  destruct (py_max_first_Q snd (λ x : string * Q, Ok x.2)
              ((λ n, (word n, confidence n))
                 <$> filter (λ n, position n = p) ns))
    as (r & -> & Hfirst).
  { intros Hnil. apply fmap_nil_inv in Hnil.
    assert (Hin : n0 ∈ filter (λ n, position n = p) ns)
      by (by apply list_elem_of_filter).
    rewrite Hnil in Hin. by apply not_elem_of_nil in Hin. }
  { by apply Forall_forall. }
  simpl. apply first_greatest_fmap in Hfirst as (n & -> & Hfirst).
  apply Forall2_app; [done|]. constructor; [|constructor]. by exists n.
Qed.

(** X22: on any lattice, [get_consensus_transcription] with the strategy
    ['confidence'] has, for each occupied position in ascending order,
    the word of the node of greatest confidence among the nodes at the
    position; among several such nodes the first in the node list wins. *)
Theorem confidence_picks_greatest (L : WordLattice) :
  ∃ ws ps,
    (get_consensus_transcription L "confidence").2 = Ok ws
    ∧ StronglySorted lt ps
    ∧ (∀ p, p ∈ ps ↔ ∃ n, n ∈ nodes L ∧ position n = p)
    ∧ Forall2 (λ p w,
        ∃ n, first_greatest confidence
               (filter (λ n, position n = p) (nodes L)) n
             ∧ word n = w) ps ws.
Proof.
  destruct (consensus_spec Q_gt confidence (nodes L))
    as (Hsorted & Hps & _).
  set (ps := merge_sort (≤) (dict_keys (group_nodes
               (λ n, (word n, confidence n)) [] (nodes L)))) in *.
  pose proof (confidence_first_greatest (nodes L) ps) as Hret.
  apply returns_exists in Hret as (ws & Hws & Hall).
  - by exists ws, ps.
  - intros p Hp. by apply Hps.
Qed.
